(** * TTS_autistico: the text pipeline and the per-guild playback pipeline

    A shallow embedding of [autocorrector.py], [tts_handler.py] and
    [voice_manager.py], with the statements of the specification proved or
    refuted against it.  The message handler and the commands of
    [bot.py] and the user list of [config.py] follow, with further
    properties of all five files.

    Conventions.
    - A Python [str] is a [list ascii]; a character is read as the Unicode
      code point of the same number (the Latin-1 block, code points 0..255),
      and the classes [\s], [\w], [\d] and the case folding of [re] are
      Unicode's on this range.
    - Awaited calls into discord.py and edge-tts (connect, move_to,
      disconnect, the speech stream) take their outcome as an argument.
    - [join_channel], [leave_channel] and [play_audio] are one step each,
      their awaited call included; a worker runs without interruption from
      one suspension point to the next; the event loop is a list of
      events, with the passing of time and what happens to a connection
      from outside among them. *)

From Stdlib Require Import Ascii String QArith Lia.
From stdpp Require Import gmap strings list.
From Stdlib Require DecimalString Sorted.

Open Scope Z_scope.

(** ** Python strings *)

Module Py.

Definition str := list ascii.

Definition txt (lit : string) : str := list_ascii_of_string lit.

Definition code (c : ascii) : N := N_of_ascii c.

Definition between (lo hi : N) (c : ascii) : bool :=
  ((lo <=? code c) && (code c <=? hi))%N.

(** [str.isspace] and [\s]: the Unicode white space below U+0100. *)
Definition isspace (c : ascii) : bool :=
  between 9 13 c || between 28 32 c || (code c =? 133)%N || (code c =? 160)%N.

(** [\d]: the decimal digits below U+0100. *)
Definition isdecimal (c : ascii) : bool := between 48 57 c.

(** [str.isalnum] below U+0100: letters, digits, and the numeric signs
    U+00AA, U+00B2, U+00B3, U+00B5, U+00B9, U+00BA, U+00BC..U+00BE. *)
Definition isalnum (c : ascii) : bool :=
  between 48 57 c || between 65 90 c || between 97 122 c
  || (code c =? 170)%N || between 178 179 c || (code c =? 181)%N
  || between 185 186 c || between 188 190 c
  || between 192 214 c || between 216 246 c || between 248 255 c.

(** [\w]: alphanumeric or the underscore. *)
Definition isword (c : ascii) : bool := isalnum c || (code c =? 95)%N.

(** [str.lower] on one character below U+0100. *)
Definition lower (c : ascii) : ascii :=
  if between 65 90 c || between 192 214 c || between 216 222 c
  then ascii_of_N (code c + 32) else c.

Definition ascii_eqb (a b : ascii) : bool := (code a =? code b)%N.

(** Membership of a character in the characters of a literal, for [[...]]. *)
Definition one_of (set : string) (c : ascii) : bool :=
  existsb (ascii_eqb c) (txt set).

Fixpoint lstrip (t : str) : str :=
  match t with
  | c :: t' => if isspace c then lstrip t' else t
  | [] => []
  end.

Definition rstrip (t : str) : str := rev (lstrip (rev t)).

(** [text.strip()] *)
Definition strip (t : str) : str := rstrip (lstrip t).

(** [text.split()]: the maximal runs of non-space characters.  [cur] is the
    word being read, reversed. *)
Fixpoint split_from (cur : str) (t : str) : list str :=
  match t with
  | [] => match cur with [] => [] | _ => [rev cur] end
  | c :: t' =>
      if isspace c
      then match cur with
           | [] => split_from [] t'
           | _ => rev cur :: split_from [] t'
           end
      else split_from (c :: cur) t'
  end.

Definition split (t : str) : list str := split_from [] t.

(** [sep.join(words)] *)
Fixpoint join (sep : str) (words : list str) : str :=
  match words with
  | [] => []
  | [w] => w
  | w :: ws => w ++ sep ++ join sep ws
  end.

(** A character that is not white space. *)
Definition no_space (c : ascii) : Prop := isspace c = false.

(** A text that neither begins nor ends with white space. *)
Definition trimmed (t : str) : Prop :=
  (forall c, head t = Some c -> no_space c) /\
  (forall c, last t = Some c -> no_space c).

(** A word of [split]: not empty and free of white space. *)
Definition is_word (w : str) : Prop := w <> [] /\ Forall no_space w.

End Py.

(** ** The part of [re] that the repository uses *)

Module Re.

Import Py.

Inductive regex : Type :=
| Eps                                  (* the empty pattern *)
| Lit (c : ascii)                      (* a literal, plain or escaped *)
| Cls (p : ascii -> bool)              (* a class: [\s] [\w] [\d] [...] [.] *)
| Cat (r1 r2 : regex)
| Alt (r1 r2 : regex)                  (* r1|r2, r1 tried first *)
| Star (greedy : bool) (r : regex)     (* r* and r*? *)
| Grp (r : regex)                      (* the capture group 1 *)
| NotBehindWord                        (* (?<!\w) *)
| NotAheadWord.                        (* (?!\w) *)

Definition Plus (r : regex) : regex := Cat r (Star true r).
Definition Opt (r : regex) : regex := Alt r Eps.
Definition Seq (rs : list regex) : regex := foldr Cat Eps rs.
Definition Word (lit : string) : regex := Seq (map Lit (txt lit)).

(** [.] without and with [re.DOTALL] *)
Definition dot : regex := Cls (fun c => negb (ascii_eqb c "010"%char)).
Definition dotall : regex := Cls (fun _ => true).

(** A position in the subject during one match attempt: the character before
    it, the text after it, the number of characters matched so far and the
    text of group 1. *)
Record mstate : Type := MState {
  m_prev : option ascii;
  m_rest : str;
  m_used : nat;
  m_grp : str
}.

Definition eat (c : ascii) (t : str) (st : mstate) : mstate :=
  MState (Some c) t (S (m_used st)) (m_grp st).

Definition set_grp (g : str) (st : mstate) : mstate :=
  MState (m_prev st) (m_rest st) (m_used st) g.

(** [st1] lies further on in the subject of [st]: what has been matched
    and what is left add up to the same. *)
Definition further (st st1 : mstate) : Prop :=
  (m_used st1 + length (m_rest st1) = m_used st + length (m_rest st))%nat.

(** A pattern whose result depends on its continuation only at positions
    further on. *)
Definition local {A : Type}
    (body : mstate -> (mstate -> option A) -> option A) : Prop :=
  forall st k k', (forall st1, further st st1 -> k st1 = k' st1) ->
                  body st k = body st k'.

(** Comparison of a pattern literal with a subject character; with
    [re.IGNORECASE] both are lowered. *)
Definition lit_eq (icase : bool) (p c : ascii) : bool :=
  if icase then ascii_eqb (lower c) (lower p) else ascii_eqb c p.

Section Matcher.

Variable icase : bool.
Context {A : Type}.

(** The iterations of a star: [body] matches the starred pattern once.  An
    iteration has to consume a character; [n] bounds the number of
    iterations. *)
Fixpoint star_loop (greedy : bool)
    (body : mstate -> (mstate -> option A) -> option A)
    (k : mstate -> option A) (n : nat) (st : mstate) : option A :=
  match n with
  | O => k st
  | S n' =>
      let again st1 :=
        if (m_used st <? m_used st1)%nat
        then star_loop greedy body k n' st1 else None in
      if greedy
      then match body st again with
           | Some a => Some a
           | None => k st
           end
      else match k st with
           | Some a => Some a
           | None => body st again
           end
  end.

(** The backtracking matcher, with the continuation [k] for the rest of
    the pattern.  A star is given one iteration more than there are
    characters left, which it cannot use up. *)
Fixpoint rmatch (r : regex) (st : mstate) (k : mstate -> option A)
  : option A :=
  match r with
  | Eps => k st
  | Lit p =>
      match m_rest st with
      | c :: t => if lit_eq icase p c then k (eat c t st) else None
      | [] => None
      end
  | Cls p =>
      match m_rest st with
      | c :: t => if p c then k (eat c t st) else None
      | [] => None
      end
  | Cat r1 r2 => rmatch r1 st (fun st1 => rmatch r2 st1 k)
  | Alt r1 r2 =>
      match rmatch r1 st k with
      | Some a => Some a
      | None => rmatch r2 st k
      end
  | Star greedy r1 =>
      star_loop greedy (rmatch r1) k (S (length (m_rest st))) st
  | Grp r1 =>
      rmatch r1 st (fun st1 =>
        k (set_grp (take (m_used st1 - m_used st) (m_rest st)) st1))
  | NotBehindWord =>
      match m_prev st with
      | Some c => if isword c then None else k st
      | None => k st
      end
  | NotAheadWord =>
      match m_rest st with
      | c :: _ => if isword c then None else k st
      | [] => k st
      end
  end.

End Matcher.

(** The match that starts at the current position, if any: its length and
  its group 1. *)
Definition match_at (icase : bool) (r : regex) (prev : option ascii) (t : str)
: option (nat * str) :=
rmatch icase r (MState prev t 0 []) (fun st => Some (m_used st, m_grp st)).

(** Replacement templates: a text without escapes, or [r'\1']. *)
Inductive template : Type :=
| Text (t : str)
| Group1.

Definition expand (tpl : template) (g : str) : str :=
match tpl with
| Text t => t
| Group1 => g
end.

Section Sub.

Variable icase : bool.
Variable r : regex.
Variable tpl : template.

(** [re.sub] scans from the left.  [skip] counts the characters of the
    current match that are still to be passed over; a match is looked for
    wherever [skip] is 0, also right after a match and at the end. *)
Fixpoint sub_scan (prev : option ascii) (t : str) (skip : nat) : str :=
  match t with
  | [] =>
      match skip, match_at icase r prev [] with
      | O, Some (_, g) => expand tpl g
      | _, _ => []
      end
  | c :: t' =>
      match skip with
      | S n => sub_scan (Some c) t' n
      | O =>
          match match_at icase r prev t with
          | Some (S n, g) => expand tpl g ++ sub_scan (Some c) t' n
          | Some (O, g) => expand tpl g ++ c :: sub_scan (Some c) t' 0
          | None => c :: sub_scan (Some c) t' 0
          end
      end
  end.

(** Does the pattern match anywhere in [t]? *)
Fixpoint search_from (prev : option ascii) (t : str) : bool :=
  match match_at icase r prev t with
  | Some _ => true
  | None =>
      match t with
      | [] => false
      | c :: t' => search_from (Some c) t'
      end
  end.

End Sub.

(** [re.sub(pattern, repl, text)] *)
Definition sub (icase : bool) (r : regex) (tpl : template) (t : str) : str :=
  sub_scan icase r tpl None t 0.

(** [re.search(pattern, text) is not None] *)
Definition search (icase : bool) (r : regex) (t : str) : bool :=
  search_from icase r None t.

End Re.

(** ** autocorrector.py *)

Module Autocorrector.

Import Py Re.

(** The dict [SUSTITUCIONES], in insertion order.  The sixth replacement has
    U+00F1 as its third character. *)
Definition SUSTITUCIONES : list (str * str) :=
  [ (txt "xd", txt "X D");
    (txt "wtf?", txt "watafac?");
    (txt "wtf", txt "watafac");
    (txt "omg", txt "o-em-ge");
    (txt "porno", txt "nopor");
    (txt "hitler", txt "se" ++ [ascii_of_N 241] ++ txt "or del bigote") ].

(** The pieces that [_flexible_pattern_for] appends to [parts]. *)
Inductive piece : Type :=
| PLit (c : ascii)      (* re.escape(ch) *)
| PSpaces.              (* \s* *)

Definition pieces_for (ch : ascii) : list piece :=
  if isspace ch then []
  else if isword ch then [PLit ch; PSpaces]
  else [PSpaces; PLit ch; PSpaces].

(** [re.sub(r"\\s\*\Z", "", inner)]: one final [\s*] is removed. *)
Definition drop_final_spaces (ps : list piece) : list piece :=
  match rev ps with
  | PSpaces :: front => rev front
  | _ => ps
  end.

Definition regex_of_piece (p : piece) : regex :=
  match p with
  | PLit c => Lit c
  | PSpaces => Star true (Cls isspace)
  end.

Definition _flexible_pattern_for (token : str) : regex :=
  let token := strip token in
  let inner := drop_final_spaces (concat (map pieces_for token)) in
  Cat NotBehindWord (Cat (Seq (map regex_of_piece inner)) NotAheadWord).

(** One turn of the loop of [autocorregir_mensaje]; the pattern is compiled
    with [re.IGNORECASE | re.UNICODE]. *)
Definition sustituir (resultado : str) (item : str * str) : str :=
  Re.sub true (_flexible_pattern_for (fst item)) (Text (snd item)) resultado.

Definition autocorregir_mensaje (texto : str) : str :=
  foldl sustituir texto SUSTITUCIONES.

(** A text has a matchable token when the pattern of some entry of
    [SUSTITUCIONES] matches somewhere in it. *)
Definition matchable (texto : str) : bool :=
  existsb (fun item => Re.search true (_flexible_pattern_for (fst item)) texto)
          SUSTITUCIONES.

End Autocorrector.

(** ** tts_handler.py *)

Module TTSHandler.

Import Py Re.

Definition digits : regex := Plus (Cls isdecimal).

(** [<@[!&]?\d+>] *)
Definition re_user_mention : regex :=
  Seq [Word "<@"; Opt (Cls (one_of "!&")); digits; Lit ">"].

(** [<#\d+>] *)
Definition re_channel_mention : regex := Seq [Word "<#"; digits; Lit ">"].

(** [<:\w+:\d+>] *)
Definition re_custom_emoji : regex :=
  Seq [Word "<:"; Plus (Cls isword); Lit ":"; digits; Lit ">"].

(** [```.*?```] with [re.DOTALL] *)
Definition re_code_block : regex :=
  Seq [Word "```"; Star false dotall; Word "```"].

(** [`.*?`] *)
Definition re_inline_code : regex := Seq [Lit "`"; Star false dot; Lit "`"].

(** [\*\*(.*?)\*\*], [\*(.*?)\*], [~~(.*?)~~], [__(.*?)__] *)
Definition re_wrapped (mark : string) : regex :=
  Seq [Word mark; Grp (Star false dot); Word mark].

(** [[$-_@.&+]]: the range from [$] to [_] and four more characters. *)
Definition url_punct (c : ascii) : bool := between 36 95 c || one_of "@.&+" c.

Definition hexdigit (c : ascii) : bool :=
  between 48 57 c || between 97 102 c || between 65 70 c.

Definition letter (c : ascii) : bool := between 97 122 c || between 65 90 c.

(** [http[s]?://(?:[a-zA-Z]|[0-9]|[$-_@.&+]|[!*\\(\\),]|(?:%[0-9a-fA-F][0-9a-fA-F]))+] *)
Definition re_url : regex :=
  Seq [Word "http"; Opt (Lit "s"); Word "://";
       Plus (Alt (Cls letter)
            (Alt (Cls (between 48 57))
            (Alt (Cls url_punct)
            (Alt (Cls (one_of "!*\(\),"))
                 (Seq [Lit "%"; Cls hexdigit; Cls hexdigit])))))].

(** The substitutions of [clean_text], up to the URL removal. *)
Definition remove_markup (text : str) : str :=
  let text := Re.sub false re_user_mention (Text []) text in
  let text := Re.sub false re_channel_mention (Text []) text in
  let text := Re.sub false re_custom_emoji (Text []) text in
  let text := Re.sub false re_code_block (Text []) text in
  let text := Re.sub false re_inline_code (Text []) text in
  let text := Re.sub false (re_wrapped "**") Group1 text in
  let text := Re.sub false (re_wrapped "*") Group1 text in
  let text := Re.sub false (re_wrapped "~~") Group1 text in
  let text := Re.sub false (re_wrapped "__") Group1 text in
  Re.sub false re_url (Text []) text.

(** [' '.join(text.split())] *)
Definition collapse_spaces (text : str) : str := join (txt " ") (split text).

(** The text as it is when [clean_text] measures its length. *)
Definition sanitized (text : str) : str := collapse_spaces (remove_markup text).

Definition ellipsis : str := txt "...".

Definition clean_text (text : str) : str :=
  let text := sanitized text in
  let text :=
    if (500 <? length text)%nat then take 500 text ++ ellipsis else text in
  strip text.

(** The object of [TTSHandler]: the voice settings. *)
Record handler : Type := Handler {
  voice : string;
  rate : string;
  volume : string
}.

(** The arguments of [edge_tts.Communicate]. *)
Record request : Type := Request {
  rq_text : str;
  rq_voice : string;
  rq_rate : string;
  rq_volume : string
}.

(** A chunk of [communicate.stream()]: [chunk["type"]] and [chunk["data"]]. *)
Record chunk : Type := Chunk {
  chunk_type : string;
  chunk_data : list Byte.byte
}.

(** What the provider does with a request: the stream ends after these
    chunks, or the call or the stream raises (an error or a timeout). *)
Inductive provider_outcome : Type :=
| Streamed (chunks : list chunk)
| Raises.

(** The loop [async for chunk in communicate.stream()]. *)
Definition collect_audio (chunks : list chunk) : list Byte.byte :=
  foldl (fun audio_data ch =>
           if String.eqb (chunk_type ch) "audio"
           then audio_data ++ chunk_data ch else audio_data)
        [] chunks.

Definition is_empty {A : Type} (l : list A) : bool :=
  match l with [] => true | _ => false end.

Definition generate_tts (self : handler) (provider : request -> provider_outcome)
    (text : str) : option (list Byte.byte) :=
  let clean := clean_text text in
  if is_empty clean then None
  else
    match provider (Request clean (voice self) (rate self) (volume self)) with
    | Raises => None
    | Streamed chunks =>
        let audio_data := collect_audio chunks in
        if is_empty audio_data then None else Some audio_data
    end.

End TTSHandler.

(** ** voice_manager.py *)

Module VoiceManager.

Import Py.

(** A [discord.VoiceChannel]: [channel.id] and [channel.guild.id]. *)
Record VoiceChannel : Type := Channel {
  ch_id : Z;
  ch_guild : Z
}.

(** A [discord.VoiceClient] object. *)
Record VoiceClient : Type := Client {
  vc_guild : Z;
  vc_channel : Z;         (* voice_client.channel.id *)
  vc_connected : bool;    (* voice_client.is_connected() *)
  vc_playing : bool       (* voice_client.is_playing() *)
}.

(** The dict [audio_item] that [play_audio] puts into the queue. *)
Record audio_item : Type := Item {
  data : list Byte.byte;
  source : str
}.

(** Where a task of [_process_audio_queue] is suspended.  A queue or a voice
    client that the coroutine holds in a local variable is a reference into
    the store of the state. *)
Inductive pc : Type :=
| Ready                    (* created, not yet run *)
| WaitGet (q : nat) (deadline : Q)
                           (* wait_for(queue.get(), timeout=300) *)
| Grace (wake : Q)         (* asyncio.sleep(10) *)
| Backoff (wake : Q)       (* asyncio.sleep(2) *)
| WaitFree (c : nat) (item : audio_item) (wake : Q)
                           (* asyncio.sleep(0.5) *)
| InPlayback (c : nat) (item : audio_item) (done : bool) (deadline : Q)
                           (* wait_for(playback_done.wait(), timeout=60) *)
| ErrPause (wake : Q)      (* asyncio.sleep(1) *)
| Stopped.                 (* the coroutine has returned *)

Record task : Type := Task {
  t_guild : Z;
  t_pc : pc
}.

(** The bot, its [VoiceManager] and the event loop.  [enqueued] and [played]
    are history: the items for which [play_audio] returned [True] and the
    calls of [_play_audio_data], each with its guild, oldest first. *)
Record state : Type := State {
  now : Q;
  clients : list VoiceClient;               (* the VoiceClient objects *)
  voice_client : gmap Z nat;                (* guild.voice_client, also
                                               bot.voice_clients by guild *)
  queues : list (list audio_item);          (* the asyncio.Queue objects *)
  audio_queue : gmap Z nat;                 (* self.audio_queue *)
  playing : gmap Z bool;                    (* self.playing *)
  voice_text_channels : gmap Z Z;           (* self.bot.voice_text_channels *)
  tasks : list task;                        (* the tasks of asyncio.create_task *)
  enqueued : list (Z * audio_item);
  played : list (Z * audio_item)
}.

Definition init : state := State 0 [] ∅ [] ∅ ∅ ∅ [] [] [].

Definition with_now (x : Q) (s : state) : state :=
  State x (clients s) (voice_client s) (queues s) (audio_queue s) (playing s)
        (voice_text_channels s) (tasks s) (enqueued s) (played s).
Definition with_clients (x : list VoiceClient) (s : state) : state :=
  State (now s) x (voice_client s) (queues s) (audio_queue s) (playing s)
        (voice_text_channels s) (tasks s) (enqueued s) (played s).
Definition with_voice_client (x : gmap Z nat) (s : state) : state :=
  State (now s) (clients s) x (queues s) (audio_queue s) (playing s)
        (voice_text_channels s) (tasks s) (enqueued s) (played s).
Definition with_queues (x : list (list audio_item)) (s : state) : state :=
  State (now s) (clients s) (voice_client s) x (audio_queue s) (playing s)
        (voice_text_channels s) (tasks s) (enqueued s) (played s).
Definition with_audio_queue (x : gmap Z nat) (s : state) : state :=
  State (now s) (clients s) (voice_client s) (queues s) x (playing s)
        (voice_text_channels s) (tasks s) (enqueued s) (played s).
Definition with_playing (x : gmap Z bool) (s : state) : state :=
  State (now s) (clients s) (voice_client s) (queues s) (audio_queue s) x
        (voice_text_channels s) (tasks s) (enqueued s) (played s).
Definition with_voice_text_channels (x : gmap Z Z) (s : state) : state :=
  State (now s) (clients s) (voice_client s) (queues s) (audio_queue s)
        (playing s) x (tasks s) (enqueued s) (played s).
Definition with_tasks (x : list task) (s : state) : state :=
  State (now s) (clients s) (voice_client s) (queues s) (audio_queue s)
        (playing s) (voice_text_channels s) x (enqueued s) (played s).
Definition with_enqueued (x : list (Z * audio_item)) (s : state) : state :=
  State (now s) (clients s) (voice_client s) (queues s) (audio_queue s)
        (playing s) (voice_text_channels s) (tasks s) x (played s).
Definition with_played (x : list (Z * audio_item)) (s : state) : state :=
  State (now s) (clients s) (voice_client s) (queues s) (audio_queue s)
        (playing s) (voice_text_channels s) (tasks s) (enqueued s) x.

(** *** The objects of discord.py and asyncio *)

(** [voice_client and voice_client.is_connected()], for the voice client of
    the guild: its reference when it holds. *)
Definition connected_client (s : state) (g : Z) : option nat :=
  match voice_client s !! g with
  | Some c =>
      match clients s !! c with
      | Some vc => if vc_connected vc then Some c else None
      | None => None
      end
  | None => None
  end.

Definition channel_of (s : state) (c : nat) : option Z :=
  vc_channel <$> clients s !! c.

Definition client_playing (s : state) (c : nat) : bool :=
  match clients s !! c with
  | Some vc => vc_playing vc
  | None => false
  end.

(** [await channel.connect()] when it succeeds: a new client object, which
    becomes the voice client of the guild. *)
Definition connect (channel : VoiceChannel) (s : state) : state * nat :=
  let c := length (clients s) in
  let vc := Client (ch_guild channel) (ch_id channel) true false in
  (with_voice_client (<[ch_guild channel := c]> (voice_client s))
     (with_clients (clients s ++ [vc]) s), c).

(** [await voice_client.move_to(channel)] when it succeeds. *)
Definition move_to (c : nat) (channel : VoiceChannel) (s : state) : state :=
  with_clients
    (alter (fun vc => Client (vc_guild vc) (ch_id channel) (vc_connected vc)
                             (vc_playing vc)) c (clients s)) s.

Definition mark_done (c : nat) (t : task) : task :=
  match t_pc t with
  | InPlayback c' item _ deadline =>
      if (c' =? c)%nat then Task (t_guild t) (InPlayback c' item true deadline)
      else t
  | _ => t
  end.

(** The player of client [c] ends: [is_playing()] is false from now on and
    the callback [after_playing] sets [playback_done]. *)
Definition stop_player (c : nat) (s : state) : state :=
  with_tasks (map (mark_done c) (tasks s))
    (with_clients
       (alter (fun vc => Client (vc_guild vc) (vc_channel vc) (vc_connected vc)
                                false) c (clients s)) s).

(** [voice_client.play(audio_source, after=after_playing)] when it starts. *)
Definition start_player (c : nat) (s : state) : state :=
  with_clients
    (alter (fun vc => Client (vc_guild vc) (vc_channel vc) (vc_connected vc)
                             true) c (clients s)) s.

(** [await voice_client.disconnect()] when it succeeds: the player is
    stopped and the guild has no voice client any more. *)
Definition disconnect (g : Z) (c : nat) (s : state) : state :=
  let s := stop_player c s in
  with_voice_client (delete g (voice_client s))
    (with_clients
       (alter (fun vc => Client (vc_guild vc) (vc_channel vc) false
                                (vc_playing vc)) c (clients s)) s).

Definition queue_of (s : state) (q : nat) : list audio_item :=
  default [] (queues s !! q).

Definition set_queue (q : nat) (items : list audio_item) (s : state) : state :=
  with_queues (<[q := items]> (queues s)) s.

(** [await queue.put(item)]; the queues are unbounded. *)
Definition put (q : nat) (item : audio_item) (s : state) : state :=
  set_queue q (queue_of s q ++ [item]) s.

(** [self.audio_queue[guild.id] = asyncio.Queue()] and
    [self.playing[guild.id] = False] *)
Definition new_queue (g : Z) (s : state) : state :=
  with_playing (<[g := false]> (playing s))
    (with_audio_queue (<[g := length (queues s)]> (audio_queue s))
       (with_queues (queues s ++ [[]]) s)).

(** [asyncio.create_task(self._process_audio_queue(guild.id))] *)
Definition create_task (g : Z) (s : state) : state :=
  with_tasks (tasks s ++ [Task g Ready]) s.

(** *** The methods called by the bot *)

Definition is_empty {A : Type} (l : list A) : bool :=
  match l with [] => true | _ => false end.

(** [ok] is the outcome of the awaited call, [move_to] or [connect]; any
    exception is caught and [None] returned. *)
Definition join_channel (channel : VoiceChannel) (ok : bool) (s : state)
  : state * option nat :=
  let g := ch_guild channel in
  match connected_client s g with
  | Some c =>
      if decide (channel_of s c = Some (ch_id channel)) then (s, Some c)
      else if ok then (move_to c channel s, Some c)
      else (s, None)
  | None =>
      if ok then
        let '(s, c) := connect channel s in
        let s := match audio_queue s !! g with
                 | Some _ => s
                 | None => new_queue g s
                 end in
        let s := match playing s !! g with
                 | Some true => s
                 | _ => create_task g s
                 end in
        (s, Some c)
      else (s, None)
  end.

Inductive outcome : Type :=
| Returns
| Raised.

(** [del self.audio_queue[guild.id]] and [del self.playing[guild.id]], after
    the queue has been emptied.  [del] raises [KeyError] on a missing key. *)
Definition clean_up_queue (g : Z) (s : state) : state * outcome :=
  match audio_queue s !! g with
  | Some q =>
      let s := with_audio_queue (delete g (audio_queue s)) (set_queue q [] s) in
      match playing s !! g with
      | Some _ => (with_playing (delete g (playing s)) s, Returns)
      | None => (s, Raised)
      end
  | None => (s, Returns)
  end.

(** [ok] is the outcome of [disconnect]; an exception is logged and raised
    again. *)
Definition leave_channel (g : Z) (ok : bool) (s : state) : state * outcome :=
  match connected_client s g with
  | Some c =>
      if ok then
        match clean_up_queue g (disconnect g c s) with
        | (s, Returns) =>
            (with_voice_text_channels (delete g (voice_text_channels s)) s,
             Returns)
        | (s, Raised) => (s, Raised)
        end
      else (s, Raised)
  | None => (s, Returns)
  end.

(** [ok] is the outcome of the awaited call, [connect] or [move_to]; any
    exception is caught and [False] returned. *)
Definition play_audio (channel : VoiceChannel) (audio_data : list Byte.byte)
    (username : str) (ok : bool) (s : state) : state * bool :=
  let g := ch_guild channel in
  let connected :=
    match connected_client s g with
    | Some c => Some (s, c)
    | None => if ok then Some (connect channel s) else None
    end in
  match connected with
  | None => (s, false)
  | Some (s1, c) =>
      let moved :=
        if decide (channel_of s1 c = Some (ch_id channel)) then Some s1
        else if ok then Some (move_to c channel s1) else None in
      match moved with
      | None => (s1, false)
      | Some s2 =>
          let s3 := match audio_queue s2 !! g with
                    | Some _ => s2
                    | None => create_task g (new_queue g s2)
                    end in
          let audio_item := Item audio_data username in
          match audio_queue s3 !! g with
          | Some q =>
              (with_enqueued (enqueued s3 ++ [(g, audio_item)])
                 (put q audio_item s3), true)
          | None => (s3, false)
          end
      end
  end.

(** *** The worker [_process_audio_queue] *)

(** What a resumed worker finds outside the program: whether
    [self.bot.get_guild(guild_id)] knows the guild, and whether the temporary
    file and [discord.FFmpegPCMAudio] can be made. *)
Record worker_env : Type := Env {
  guild_known : bool;
  media_ok : bool
}.

Definition due (t : Q) (s : state) : bool := Qle_bool t (now s).

(** The test of the [while] and the [wait_for] that follows it. *)
Definition loop_head (g : Z) (s : state) : pc :=
  match audio_queue s !! g with
  | Some q => WaitGet q (now s + 300)%Q
  | None => Stopped
  end.

(** [guild_id in self.audio_queue and self.audio_queue[guild_id].empty()] *)
Definition registered_and_empty (g : Z) (s : state) : bool :=
  match audio_queue s !! g with
  | Some q => is_empty (queue_of s q)
  | None => false
  end.

(** [_play_audio_data], up to its [wait_for]: the deadline when the player
    has been started, [None] when the method returns at once (empty data, or
    an exception, which it catches). *)
Definition _play_audio_data (env : worker_env) (c : nat) (item : audio_item)
    (s : state) : state * option Q :=
  if is_empty (data item) then (s, None)
  else if negb (media_ok env) then (s, None)
  else
    match clients s !! c with
    | Some vc =>
        if vc_connected vc && negb (vc_playing vc)
        then (start_player c s, Some (now s + 60)%Q)
        else (s, None)
    | None => (s, None)
    end.

(** [await self._play_audio_data(voice_client, audio_item)] *)
Definition hand_over (env : worker_env) (g : Z) (c : nat) (item : audio_item)
    (s : state) : state * pc :=
  let s := with_played (played s ++ [(g, item)]) s in
  match _play_audio_data env c item s with
  | (s, Some deadline) => (s, InPlayback c item false deadline)
  | (s, None) => (s, loop_head g s)
  end.

(** [while voice_client.is_playing(): await asyncio.sleep(0.5)] *)
Definition wait_free (env : worker_env) (g : Z) (c : nat) (item : audio_item)
    (s : state) : state * pc :=
  if client_playing s c then (s, WaitFree c item (now s + (1 # 2))%Q)
  else hand_over env g c item s.

(** [await self.audio_queue[guild_id].put(audio_item)] and the sleep after
    it; a [KeyError] goes to the handler of the loop. *)
Definition put_back (g : Z) (item : audio_item) (s : state) : state * pc :=
  match audio_queue s !! g with
  | Some q => (put q item s, Backoff (now s + 2)%Q)
  | None => (s, ErrPause (now s + 1)%Q)
  end.

(** The body of the loop once [audio_item] has been taken from the queue. *)
Definition after_get (env : worker_env) (g : Z) (item : audio_item) (s : state)
  : state * pc :=
  if negb (guild_known env) then (s, loop_head g s)
  else
    match connected_client s g with
    | Some c => wait_free env g c item s
    | None => put_back g item s
    end.

(** The handler of [asyncio.TimeoutError]. *)
Definition on_timeout (g : Z) (s : state) : pc :=
  if registered_and_empty g s then Grace (now s + 10)%Q else loop_head g s.

(** After the sleep of the grace period. *)
Definition after_grace (g : Z) (s : state) : pc :=
  if registered_and_empty g s then Stopped else loop_head g s.

(** The worker of guild [g], suspended at [p], runs to its next suspension
    point; [None] when what it waits for has not happened yet. *)
Definition _process_audio_queue (env : worker_env) (g : Z) (p : pc) (s : state)
  : option (state * pc) :=
  match p with
  | Ready => Some (s, loop_head g s)
  | WaitGet q deadline =>
      match queue_of s q with
      | item :: rest => Some (after_get env g item (set_queue q rest s))
      | [] => if due deadline s then Some (s, on_timeout g s) else None
      end
  | Grace wake => if due wake s then Some (s, after_grace g s) else None
  | Backoff wake => if due wake s then Some (s, loop_head g s) else None
  | WaitFree c item wake =>
      if due wake s then Some (wait_free env g c item s) else None
  | InPlayback c item done deadline =>
      if done then Some (s, loop_head g s)
      else if due deadline s
           then let s := stop_player c s in Some (s, loop_head g s)
           else None
  | ErrPause wake => if due wake s then Some (s, loop_head g s) else None
  | Stopped => None
  end.

(** *** The event loop *)

Definition resume_task (i : nat) (env : worker_env) (s : state) : state :=
  match tasks s !! i with
  | Some t =>
      match _process_audio_queue env (t_guild t) (t_pc t) s with
      | Some (s, p) => with_tasks (<[i := Task (t_guild t) p]> (tasks s)) s
      | None => s
      end
  | None => s
  end.

Definition advance (d : Q) (s : state) : state :=
  if Qle_bool 0 d then with_now (now s + d)%Q s else s.

(** The voice connection of a guild is lost from outside: the client reports
    not connected, and with [gone] the guild has no voice client any more. *)
Definition lose_connection (g : Z) (gone : bool) (s : state) : state :=
  match voice_client s !! g with
  | Some c =>
      let s :=
        with_clients
          (alter (fun vc => Client (vc_guild vc) (vc_channel vc) false
                                   (vc_playing vc)) c (clients s)) s in
      if gone then with_voice_client (delete g (voice_client s)) s else s
  | None => s
  end.

Inductive event : Type :=
| EJoin (channel : VoiceChannel) (ok : bool)
| ELeave (guild : Z) (ok : bool)
| EPlay (channel : VoiceChannel) (audio_data : list Byte.byte)
        (username : str) (ok : bool)
| EResume (i : nat) (env : worker_env)
| ETime (d : Q)
| ELost (guild : Z) (gone : bool)
| EPlayerDone (c : nat).

Definition step (s : state) (e : event) : state :=
  match e with
  | EJoin channel ok => fst (join_channel channel ok s)
  | ELeave g ok => fst (leave_channel g ok s)
  | EPlay channel audio_data username ok =>
      fst (play_audio channel audio_data username ok s)
  | EResume i env => resume_task i env s
  | ETime d => advance d s
  | ELost g gone => lose_connection g gone s
  | EPlayerDone c => stop_player c s
  end.

Definition run (events : list event) (s : state) : state :=
  foldl step s events.

(** *** What the statements speak about *)

Definition alive (t : task) : bool :=
  match t_pc t with
  | Stopped => false
  | _ => true
  end.

(** The number of worker tasks of guild [g] that have not returned. *)
Definition workers (g : Z) (s : state) : nat :=
  length (filter (fun t => t_guild t = g /\ alive t = true) (tasks s)).

Definition of_guild (g : Z) (log : list (Z * audio_item)) : list audio_item :=
  snd <$> filter (fun x => fst x = g) log.

(** The items waiting in the queue registered for guild [g]. *)
Definition room_queue (g : Z) (s : state) : list audio_item :=
  match audio_queue s !! g with
  | Some q => queue_of s q
  | None => []
  end.

(** The item that a worker has taken from the queue and not yet handed to
    [_play_audio_data]. *)
Definition held (p : pc) : list audio_item :=
  match p with
  | WaitFree _ item _ => [item]
  | _ => []
  end.

Definition in_hand (i : nat) (s : state) : list audio_item :=
  match tasks s !! i with
  | Some t => held (t_pc t)
  | None => []
  end.

(** References point into the stores, each queue and each client belongs to
    one guild, [self.playing] has the keys of [self.audio_queue], and a
    worker waits on a queue that is registered for its own guild or for
    none. *)
Record wf (s : state) : Prop := WF {
  wf_queue_ref : forall g q, audio_queue s !! g = Some q ->
                             (q < length (queues s))%nat;
  wf_queue_inj : forall g1 g2 q, audio_queue s !! g1 = Some q ->
                                 audio_queue s !! g2 = Some q -> g1 = g2;
  wf_client_ref : forall g c, voice_client s !! g = Some c ->
                              (c < length (clients s))%nat;
  wf_client_inj : forall g1 g2 c, voice_client s !! g1 = Some c ->
                                  voice_client s !! g2 = Some c -> g1 = g2;
  wf_playing : forall g, is_Some (audio_queue s !! g) ->
                         is_Some (playing s !! g);
  wf_waiting : forall j t q deadline,
      tasks s !! j = Some t -> t_pc t = WaitGet q deadline ->
      (q < length (queues s))%nat /\
      (forall g, audio_queue s !! g = Some q -> g = t_guild t)
}.

(** Guild [g] is connected, its queue is registered, task [i] is its only
    worker that has not returned, and what was enqueued for [g] is what was
    played, then what the worker holds, then what waits in the queue. *)
Record fifo (g : Z) (i : nat) (s : state) : Prop := Fifo {
  fifo_wf : wf s;
  fifo_connected : is_Some (connected_client s g);
  fifo_registered : is_Some (audio_queue s !! g);
  fifo_worker : exists t, tasks s !! i = Some t /\ t_guild t = g;
  fifo_single : forall j t, tasks s !! j = Some t -> t_guild t = g ->
                            j <> i -> t_pc t = Stopped;
  fifo_waits : forall t q deadline,
      tasks s !! i = Some t -> t_pc t = WaitGet q deadline ->
      audio_queue s !! g = Some q;
  fifo_order :
    of_guild g (enqueued s)
    = of_guild g (played s) ++ in_hand i s ++ room_queue g s
}.

(** The events under which guild [g] stays connected and registered: no
    leave and no loss of connection for [g], and the guild known to the bot
    whenever a worker runs. *)
Definition undisturbed (g : Z) (e : event) : Prop :=
  match e with
  | ELeave g' _ => g' <> g
  | ELost g' _ => g' <> g
  | EResume _ env => guild_known env = true
  | _ => True
  end.

(** A pc without the flag that [after_playing] sets. *)
Definition pc_view (p : pc) : pc :=
  match p with
  | InPlayback c item _ deadline => InPlayback c item false deadline
  | _ => p
  end.

(** From [s] to [s'] nothing has happened to guild [g]: its voice client
    and whether that is connected, its queue, its tasks up to [pc_view], and
    its part of the history are the same, and a new task is not one
    of [g]. *)
Record frame (g : Z) (s s' : state) : Prop := Frame {
  fr_voice_client : voice_client s' !! g = voice_client s !! g;
  fr_connected : forall c, voice_client s !! g = Some c ->
      vc_connected <$> clients s' !! c = vc_connected <$> clients s !! c;
  fr_audio_queue : audio_queue s' !! g = audio_queue s !! g;
  fr_queue : forall q, audio_queue s !! g = Some q ->
                       queues s' !! q = queues s !! q;
  fr_tasks_old : forall j t, tasks s !! j = Some t ->
      exists t', tasks s' !! j = Some t' /\ t_guild t' = t_guild t /\
                 (t_guild t = g -> pc_view (t_pc t') = pc_view (t_pc t));
  fr_tasks_new : forall j t', tasks s' !! j = Some t' ->
                              tasks s !! j = None -> t_guild t' <> g;
  fr_enqueued : of_guild g (enqueued s') = of_guild g (enqueued s);
  fr_played : of_guild g (played s') = of_guild g (played s)
}.

(** From [s] to [s'] a worker of guild [g'] has run: the registrations, the
    connections and the enqueued items are the same, the tasks are the same
    up to [pc_view], only the queues in [P] may differ, and only the played
    items of [g'] may be more. *)
Record touches (g' : Z) (P : nat -> Prop) (s s' : state) : Prop := Touches {
  to_voice_client : voice_client s' = voice_client s;
  to_audio_queue : audio_queue s' = audio_queue s;
  to_connected : forall c,
      vc_connected <$> clients s' !! c = vc_connected <$> clients s !! c;
  to_enqueued : enqueued s' = enqueued s;
  to_length : length (tasks s') = length (tasks s);
  to_tasks : forall j t, tasks s !! j = Some t ->
      exists t', tasks s' !! j = Some t' /\ t_guild t' = t_guild t /\
                 pc_view (t_pc t') = pc_view (t_pc t);
  to_queues : forall q, ~ P q -> queues s' !! q = queues s !! q;
  to_played : forall g, g <> g' ->
                        of_guild g (played s') = of_guild g (played s)
}.

(** What the invariants need to know of a worker of guild [g] that has run
    from [s] to [s'] and is now at [p']. *)
Definition sound_resumption (g : Z) (s s' : state) (p' : pc) : Prop :=
  (wf s -> wf s') /\
  (forall q deadline, p' = WaitGet q deadline -> audio_queue s' !! g = Some q) /\
  (forall i t, tasks s !! i = Some t ->
               exists t', tasks s' !! i = Some t' /\ t_guild t' = t_guild t).

End VoiceManager.

(** ** A guild, two of its channels and three jobs, for the scenarios *)

Module Scenario.

Import VoiceManager.

Definition guild : Z := 1.
Definition room : VoiceChannel := Channel 10 guild.
Definition other_room : VoiceChannel := Channel 11 guild.
Definition normal : worker_env := Env true true.
Definition job (n : nat) (name : string) : audio_item :=
  Item (repeat Byte.x01 n) (Py.txt name).
Definition J1 : audio_item := job 1 "A".
Definition J2 : audio_item := job 2 "B".
Definition J3 : audio_item := job 3 "C".
Definition enqueue (j : audio_item) : event :=
  EPlay room (data j) (source j) true.

End Scenario.

(** ** The commands [join] and [leave] of bot.py *)

Module Bot.

Import VoiceManager.

(** [join_voice]: [join_channel] catches its exceptions, so the assignment
    to [self.voice_text_channels] is always reached. *)
Definition join_voice (channel : VoiceChannel) (text_channel : Z) (ok : bool)
    (s : state) : state :=
  let s := fst (join_channel channel ok s) in
  with_voice_text_channels
    (<[ch_guild channel := text_channel]> (voice_text_channels s)) s.

(** [leave_voice]: the binding is deleted unless [leave_channel] raised. *)
Definition leave_voice (g : Z) (ok : bool) (s : state) : state :=
  match leave_channel g ok s with
  | (s, Returns) =>
      with_voice_text_channels (delete g (voice_text_channels s)) s
  | (s, Raised) => s
  end.

End Bot.

(** ** More of Python's [str], and what the statements on texts speak about *)

Module PyStr.

Import Py.

(** [text.startswith(prefix)] *)
Fixpoint startswith (text prefix : str) : bool :=
  match prefix, text with
  | [], _ => true
  | p :: prefix', c :: text' => ascii_eqb c p && startswith text' prefix'
  | _ :: _, [] => false
  end.

(** [part in text] *)
Fixpoint contains (part text : str) : bool :=
  startswith text part
  || match text with
     | [] => false
     | _ :: text' => contains part text'
     end.

(** Every white-space character of [t] is a blank that follows a character
    which is not white space; [after_space] tells whether the text before
    [t] is empty or ends with white space, and [t] does not end with white
    space unless it is empty and [after_space] is false. *)
Fixpoint spaced (after_space : bool) (t : str) : bool :=
  match t with
  | [] => negb after_space
  | c :: t' =>
      if isspace c
      then ascii_eqb c " " && negb after_space && spaced true t'
      else spaced false t'
  end.

(** The text is empty, or it is words with one blank between each two. *)
Definition single_spaced (t : str) : bool :=
  match t with
  | [] => true
  | _ => spaced true t
  end.

(** A text without the characters of Discord's markup and without
    [http]. *)
Definition plain (t : str) : bool :=
  forallb (fun c => negb (one_of "<`*~_" c)) t && negb (contains (txt "http") t).

(** [subject] is [token] written in any case and with any white space
    between its characters. *)
Inductive written : str -> str -> Prop :=
| written_last (c x : ascii) : lower x = lower c -> written [c] [x]
| written_more (c x : ascii) (spaces token subject : str) :
    lower x = lower c ->
    Forall (fun s => isspace s = true) spaces ->
    written token subject ->
    written (c :: token) (x :: spaces ++ subject).

(** The characters that a pattern of [_flexible_pattern_for] asks for. *)
Definition literals (ps : list Autocorrector.piece) : str :=
  concat (map (fun p => match p with
                        | Autocorrector.PLit c => [c]
                        | Autocorrector.PSpaces => []
                        end) ps).


End PyStr.

(** ** voice_manager.py: the queries and [stop_audio] *)

Module VoiceQueries.

Import VoiceManager.

(** [get_queue_size]: 0 for a guild without a queue. *)
Definition get_queue_size (g : Z) (s : state) : nat :=
  match audio_queue s !! g with
  | Some q => length (queue_of s q)
  | None => 0%nat
  end.

(** [is_playing]: the value of [voice_client and voice_client.is_playing()],
    which is [None] for a guild without a voice client. *)
Definition is_playing (g : Z) (s : state) : option bool :=
  match voice_client s !! g with
  | Some c => Some (client_playing s c)
  | None => None
  end.

(** [stop_audio]: [voice_client.stop()] when the client is playing. *)
Definition stop_audio (g : Z) (s : state) : state :=
  match voice_client s !! g with
  | Some c => if client_playing s c then stop_player c s else s
  | None => s
  end.

(** The guild that an event is for: the guild of the call, of the task that
    runs or of the client whose player ends; the passing of time is for
    all. *)
Definition concerns (s : state) (e : event) : option Z :=
  match e with
  | EJoin channel _ => Some (ch_guild channel)
  | ELeave g _ => Some g
  | EPlay channel _ _ _ => Some (ch_guild channel)
  | ELost g _ => Some g
  | EResume i _ => t_guild <$> tasks s !! i
  | EPlayerDone c => vc_guild <$> clients s !! c
  | ETime _ => None
  end.

(** Every worker that awaits the end of a playback awaits it on a client
    that is playing, and no two workers await it on the same client. *)
Record exclusive (s : state) : Prop := Exclusive {
  ex_playing : forall j t c item deadline,
      tasks s !! j = Some t -> t_pc t = InPlayback c item false deadline ->
      client_playing s c = true;
  ex_single : forall j1 j2 t1 t2 c item1 item2 deadline1 deadline2,
      tasks s !! j1 = Some t1 ->
      t_pc t1 = InPlayback c item1 false deadline1 ->
      tasks s !! j2 = Some t2 ->
      t_pc t2 = InPlayback c item2 false deadline2 ->
      j1 = j2
}.

(** A pc at which a worker awaits the end of a playback that has not
    ended. *)
Definition awaits_playback (p : pc) : bool :=
  match p with
  | InPlayback _ _ false _ => true
  | _ => false
  end.

End VoiceQueries.

(** ** bot.py: [on_message] and the commands *)

Module DiscordTTSBot.

Import Py PyStr VoiceManager.

(** [BotConfig.COMMAND_PREFIX] of config.py *)
Definition COMMAND_PREFIX : str := txt "T".

Definition Restricted_voice : string := "es-ES-ElviraNeural".

(** Truth of a Python string: it is not empty. *)
Definition nonempty (v : string) : bool := negb (String.eqb v "").

(** A [discord.Message] of a guild, as far as [on_message] reads it. *)
Record message : Type := Message {
  author_bot : bool;         (* message.author.bot *)
  display_name : string;     (* message.author.display_name *)
  content : str;             (* message.content *)
  author_voice : option Z;   (* message.author.voice.channel.id, when the
                                author is in a voice channel *)
  msg_guild : Z;             (* message.guild.id *)
  msg_channel : Z            (* message.channel.id *)
}.

(** The attributes of [DiscordTTSBot]; [silenced_users] is [None] as long
    as the attribute has not been created.  [self.voice_text_channels] is
    in the state of the voice manager. *)
Record bot : Type := MkBot {
  target_users : gset string;
  user_voices : gmap string string;
  silenced_users : option (gset string);
  tts_handler : TTSHandler.handler;
  voice_manager : state
}.

Definition with_target_users (x : gset string) (b : bot) : bot :=
  MkBot x (user_voices b) (silenced_users b) (tts_handler b) (voice_manager b).
Definition with_user_voices (x : gmap string string) (b : bot) : bot :=
  MkBot (target_users b) x (silenced_users b) (tts_handler b) (voice_manager b).
Definition with_silenced_users (x : option (gset string)) (b : bot) : bot :=
  MkBot (target_users b) (user_voices b) x (tts_handler b) (voice_manager b).
Definition with_tts_handler (x : TTSHandler.handler) (b : bot) : bot :=
  MkBot (target_users b) (user_voices b) (silenced_users b) x (voice_manager b).
Definition with_voice_manager (x : state) (b : bot) : bot :=
  MkBot (target_users b) (user_voices b) (silenced_users b) (tts_handler b) x.

(** [TTSHandler.set_voice] of tts_handler.py *)
Definition set_voice (voice_name : string) (h : TTSHandler.handler)
  : TTSHandler.handler :=
  TTSHandler.Handler voice_name (TTSHandler.rate h) (TTSHandler.volume h).

(** [hasattr(self, 'silenced_users') and name in self.silenced_users] *)
Definition silenced (b : bot) (name : string) : bool :=
  match silenced_users b with
  | Some users => bool_decide (name ∈ users)
  | None => false
  end.

(** [self.user_voices.get(name, None)] when it is true: a voice that is
    not the empty string. *)
Definition user_voice (b : bot) (name : string) : option string :=
  match user_voices b !! name with
  | Some v => if nonempty v then Some v else None
  | None => None
  end.

(** What [on_message] has in hand while it awaits [generate_tts]: the
    channel and the name for [play_audio], [original_voice] when the voice
    of the user has been set, and the result that the await will give. *)
Record pending : Type := Pending {
  p_channel : VoiceChannel;
  p_name : string;
  p_original : option string;
  p_audio : option (list Byte.byte)
}.

(** [on_message] after [process_commands], up to the await of
    [generate_tts].  The request to the provider is made with the voice of
    the handler at this moment.  A message that passes the test of the
    prefix is no command, so that [process_commands] has done nothing. *)
Definition on_message_begin
    (provider : TTSHandler.request -> TTSHandler.provider_outcome)
    (m : message) (b : bot) : bot * option pending :=
  if author_bot m then (b, None)
  else if startswith (strip (content m)) COMMAND_PREFIX then (b, None)
  else if negb (bool_decide (display_name m ∈ target_users b)) then (b, None)
  else if silenced b (display_name m) then (b, None)
  else if is_empty (content m) || (length (strip (content m)) =? 0)%nat
       then (b, None)
  else
    match author_voice m with
    | None => (b, None)
    | Some channel_id =>
        match connected_client (voice_manager b) (msg_guild m) with
        | None => (b, None)
        | Some c =>
            if negb (bool_decide (channel_of (voice_manager b) c
                                  = Some channel_id))
            then (b, None)
            else
              match voice_text_channels (voice_manager b) !! msg_guild m with
              | None => (b, None)
              | Some expected_text_channel_id =>
                  if negb (msg_channel m =? expected_text_channel_id)
                  then (b, None)
                  else
                    let texto_corregido :=
                      Autocorrector.autocorregir_mensaje (content m) in
                    let user_voice := user_voice b (display_name m) in
                    let original_voice := TTSHandler.voice (tts_handler b) in
                    let b :=
                      match user_voice with
                      | Some v =>
                          with_tts_handler (set_voice v (tts_handler b)) b
                      | None => b
                      end in
                    (b, Some (Pending
                                (Channel channel_id (msg_guild m))
                                (display_name m)
                                (match user_voice with
                                 | Some _ => Some original_voice
                                 | None => None
                                 end)
                                (TTSHandler.generate_tts (tts_handler b)
                                   provider texto_corregido)))
              end
        end
    end.

(** [on_message] from the return of [generate_tts] on; [ok] is the outcome
    of the awaited call of [play_audio], which catches its exceptions. *)
Definition on_message_end (p : pending) (ok : bool) (b : bot) : bot :=
  let b :=
    match p_original p with
    | Some original_voice =>
        with_tts_handler (set_voice original_voice (tts_handler b)) b
    | None => b
    end in
  match p_audio p with
  | Some audio_data =>
      if is_empty audio_data then b
      else
        with_voice_manager
          (fst (play_audio (p_channel p) audio_data (txt (p_name p)) ok
                  (voice_manager b))) b
  | None => b
  end.

(** [on_message] when nothing else runs during its await. *)
Definition on_message
    (provider : TTSHandler.request -> TTSHandler.provider_outcome)
    (ok : bool) (m : message) (b : bot) : bot :=
  match on_message_begin provider m b with
  | (b, Some p) => on_message_end p ok b
  | (b, None) => b
  end.

(** The command [join]; [channel] is [ctx.author.voice.channel] when the
    author is in a voice channel. *)
Definition join_voice (channel : option VoiceChannel) (text_channel : Z)
    (ok : bool) (b : bot) : bot :=
  match channel with
  | None => b
  | Some channel =>
      with_voice_manager (Bot.join_voice channel text_channel ok
                            (voice_manager b)) b
  end.

(** The command [leave] *)
Definition leave_voice (g : Z) (ok : bool) (b : bot) : bot :=
  with_voice_manager (Bot.leave_voice g ok (voice_manager b)) b.

(** The command [test]: [text] is [None] without an argument. *)
Definition test_tts
    (provider : TTSHandler.request -> TTSHandler.provider_outcome)
    (ok : bool) (text : option str) (channel : option VoiceChannel) (b : bot)
  : bot :=
  match text with
  | None => b
  | Some text =>
      if is_empty text then b
      else
        match channel with
        | None => b
        | Some channel =>
            match TTSHandler.generate_tts (tts_handler b) provider text with
            | Some audio_data =>
                if is_empty audio_data then b
                else
                  with_voice_manager
                    (fst (play_audio channel audio_data (txt "Test") ok
                            (voice_manager b))) b
            | None => b
            end
        end
  end.

(** The command [add]; [author] is [ctx.author.name]. *)
Definition add_user (author username : string) (b : bot) : bot :=
  if String.eqb author "PDGadm" then b
  else if bool_decide (username ∈ target_users b) then b
  else with_target_users ({[username]} ∪ target_users b) b.

(** The command [remove] *)
Definition remove_user (username : string) (b : bot) : bot :=
  if negb (bool_decide (username ∈ target_users b)) then b
  else
    with_user_voices (delete username (user_voices b))
      (with_target_users (target_users b ∖ {[username]}) b).

(** The command [voz_set]; [voice_names] are the [ShortName]s of the voices
    that [get_available_voices] has returned. *)
Definition set_user_voice (username voice_name : string)
    (voice_names : list string) (b : bot) : bot :=
  if negb (bool_decide (username ∈ target_users b)) then b
  else if String.eqb voice_name Restricted_voice
          && negb (String.eqb username "Clara <3")
  then b
  else if negb (bool_decide (voice_name ∈ voice_names)) then b
  else with_user_voices (<[username := voice_name]> (user_voices b)) b.

(** The command [silenciar] *)
Definition silenciar_usuario (username : string) (b : bot) : bot :=
  if negb (bool_decide (username ∈ target_users b)) then b
  else
    with_silenced_users
      (Some ({[username]} ∪ default ∅ (silenced_users b))) b.





(** The bot as [__init__] leaves it when there is no saves.json: the users
    of [BotConfig.TARGET_USERS], and the handler of [TTSHandler.__init__]. *)
Definition fresh : bot :=
  MkBot {["Clara <3"; "PDGadm"; "azacgamer"]} ∅ None
        (TTSHandler.Handler "es-ES-ElviraNeural" "+0%" "+0%") init.


End DiscordTTSBot.

(** ** bot.py: the commands [fix] and [repetir] *)

Module BotCommands.

Import Py VoiceManager DiscordTTSBot.


(** [str(n)] for a natural number *)
Definition str_of_nat (n : nat) : str :=
  txt (DecimalString.NilEmpty.string_of_uint (Nat.to_uint n)).

(** One turn of the loop of [repetir], with [i] of [range(veces)]. *)
Definition repetir_once
    (provider : TTSHandler.request -> TTSHandler.provider_outcome)
    (ok : bool) (texto : str) (channel : VoiceChannel) (b : bot) (i : nat)
  : bot :=
  match TTSHandler.generate_tts (tts_handler b) provider texto with
  | Some audio_data =>
      if is_empty audio_data then b
      else
        with_voice_manager
          (fst (play_audio channel audio_data
                  (txt "Repetir " ++ str_of_nat (i + 1)) ok
                  (voice_manager b))) b
  | None => b
  end.

(** The command [repetir], handled without interruption. *)
Definition repetir_tts
    (provider : TTSHandler.request -> TTSHandler.provider_outcome)
    (ok : bool) (veces : Z) (texto : option str)
    (channel : option VoiceChannel) (b : bot) : bot :=
  match texto with
  | None => b
  | Some texto =>
      if is_empty texto then b
      else if (veces <? 1) || (100 <? veces) then b
      else
        match channel with
        | None => b
        | Some channel =>
            foldl (repetir_once provider ok texto channel) b
                  (seq 0 (Z.to_nat veces))
        end
  end.

End BotCommands.

(** ** tts_handler.py: the voices *)

Module TTSVoices.

Import TTSHandler.

(** An entry of [edge_tts.list_voices()], as far as the repository reads
    it. *)
Record edge_voice : Type := Voice {
  Locale : string;
  ShortName : string;
  Gender : string
}.

Definition spanish_locales : list string :=
  ["es-ES"; "es-MX"; "es-AR"; "es-CO"; "es-PE"; "es-VE"; "es-CL"; "es-EC";
   "es-GT"; "es-CR"; "es-PA"; "es-CU"; "es-BO"; "es-DO"; "es-HN"; "es-PY";
   "es-SV"; "es-NI"; "es-PR"; "es-UY"; "es-GQ"]%string.

(** [(a['Locale'], a['ShortName']) < (b['Locale'], b['ShortName'])]:
    tuples compare by their first components, then by their second;
    strings compare by code points. *)
Definition key_lt (a b : edge_voice) : bool :=
  match String.compare (Locale a) (Locale b) with
  | Lt => true
  | Eq => match String.compare (ShortName a) (ShortName b) with
          | Lt => true
          | _ => false
          end
  | Gt => false
  end.

(** [list.sort(key=...)] is stable: a voice goes behind the voices that
    stood before it and are not greater. *)
Fixpoint insert_voice (x : edge_voice) (sorted : list edge_voice)
  : list edge_voice :=
  match sorted with
  | [] => [x]
  | y :: rest => if key_lt x y then x :: y :: rest
                 else y :: insert_voice x rest
  end.

Definition sort_voices (voices : list edge_voice) : list edge_voice :=
  foldl (fun sorted x => insert_voice x sorted) [] voices.

(** [get_available_voices]; [listed] is what [edge_tts.list_voices()]
    returns, [None] when it raises. *)
Definition get_available_voices (listed : option (list edge_voice))
  : list edge_voice :=
  match listed with
  | Some voices =>
      sort_voices
        (List.filter (fun voice => bool_decide (Locale voice ∈ spanish_locales))
           voices)
  | None => []
  end.

(** [voice_names] of the command [voz_set] *)
Definition voice_names (listed : option (list edge_voice)) : list string :=
  map ShortName (get_available_voices listed).

(** The handler with [self.current_voice_index]. *)
Record rotation : Type := Rotation {
  rot_handler : handler;
  current_voice_index : nat
}.

Definition voices : list string :=
  ["es-ES-AlvaroNeural"; "es-ES-ElviraNeural"; "es-ES-ManuelNeural";
   "es-ES-TeresaNeural"]%string.

(** [TTSHandler.__init__] *)
Definition new_handler : rotation :=
  Rotation (Handler "es-ES-ElviraNeural" "+0%" "+0%") 0.

Definition rotate_voice (self : rotation) : rotation :=
  let i := ((current_voice_index self + 1) mod length voices)%nat in
  Rotation (Handler (nth i voices ""%string) (rate (rot_handler self))
              (volume (rot_handler self))) i.

(** [set_voice], which does not touch the index *)
Definition set_voice (voice_name : string) (self : rotation) : rotation :=
  Rotation (Handler voice_name (rate (rot_handler self))
              (volume (rot_handler self))) (current_voice_index self).

End TTSVoices.

(** ** config.py *)

Module BotConfig.

Definition TARGET_USERS : list string :=
  ["Clara <3"; "PDGadm"; "azacgamer"]%string.

(** [list.remove(x)]: the first occurrence goes. *)
Fixpoint remove_first (x : string) (l : list string) : list string :=
  match l with
  | [] => []
  | y :: l' => if String.eqb y x then l' else y :: remove_first x l'
  end.

Definition add_target_user (username : string) (users : list string)
  : list string :=
  if bool_decide (username ∈ users) then users else users ++ [username].

Definition remove_target_user (username : string) (users : list string)
  : list string :=
  if bool_decide (username ∈ users) then remove_first username users
  else users.

End BotConfig.

(** * The text pipeline *)

Section TextPipeline.

Import Py Re Autocorrector TTSHandler.

(** ** The iterations given to a star suffice *)

Lemma further_refl (st : mstate) : further st st.
Proof. reflexivity. Qed.

Lemma further_trans (st st1 st2 : mstate) :
  further st st1 -> further st1 st2 -> further st st2.
Proof. unfold further. lia. Qed.

Lemma further_eat (c : ascii) (t : str) (st : mstate) :
  m_rest st = c :: t -> further st (eat c t st).
Proof. unfold further, eat. intros ->. simpl. lia. Qed.

Lemma further_set_grp (g : str) (st st1 : mstate) :
  further st st1 -> further st (set_grp g st1).
Proof. unfold further, set_grp. simpl. lia. Qed.

Lemma star_loop_local {A : Type} (greedy : bool)
    (body : mstate -> (mstate -> option A) -> option A) (n : nat) :
  local body -> local (fun st k => star_loop greedy body k n st).
Proof.
  intros Hbody. induction n as [|n IH]; intros st k k' Hk; simpl.
  - apply Hk, further_refl.
  - rewrite (Hk st (further_refl st)).
    rewrite (Hbody st
               (fun st1 => if (m_used st <? m_used st1)%nat
                           then star_loop greedy body k n st1 else None)
               (fun st1 => if (m_used st <? m_used st1)%nat
                           then star_loop greedy body k' n st1 else None));
      [reflexivity |].
    intros st1 H1. destruct (m_used st <? m_used st1)%nat; [| reflexivity].
    apply IH. intros st2 H2. apply Hk. by eapply further_trans.
Qed.

Lemma rmatch_local {A : Type} (icase : bool) (r : regex) :
  local (rmatch (A := A) icase r).
Proof.
  induction r as [|p|p|r1 IH1 r2 IH2|r1 IH1 r2 IH2|greedy r1 IH1|r1 IH1| |];
    intros st k k' Hk; simpl.
  - apply Hk, further_refl.
  - destruct (m_rest st) as [|c t] eqn:E; [reflexivity |].
    destruct (lit_eq icase p c); [| reflexivity]. by apply Hk, further_eat.
  - destruct (m_rest st) as [|c t] eqn:E; [reflexivity |].
    destruct (p c); [| reflexivity]. by apply Hk, further_eat.
  - apply IH1. intros st1 H1. apply IH2. intros st2 H2.
    apply Hk. by eapply further_trans.
  - by rewrite (IH1 st k k' Hk), (IH2 st k k' Hk).
  - exact (star_loop_local greedy (rmatch icase r1) (S (length (m_rest st)))
             IH1 st k k' Hk).
  - apply IH1. intros st1 H1. by apply Hk, further_set_grp.
  - destruct (m_prev st) as [c|]; [destruct (isword c); [reflexivity |] |];
      apply Hk, further_refl.
  - destruct (m_rest st) as [|c t]; [| destruct (isword c); [reflexivity |]];
      apply Hk, further_refl.
Qed.

Lemma star_loop_one_more {A : Type} (greedy : bool)
    (body : mstate -> (mstate -> option A) -> option A)
    (k : mstate -> option A) (n : nat) :
  local body ->
  forall st, (length (m_rest st) < n)%nat ->
             star_loop greedy body k (S n) st = star_loop greedy body k n st.
Proof.
  intros Hbody. induction n as [|n IH]; intros st Hlen; [lia |].
  change (star_loop greedy body k (S (S n)) st)
    with (let again st1 :=
            if (m_used st <? m_used st1)%nat
            then star_loop greedy body k (S n) st1 else None in
          if greedy
          then match body st again with Some a => Some a | None => k st end
          else match k st with Some a => Some a | None => body st again end).
  change (star_loop greedy body k (S n) st)
    with (let again st1 :=
            if (m_used st <? m_used st1)%nat
            then star_loop greedy body k n st1 else None in
          if greedy
          then match body st again with Some a => Some a | None => k st end
          else match k st with Some a => Some a | None => body st again end).
  cbv zeta.
  rewrite (Hbody st
             (fun st1 => if (m_used st <? m_used st1)%nat
                         then star_loop greedy body k (S n) st1 else None)
             (fun st1 => if (m_used st <? m_used st1)%nat
                         then star_loop greedy body k n st1 else None));
    [reflexivity |].
  intros st1 H1. destruct (Nat.ltb_spec (m_used st) (m_used st1));
    [| reflexivity].
  apply IH. unfold further in H1. lia.
Qed.

(** A star gives the same result with any larger number of iterations than
    the one [rmatch] gives it: the bound is never the reason to stop. *)
Lemma star_iterations_suffice {A : Type} (icase : bool) (greedy : bool)
    (r : regex) (k : mstate -> option A) (st : mstate) (more : nat) :
  star_loop greedy (rmatch icase r) k (more + S (length (m_rest st))) st
  = rmatch icase (Star greedy r) st k.
Proof.
  induction more as [|more IH]; [reflexivity |].
  rewrite <- IH. apply star_loop_one_more; [apply rmatch_local | lia].
Qed.

(** ** Substitution where nothing matches *)

Lemma sub_scan_no_match (icase : bool) (r : regex) (tpl : template) (t : str) :
  forall prev, search_from icase r prev t = false ->
               sub_scan icase r tpl prev t 0 = t.
Proof.
  induction t as [|c t IH]; intros prev H; simpl in *.
  - destruct (match_at icase r prev []) as [[n g]|]; [discriminate | reflexivity].
  - destruct (match_at icase r prev (c :: t)) as [[n g]|]; [discriminate |].
    f_equal. apply IH. exact H.
Qed.

Lemma sub_no_match (icase : bool) (r : regex) (tpl : template) (t : str) :
  search icase r t = false -> Re.sub icase r tpl t = t.
Proof. apply sub_scan_no_match. Qed.

Lemma foldl_sustituir_no_match (rules : list (str * str)) (texto : str) :
  existsb (fun item => search true (_flexible_pattern_for (fst item)) texto)
          rules = false ->
  foldl sustituir texto rules = texto.
Proof.
  induction rules as [|item rules IH]; simpl; intros H; [reflexivity |].
  apply orb_false_iff in H as [Hitem Hrules].
  unfold sustituir at 2. rewrite (sub_no_match _ _ _ _ Hitem). auto.
Qed.

Lemma autocorregir_no_match (texto : str) :
  matchable texto = false -> autocorregir_mensaje texto = texto.
Proof. apply foldl_sustituir_no_match. Qed.

(** ** White space at the two ends of a text *)

Lemma lstrip_head (t : str) :
  (forall c, head t = Some c -> no_space c) -> lstrip t = t.
Proof.
  destruct t as [|c t]; simpl; [reflexivity |].
  intros H. rewrite (H c eq_refl). reflexivity.
Qed.

Lemma head_rev (t : str) : head (rev t) = last t.
Proof.
  induction t as [|c t IH] using rev_ind; [reflexivity |].
  rewrite rev_app_distr, last_snoc. reflexivity.
Qed.

Lemma strip_trimmed (t : str) : trimmed t -> strip t = t.
Proof.
  intros [Hh Hl]. unfold strip, rstrip.
  rewrite (lstrip_head t Hh), lstrip_head, rev_involutive; [reflexivity |].
  intros c. rewrite head_rev. apply Hl.
Qed.

Lemma split_from_words (t : str) :
  forall cur, Forall no_space cur -> Forall is_word (split_from cur t).
Proof.
  induction t as [|c t IH]; intros cur Hcur; simpl.
  - destruct cur as [|x cur]; constructor; [|constructor].
    split.
    + simpl. intros E. apply app_eq_nil in E as [_ E]. discriminate.
    + apply Forall_rev. exact Hcur.
  - destruct (isspace c) eqn:Hc.
    + destruct cur as [|x cur]; [apply IH; constructor |].
      constructor; [|apply IH; constructor].
      split.
      * simpl. intros E. apply app_eq_nil in E as [_ E]. discriminate.
      * apply Forall_rev. exact Hcur.
    + apply IH. constructor; assumption.
Qed.

Lemma word_trimmed (w : str) : is_word w -> trimmed w.
Proof.
  intros [_ Hw]. split; intros c Hc.
  - destruct w; simplify_eq/=. by inversion Hw.
  - apply last_Some_elem_of in Hc.
    rewrite Forall_forall in Hw. by apply Hw.
Qed.

Lemma join_words_trimmed (sep : str) (ws : list str) :
  Forall is_word ws -> trimmed (join sep ws) /\ (ws <> [] -> join sep ws <> []).
Proof.
  induction ws as [|w ws IH]; intros Hws.
  - split; [split; intros c Hc; discriminate | congruence].
  - inversion Hws as [|? ? Hw Hrest]; subst.
    destruct (IH Hrest) as [[IHh IHl] IHne].
    destruct ws as [|w' ws].
    + simpl. split; [by apply word_trimmed | intros _; apply Hw].
    + change (join sep (w :: w' :: ws)) with (w ++ sep ++ join sep (w' :: ws)).
      assert (Hne : join sep (w' :: ws) <> []) by (apply IHne; congruence).
      split; [split; intros c Hc | ].
      * destruct w as [|x w]; [by destruct Hw |].
        simplify_eq/=. destruct Hw as [_ Hw]. by inversion Hw.
      * rewrite !app_assoc in Hc.
        rewrite last_app in Hc.
        destruct (last (join sep (w' :: ws))) eqn:E.
        -- simplify_eq. by apply IHl.
        -- apply last_None in E. contradiction.
      * intros _ E. apply app_eq_nil in E as [E _]. by destruct Hw.
Qed.

Lemma collapse_spaces_trimmed (text : str) : trimmed (collapse_spaces text).
Proof.
  apply join_words_trimmed, split_from_words. constructor.
Qed.

Lemma truncated_trimmed (t : str) :
  trimmed t -> (500 < length t)%nat -> trimmed (take 500 t ++ ellipsis).
Proof.
  intros [Hh _] Hlen. split; intros c Hc.
  - destruct t as [|x t]; [simpl in Hlen; lia |].
    simpl in Hc. simplify_eq. by apply Hh.
  - change ellipsis with ([ "."%char; "."%char ] ++ [ "."%char ]) in Hc.
    rewrite app_assoc, last_snoc in Hc. simplify_eq. reflexivity.
Qed.


(** ** The statements *)

(** C7.  The normalizer is a function from texts to texts, defined on every
    text: it maps the empty text to itself and "XD" to the speakable "X D",
    which it maps to itself again; a text in which no pattern of
    [SUSTITUCIONES] matches is returned as it is, so a second application to
    an output without matchable tokens changes nothing. *)
Theorem normalizer_total_and_stable :
  autocorregir_mensaje [] = [] /\
  autocorregir_mensaje (txt "XD") = txt "X D" /\
  autocorregir_mensaje (autocorregir_mensaje (txt "XD"))
    = autocorregir_mensaje (txt "XD") /\
  (forall texto, matchable texto = false -> autocorregir_mensaje texto = texto) /\
  (forall texto, matchable (autocorregir_mensaje texto) = false ->
     autocorregir_mensaje (autocorregir_mensaje texto)
       = autocorregir_mensaje texto).
Proof.
  split; [reflexivity |].
  split; [vm_compute; reflexivity |].
  split; [vm_compute; reflexivity |].
  split; [apply autocorregir_no_match |].
  intros texto H. apply autocorregir_no_match, H.
Qed.

Lemma normalizer_total_and_stable_witness :
  matchable (autocorregir_mensaje (txt "hola wtf? jaja")) = false /\
  autocorregir_mensaje (autocorregir_mensaje (txt "hola wtf? jaja"))
    = txt "hola watafac? jaja".
Proof.
  split; [vm_compute; reflexivity |].
  destruct normalizer_total_and_stable as (_ & _ & _ & _ & H).
  rewrite H; vm_compute; reflexivity.
Defined.

(** C8.  [clean_text] returns the sanitized text as it is when that has at
    most 500 characters, and otherwise its first 500 characters followed by
    the marker "..."; the result never has more than 503 characters, and a
    text of 600 letters comes out as its first 500 letters and the marker.
    [generate_tts] therefore never calls the provider with a longer text:
    a provider that fails on longer requests gives the same result. *)
Theorem clean_text_truncates (text : str) :
  ((length (sanitized text) <= 500)%nat -> clean_text text = sanitized text) /\
  ((500 < length (sanitized text))%nat ->
     clean_text text = take 500 (sanitized text) ++ ellipsis) /\
  (length (clean_text text) <= 500 + length ellipsis)%nat /\
  clean_text (repeat "a"%char 600) = repeat "a"%char 500 ++ ellipsis /\
  (forall self provider,
     generate_tts self provider text
     = generate_tts self
         (fun rq => if (length (rq_text rq) <=? 500 + length ellipsis)%nat
                    then provider rq else Raises) text).
Proof.
  assert (Hshort : (length (sanitized text) <= 500)%nat ->
                   clean_text text = sanitized text).
  { intros H. unfold clean_text.
    destruct (Nat.ltb_spec 500 (length (sanitized text))); [lia |].
    apply strip_trimmed, collapse_spaces_trimmed. }
  assert (Hlong : (500 < length (sanitized text))%nat ->
                  clean_text text = take 500 (sanitized text) ++ ellipsis).
  { intros H. unfold clean_text.
    destruct (Nat.ltb_spec 500 (length (sanitized text))); [| lia].
    apply strip_trimmed, truncated_trimmed; [apply collapse_spaces_trimmed | lia]. }
  assert (Hlen : (length (clean_text text) <= 500 + length ellipsis)%nat).
  { destruct (Nat.le_gt_cases (length (sanitized text)) 500) as [H | H].
    - rewrite (Hshort H). lia.
    - rewrite (Hlong H), length_app, length_take. lia. }
  split; [exact Hshort |]. split; [exact Hlong |]. split; [exact Hlen |].
  split; [vm_compute; reflexivity |].
  intros self provider. unfold generate_tts.
  destruct (is_empty (clean_text text)); [reflexivity |].
  cbn [rq_text]. apply Nat.leb_le in Hlen. by rewrite Hlen.
Qed.

Lemma clean_text_truncates_witness :
  (500 < length (sanitized (repeat "a"%char 600)))%nat /\
  clean_text (repeat "a"%char 600)
    = take 500 (sanitized (repeat "a"%char 600)) ++ ellipsis.
Proof.
  assert (H : (500 < length (sanitized (repeat "a"%char 600)))%nat).
  { vm_compute. lia. }
  split; [exact H |].
  destruct (clean_text_truncates (repeat "a"%char 600)) as (_ & Hlong & _).
  exact (Hlong H).
Defined.

(** C9.  [generate_tts] returns [None] exactly when the cleaned text is
    empty, or the provider raises, or the stream carries no audio data; in
    every other case it returns the audio bytes of the stream. *)
Theorem generate_tts_failures (self : handler)
    (provider : request -> provider_outcome) (text : str) :
  let rq := Request (clean_text text) (voice self) (rate self) (volume self) in
  (generate_tts self provider text = None <->
     clean_text text = [] \/
     provider rq = Raises \/
     exists chunks, provider rq = Streamed chunks /\ collect_audio chunks = []) /\
  (generate_tts self provider text <> None ->
     exists chunks, provider rq = Streamed chunks /\
       generate_tts self provider text = Some (collect_audio chunks)).
Proof.
  intros rq. unfold generate_tts. fold rq.
  destruct (clean_text text) as [|c t] eqn:Hclean; simpl.
  { split; [split; auto | congruence]. }
  destruct (provider rq) as [chunks|] eqn:Hp.
  - destruct (collect_audio chunks) as [|b bytes] eqn:Ha; simpl.
    + split; [| congruence]. split; [| reflexivity].
      intros _. right. right. exists chunks. auto.
    + split.
      * split; [discriminate |].
        intros [H | [H | (chunks' & H & Hnil)]]; try discriminate.
        simplify_eq. rewrite Ha in Hnil. discriminate.
      * intros _. exists chunks. rewrite Ha. split; reflexivity.
  - split; [| congruence]. split; auto.
Qed.

Lemma generate_tts_failures_witness :
  let provider := fun _ : request =>
    Streamed
      [Chunk "audio" [Byte.x01];
       Chunk "WordBoundary" [];
       Chunk "audio" [Byte.x02]] in
  let self := Handler "es-ES-ElviraNeural" "+0%" "+0%" in
  generate_tts self provider (txt "hola") <> None /\
  generate_tts self provider (txt "hola")
    = Some [Byte.x01; Byte.x02].
Proof.
  intros provider self.
  assert (H : generate_tts self provider (txt "hola") <> None)
    by (vm_compute; discriminate).
  split; [exact H |].
  destruct (generate_tts_failures self provider (txt "hola")) as [_ Hsome].
  destruct (Hsome H) as (chunks & Hp & ->).
  injection Hp as <-. reflexivity.
Defined.

End TextPipeline.

(** * The playback pipeline *)

Import VoiceManager.

Ltac fields :=
  cbn [now clients voice_client queues audio_queue playing voice_text_channels
       tasks enqueued played with_now with_clients with_voice_client
       with_queues with_audio_queue with_playing with_voice_text_channels
       with_tasks with_enqueued with_played fst snd] in *.

Section Runs.

Import Scenario.

(** C1.  After join, leave and join again in one guild, two worker tasks are
    alive: the task of the first join still waits on the queue that leave
    discarded, and the second join starts another one.  When the first
    times out while a job is queued, it goes on to wait on the new queue, so
    both serve the room.  When the three calls are made before the first
    task has run, both tasks wait on the new queue from the start. *)
Theorem second_worker_after_rejoin :
  let s1 := run [EJoin room true; EResume 0 normal] init in
  let s2 := run [ELeave guild true; EJoin room true; EResume 1 normal] s1 in
  let s3 := run [ETime 300; enqueue J1; EResume 0 normal] s2 in
  let s4 := run [EJoin room true; ELeave guild true; EJoin room true] init in
  let s5 := run [EResume 0 normal; EResume 1 normal] s4 in
  workers guild s1 = 1%nat /\
  tasks s1 = [Task guild (WaitGet 0 300)] /\
  workers guild s2 = 2%nat /\
  tasks s2 = [Task guild (WaitGet 0 300); Task guild (WaitGet 1 300)] /\
  audio_queue s2 !! guild = Some 1%nat /\
  workers guild s3 = 2%nat /\
  tasks s3 = [Task guild (WaitGet 1 600); Task guild (WaitGet 1 300)] /\
  workers guild s4 = 2%nat /\
  tasks s5 = [Task guild (WaitGet 1 300); Task guild (WaitGet 1 300)].
Proof. vm_compute. repeat split; reflexivity. Qed.

(** C3.  The worker waits with a deadline 300 after it starts to wait; at
    299 it is still waiting; at 300, the queue being empty, it sleeps until
    310; at 310, the queue being still empty, it returns.  A later
    [play_audio] returns [True] and leaves its item in the queue, but
    starts no worker: no task of the guild is alive and no resumption of a
    task changes the state. *)
Theorem no_worker_after_idle_exit :
  let s0 := run [EJoin room true; EResume 0 normal] init in
  let s1 := run [ETime 299; EResume 0 normal] s0 in
  let s2 := run [ETime 1; EResume 0 normal] s1 in
  let s3 := run [ETime 10; EResume 0 normal] s2 in
  let s4 := fst (play_audio room (data J1) (source J1) true s3) in
  tasks s0 = [Task guild (WaitGet 0 300)] /\
  tasks s1 = [Task guild (WaitGet 0 300)] /\
  tasks s2 = [Task guild (Grace 310)] /\
  tasks s3 = [Task guild Stopped] /\
  snd (play_audio room (data J1) (source J1) true s3) = true /\
  room_queue guild s4 = [J1] /\
  tasks s4 = [Task guild Stopped] /\
  workers guild s4 = 0%nat /\
  (forall i env, step s4 (EResume i env) = s4).
Proof.
  cbv zeta. repeat (split; [vm_compute; reflexivity |]).
  intros [|i] env; vm_compute; reflexivity.
Qed.

(** C2, refuted.  J1 and J2 are enqueued in this order; the guild loses its
    voice client before the worker takes J1, which goes back behind J2; the
    [play_audio] of J3 connects again.  The calls of [_play_audio_data] are
    for J2, J1, J3. *)
Lemma played_out_of_order :
  let s := run [EJoin room true; EResume 0 normal;
                enqueue J1; enqueue J2;
                ELost guild true; EResume 0 normal;
                ETime 2; enqueue J3;
                EResume 0 normal; EResume 0 normal;
                EPlayerDone 1; EResume 0 normal; EResume 0 normal;
                EPlayerDone 1; EResume 0 normal; EResume 0 normal] init in
  of_guild guild (enqueued s) = [J1; J2; J3] /\
  of_guild guild (played s) = [J2; J1; J3] /\
  of_guild guild (played s) <> of_guild guild (enqueued s).
Proof. vm_compute. split; [reflexivity |]. split; [reflexivity | discriminate]. Qed.

(** C4, refuted.  With J1 and J2 waiting and the guild without a voice
    client, the worker takes J1 and puts it back: J2 is then the first item
    of the queue and J1 the last. *)
Lemma put_back_is_not_at_the_front :
  let s := run [EJoin room true; EResume 0 normal;
                enqueue J1; enqueue J2; ELost guild true] init in
  let s' := step s (EResume 0 normal) in
  connected_client s guild = None /\
  room_queue guild s = [J1; J2] /\
  room_queue guild s' = [J2; J1] /\
  head (room_queue guild s') <> Some J1.
Proof.
  vm_compute. split; [reflexivity |]. split; [reflexivity |].
  split; [reflexivity | discriminate].
Qed.

(** C5, refuted.  The command [join] binds text channel 77; the connection
    is then lost; [leave_channel] returns without an error and changes
    nothing: the binding is still there. *)
Lemma leave_keeps_binding_when_disconnected :
  let s := lose_connection guild true (Bot.join_voice room 77 true init) in
  connected_client s guild = None /\
  leave_channel guild true s = (s, Returns) /\
  voice_text_channels (fst (leave_channel guild true s)) !! guild = Some 77 /\
  voice_text_channels (fst (leave_channel guild true s)) !! guild <> None.
Proof.
  vm_compute. split; [reflexivity |]. split; [reflexivity |].
  split; [reflexivity | discriminate].
Qed.

End Runs.

(** ** The state after the primitive operations *)

Lemma connect_connected (channel : VoiceChannel) (s : state) :
  connected_client (fst (connect channel s)) (ch_guild channel)
    = Some (snd (connect channel s)) /\
  channel_of (fst (connect channel s)) (snd (connect channel s))
    = Some (ch_id channel).
Proof.
  unfold connected_client, channel_of, connect. fields.
  rewrite lookup_insert_eq, lookup_app_r, Nat.sub_diag by lia.
  split; reflexivity.
Qed.

Lemma move_to_connected (c : nat) (channel : VoiceChannel) (s : state) (g : Z) :
  connected_client s g = Some c ->
  connected_client (move_to c channel s) g = Some c /\
  channel_of (move_to c channel s) c = Some (ch_id channel).
Proof.
  unfold connected_client, channel_of, move_to. fields. intros H.
  destruct (voice_client s !! g) as [c'|]; [| discriminate].
  destruct (clients s !! c') as [vc|] eqn:Hvc; [| discriminate].
  destruct (vc_connected vc) eqn:Hcon; [| discriminate].
  simplify_eq. rewrite list_lookup_alter_eq, Hvc. simpl. rewrite Hcon.
  split; reflexivity.
Qed.

Lemma connected_client_ext (s s' : state) (g : Z) :
  voice_client s' = voice_client s -> clients s' = clients s ->
  connected_client s' g = connected_client s g.
Proof. unfold connected_client. intros -> ->. reflexivity. Qed.

Lemma channel_of_ext (s s' : state) (c : nat) :
  clients s' = clients s -> channel_of s' c = channel_of s c.
Proof. unfold channel_of. intros ->. reflexivity. Qed.

(** ** join_channel *)

(** C6.  On a guild already connected to the requested channel,
    [join_channel] returns the guild's client and leaves the state as it
    is, whatever the network would answer; hence a join that follows a
    successful join of the same channel gives the same client and changes
    nothing.  On a guild connected to another channel, a successful join
    moves the same client object to the requested channel: no client is
    created, and the queues, their registration, [self.playing] and the
    tasks are as before. *)
Theorem join_channel_idempotent (channel : VoiceChannel) (s : state) :
  let g := ch_guild channel in
  (forall c ok, connected_client s g = Some c ->
                channel_of s c = Some (ch_id channel) ->
                join_channel channel ok s = (s, Some c)) /\
  (forall ok s1 h, join_channel channel ok s = (s1, Some h) ->
                   forall ok', join_channel channel ok' s1 = (s1, Some h)) /\
  (forall c, connected_client s g = Some c ->
             channel_of s c <> Some (ch_id channel) ->
             let s1 := fst (join_channel channel true s) in
             snd (join_channel channel true s) = Some c /\
             connected_client s1 g = Some c /\
             channel_of s1 c = Some (ch_id channel) /\
             length (clients s1) = length (clients s) /\
             voice_client s1 = voice_client s /\
             audio_queue s1 = audio_queue s /\
             queues s1 = queues s /\
             playing s1 = playing s /\
             tasks s1 = tasks s) /\
  (forall c ok, connected_client s g = Some c ->
                let s1 := fst (join_channel channel ok s) in
                length (clients s1) = length (clients s) /\
                voice_client s1 = voice_client s /\
                audio_queue s1 = audio_queue s /\
                queues s1 = queues s /\
                playing s1 = playing s /\
                tasks s1 = tasks s).
Proof.
  intros g.
  assert (Hsame : forall s0 c ok, connected_client s0 g = Some c ->
                    channel_of s0 c = Some (ch_id channel) ->
                    join_channel channel ok s0 = (s0, Some c)).
  { intros s0 c ok Hc Hch. unfold join_channel. fold g. rewrite Hc.
    destruct (decide (channel_of s0 c = Some (ch_id channel))); [reflexivity |].
    contradiction. }
  split; [apply Hsame |]. split; [| split].
  - intros ok s1 h Hjoin ok'. apply Hsame.
    + unfold join_channel in Hjoin. fold g in Hjoin.
      destruct (connected_client s g) as [c|] eqn:Hc.
      * destruct (decide (channel_of s c = Some (ch_id channel))).
        { by simplify_eq. }
        destruct ok; simplify_eq.
        by apply move_to_connected.
      * destruct ok; [| discriminate].
        destruct (connect_connected channel s) as [Hcon _].
        destruct (connect channel s) as [s0 c0] eqn:Hconn. simpl in Hcon.
        simplify_eq.
        match goal with
        | |- connected_client ?x _ = _ =>
            rewrite (connected_client_ext s0 x); [exact Hcon | |]
        end.
        -- destruct (audio_queue s0 !! g);
             [destruct (playing s0 !! g) as [[]|] | ]; try reflexivity.
           unfold new_queue. fields.
           destruct (<[g:=false]> (playing s0) !! g) as [[]|]; reflexivity.
        -- destruct (audio_queue s0 !! g);
             [destruct (playing s0 !! g) as [[]|] | ]; try reflexivity.
           unfold new_queue. fields.
           destruct (<[g:=false]> (playing s0) !! g) as [[]|]; reflexivity.
    + unfold join_channel in Hjoin. fold g in Hjoin.
      destruct (connected_client s g) as [c|] eqn:Hc.
      * destruct (decide (channel_of s c = Some (ch_id channel))).
        { by simplify_eq. }
        destruct ok; simplify_eq.
        by eapply move_to_connected.
      * destruct ok; [| discriminate].
        destruct (connect_connected channel s) as [_ Hch].
        destruct (connect channel s) as [s0 c0] eqn:Hconn. simpl in Hch.
        simplify_eq.
        match goal with
        | |- channel_of ?x _ = _ =>
            rewrite (channel_of_ext s0 x); [exact Hch |]
        end.
        destruct (audio_queue s0 !! g);
          [destruct (playing s0 !! g) as [[]|] | ]; try reflexivity.
        unfold new_queue. fields.
        destruct (<[g:=false]> (playing s0) !! g) as [[]|]; reflexivity.
  - intros c Hc Hch. unfold join_channel. fold g. rewrite Hc.
    destruct (decide (channel_of s c = Some (ch_id channel)));
      [contradiction |].
    simpl. destruct (move_to_connected c channel s g Hc) as [H1 H2].
    repeat split; try assumption; try reflexivity.
    unfold move_to. fields. by rewrite length_alter.
  - intros c ok Hc. unfold join_channel. fold g. rewrite Hc.
    destruct (decide (channel_of s c = Some (ch_id channel)));
      [by repeat split |].
    destruct ok; [| by repeat split].
    simpl. repeat split. unfold move_to. fields. by rewrite length_alter.
Qed.

(** ** Well-formed states *)

(** A state whose registrations are among those of a well-formed state, whose
    stores are not shorter and whose waiting workers waited already, is
    well-formed. *)
Lemma wf_shrink (s s' : state) :
  (forall g q, audio_queue s' !! g = Some q -> audio_queue s !! g = Some q) ->
  (forall g c, voice_client s' !! g = Some c -> voice_client s !! g = Some c) ->
  (forall g, is_Some (audio_queue s' !! g) -> is_Some (playing s !! g) ->
             is_Some (playing s' !! g)) ->
  (length (queues s) <= length (queues s'))%nat ->
  (length (clients s) <= length (clients s'))%nat ->
  (forall j t q deadline,
     tasks s' !! j = Some t -> t_pc t = WaitGet q deadline ->
     exists j' t', tasks s !! j' = Some t' /\ t_pc t' = WaitGet q deadline /\
                   t_guild t' = t_guild t) ->
  wf s -> wf s'.
Proof.
  intros Hq Hc Hp Hlq Hlc Ht [W1 W2 W3 W4 W5 W6]. split.
  - intros g q H. apply Hq, W1 in H. lia.
  - intros g1 g2 q H1 H2. eapply W2; eauto.
  - intros g c H. apply Hc, W3 in H. lia.
  - intros g1 g2 c H1 H2. eapply W4; eauto.
  - intros g H. apply Hp; [exact H |]. apply W5.
    destruct H as [q H]. exists q. auto.
  - intros j t q deadline Hj Hpc.
    destruct (Ht j t q deadline Hj Hpc) as (j' & t' & Hj' & Hpc' & Hg).
    destruct (W6 j' t' q deadline Hj' Hpc') as [Hlt Hown].
    split; [lia |]. intros g H. rewrite <- Hg. apply Hown, Hq, H.
Qed.

Lemma wf_init : wf init.
Proof.
  split; unfold init; fields; intros; by simplify_map_eq.
Qed.

Lemma wf_connect (channel : VoiceChannel) (s : state) :
  wf s -> wf (fst (connect channel s)).
Proof.
  intros [W1 W2 W3 W4 W5 W6]. unfold connect. split; fields; auto.
  - intros g c. rewrite length_app. simpl.
    destruct (decide (ch_guild channel = g)) as [->|Hne].
    + rewrite lookup_insert_eq. intros. simplify_eq. lia.
    + rewrite lookup_insert_ne by done. intros H. apply W3 in H. lia.
  - intros g1 g2 c.
    destruct (decide (ch_guild channel = g1)) as [<-|Hne1];
      destruct (decide (ch_guild channel = g2)) as [<-|Hne2];
      rewrite ?lookup_insert_eq, ?lookup_insert_ne by done;
      intros H1 H2; simplify_eq; try done.
    + apply W3 in H2. lia.
    + apply W3 in H1. lia.
    + eapply W4; eauto.
Qed.

Lemma wf_new_queue (g : Z) (s : state) :
  wf s -> wf (new_queue g s).
Proof.
  intros [W1 W2 W3 W4 W5 W6]. unfold new_queue. split; fields; auto.
  - intros g' q. rewrite length_app. simpl.
    destruct (decide (g = g')) as [->|Hne].
    + rewrite lookup_insert_eq. intros. simplify_eq. lia.
    + rewrite lookup_insert_ne by done. intros H. apply W1 in H. lia.
  - intros g1 g2 q.
    destruct (decide (g = g1)) as [<-|Hne1];
      destruct (decide (g = g2)) as [<-|Hne2];
      rewrite ?lookup_insert_eq, ?lookup_insert_ne by done;
      intros H1 H2; simplify_eq; try done.
    + apply W1 in H2. lia.
    + apply W1 in H1. lia.
    + eapply W2; eauto.
  - intros g'. destruct (decide (g = g')) as [->|Hne].
    + rewrite !lookup_insert_eq. eauto.
    + rewrite !lookup_insert_ne by done. apply W5.
  - intros j t q deadline Hj Hpc.
    destruct (W6 j t q deadline Hj Hpc) as [Hlt Hown].
    rewrite length_app. simpl. split; [lia |].
    intros g'. destruct (decide (g = g')) as [->|Hne].
    + rewrite lookup_insert_eq. intros. simplify_eq. lia.
    + rewrite lookup_insert_ne by done. apply Hown.
Qed.

Lemma wf_create_task (g : Z) (s : state) : wf s -> wf (create_task g s).
Proof.
  apply wf_shrink; unfold create_task; fields; auto.
  intros j t q deadline Hj Hpc.
  apply lookup_app_Some in Hj as [Hj | [_ Hj]].
  - exists j, t. auto.
  - apply list_lookup_singleton_Some in Hj as [_ <-]. discriminate.
Qed.

(** The pc of task [i] is replaced; if the new one waits on a queue, that
    queue is the one registered for the guild of the task. *)
Lemma wf_set_pc (i : nat) (t : task) (p : pc) (s : state) :
  tasks s !! i = Some t ->
  (forall q deadline, p = WaitGet q deadline ->
                      audio_queue s !! t_guild t = Some q) ->
  wf s -> wf (with_tasks (<[i := Task (t_guild t) p]> (tasks s)) s).
Proof.
  intros Hi Hp W. pose proof W as [W1 W2 W3 W4 W5 W6]. split; fields; auto.
  intros j t' q deadline Hj Hpc.
  destruct (decide (i = j)) as [<-|Hne].
  - rewrite list_lookup_insert_eq in Hj by (by eapply lookup_lt_Some).
    simplify_eq. simpl in *.
    specialize (Hp q deadline Hpc). split; [by eapply W1 |].
    intros g Hg. eapply W2; eauto.
  - rewrite list_lookup_insert_ne in Hj by done. eauto.
Qed.

Lemma mark_done_waiting (c : nat) (t : task) (q : nat) (deadline : Q) :
  t_pc (mark_done c t) = WaitGet q deadline ->
  t_pc t = WaitGet q deadline /\ t_guild (mark_done c t) = t_guild t.
Proof.
  unfold mark_done. destruct (t_pc t) eqn:E; simpl; try (rewrite E; auto).
  destruct (_ =? _)%nat; simpl; [discriminate | rewrite E; discriminate].
Qed.

Lemma mark_done_guild (c : nat) (t : task) :
  t_guild (mark_done c t) = t_guild t.
Proof.
  unfold mark_done. destruct (t_pc t); try reflexivity.
  destruct (_ =? _)%nat; reflexivity.
Qed.

Lemma wf_stop_player (c : nat) (s : state) : wf s -> wf (stop_player c s).
Proof.
  apply wf_shrink; unfold stop_player; fields; auto.
  - by rewrite length_alter.
  - intros j t q deadline Hj Hpc.
    rewrite list_lookup_fmap in Hj.
    destruct (tasks s !! j) as [t0|] eqn:E; [| discriminate].
    simpl in Hj. simplify_eq.
    apply mark_done_waiting in Hpc as [Hpc Hg]. exists j, t0. auto.
Qed.

Lemma wf_clients (x : list VoiceClient) (s : state) :
  length x = length (clients s) -> wf s -> wf (with_clients x s).
Proof.
  intros Hlen. apply wf_shrink; fields; auto; [lia |].
  intros j t q deadline Hj Hpc. exists j, t. auto.
Qed.

Lemma wf_queues (x : list (list audio_item)) (s : state) :
  length x = length (queues s) -> wf s -> wf (with_queues x s).
Proof.
  intros Hlen. apply wf_shrink; fields; auto; [lia |].
  intros j t q deadline Hj Hpc. exists j, t. auto.
Qed.

Lemma wf_set_queue (q : nat) (items : list audio_item) (s : state) :
  wf s -> wf (set_queue q items s).
Proof. apply wf_queues. apply length_insert. Qed.

Lemma wf_put (q : nat) (item : audio_item) (s : state) :
  wf s -> wf (put q item s).
Proof. apply wf_set_queue. Qed.

Lemma wf_move_to (c : nat) (channel : VoiceChannel) (s : state) :
  wf s -> wf (move_to c channel s).
Proof. apply wf_clients. apply length_alter. Qed.

Lemma wf_start_player (c : nat) (s : state) : wf s -> wf (start_player c s).
Proof. apply wf_clients. apply length_alter. Qed.

Lemma wf_history (s : state) (e p : list (Z * audio_item)) :
  wf s -> wf (with_played p (with_enqueued e s)).
Proof.
  apply wf_shrink; fields; auto.
  intros j t q deadline Hj Hpc. exists j, t. auto.
Qed.

Lemma wf_now (x : Q) (s : state) : wf s -> wf (with_now x s).
Proof.
  apply wf_shrink; fields; auto.
  intros j t q deadline Hj Hpc. exists j, t. auto.
Qed.

Lemma wf_bindings (x : gmap Z Z) (s : state) :
  wf s -> wf (with_voice_text_channels x s).
Proof.
  apply wf_shrink; fields; auto.
  intros j t q deadline Hj Hpc. exists j, t. auto.
Qed.

Lemma wf_forget_client (g : Z) (s : state) :
  wf s -> wf (with_voice_client (delete g (voice_client s)) s).
Proof.
  apply wf_shrink; fields; auto.
  - intros g' c H. apply lookup_delete_Some in H as [_ H]. exact H.
  - intros j t q deadline Hj Hpc. exists j, t. auto.
Qed.

Lemma wf_disconnect (g : Z) (c : nat) (s : state) :
  wf s -> wf (disconnect g c s).
Proof.
  intros W. unfold disconnect. cbv zeta.
  assert (W' := wf_stop_player c s W).
  revert W'. apply wf_shrink; fields; auto.
  - intros g' c' H. apply lookup_delete_Some in H as [_ H]. exact H.
  - by rewrite length_alter.
  - intros j t q deadline Hj Hpc. exists j, t. auto.
Qed.

Lemma wf_lose_connection (g : Z) (gone : bool) (s : state) :
  wf s -> wf (lose_connection g gone s).
Proof.
  intros W. unfold lose_connection.
  destruct (voice_client s !! g) as [c|]; [| exact W].
  assert (W' : wf (with_clients
             (alter (fun vc => Client (vc_guild vc) (vc_channel vc) false
                                      (vc_playing vc)) c (clients s)) s))
    by (apply wf_clients; [apply length_alter | exact W]).
  destruct gone; [| exact W'].
  revert W'. apply wf_shrink; fields; auto.
  - intros g' c' H. apply lookup_delete_Some in H as [_ H]. exact H.
  - intros j t q deadline Hj Hpc. exists j, t. auto.
Qed.

Lemma wf_clean_up_queue (g : Z) (s : state) :
  wf s -> wf (fst (clean_up_queue g s)).
Proof.
  intros W. unfold clean_up_queue, set_queue.
  destruct (audio_queue s !! g) as [q|] eqn:Hq; [| exact W].
  fields.
  assert (W' : wf (with_audio_queue (delete g (audio_queue s))
                     (with_queues (<[q := []]> (queues s)) s))).
  { revert W. apply wf_shrink; fields; auto.
    - intros g' q' H. apply lookup_delete_Some in H as [_ H]. exact H.
    - by rewrite length_insert.
    - intros j t q' deadline Hj Hpc. exists j, t. auto. }
  destruct (playing s !! g) as [b|] eqn:Hp; [| exact W']. fields.
  revert W'. apply wf_shrink; fields; auto.
  - intros g' [q' H] Hplay.
    apply lookup_delete_Some in H as [Hne H].
    by rewrite lookup_delete_ne.
  - intros j t q' deadline Hj Hpc. exists j, t. auto.
Qed.

(** ** Every event keeps the state well-formed *)

Lemma wf_join_channel (channel : VoiceChannel) (ok : bool) (s : state) :
  wf s -> wf (fst (join_channel channel ok s)).
Proof.
  intros W. unfold join_channel.
  destruct (connected_client s (ch_guild channel)) as [c|].
  - destruct (decide _); [exact W |].
    destruct ok; [by apply wf_move_to | exact W].
  - destruct ok; [| exact W].
    pose proof (wf_connect channel s W) as W0.
    destruct (connect channel s) as [s0 c0]. simpl in W0.
    assert (W1 : wf match audio_queue s0 !! ch_guild channel with
                    | Some _ => s0
                    | None => new_queue (ch_guild channel) s0
                    end)
      by (destruct (audio_queue s0 !! _); [exact W0 | by apply wf_new_queue]).
    simpl.
    destruct (playing _ !! _) as [[]|]; [exact W1 | |]; by apply wf_create_task.
Qed.

Lemma wf_leave_channel (g : Z) (ok : bool) (s : state) :
  wf s -> wf (fst (leave_channel g ok s)).
Proof.
  intros W. unfold leave_channel.
  destruct (connected_client s g) as [c|]; [| exact W].
  destruct ok; [| exact W].
  pose proof (wf_clean_up_queue g _ (wf_disconnect g c s W)) as W'.
  destruct (clean_up_queue g (disconnect g c s)) as [s' []]; simpl in *.
  - by apply wf_bindings.
  - exact W'.
Qed.

Lemma wf_enqueued (x : list (Z * audio_item)) (s : state) :
  wf s -> wf (with_enqueued x s).
Proof.
  apply wf_shrink; fields; auto.
  intros j t q deadline Hj Hpc. exists j, t. auto.
Qed.

Lemma wf_played (x : list (Z * audio_item)) (s : state) :
  wf s -> wf (with_played x s).
Proof.
  apply wf_shrink; fields; auto.
  intros j t q deadline Hj Hpc. exists j, t. auto.
Qed.

Lemma wf_play_audio (channel : VoiceChannel) (audio_data : list Byte.byte)
    (username : Py.str) (ok : bool) (s : state) :
  wf s -> wf (fst (play_audio channel audio_data username ok s)).
Proof.
  intros W. unfold play_audio.
  set (g := ch_guild channel).
  assert (Hc : forall s1 c,
             match connected_client s g with
             | Some c => Some (s, c)
             | None => if ok then Some (connect channel s) else None
             end = Some (s1, c) -> wf s1).
  { intros s1 c. destruct (connected_client s g).
    - intros. by simplify_eq.
    - destruct ok; [| discriminate].
      pose proof (wf_connect channel s W) as W0.
      destruct (connect channel s). intros. by simplify_eq. }
  destruct (match connected_client s g with
            | Some c => Some (s, c)
            | None => if ok then Some (connect channel s) else None
            end) as [[s1 c]|]; [| exact W].
  specialize (Hc s1 c eq_refl).
  assert (Hq : forall s2, wf s2 ->
    wf (fst (let s3 := match audio_queue s2 !! g with
                       | Some _ => s2
                       | None => create_task g (new_queue g s2)
                       end in
             let audio_item := Item audio_data username in
             match audio_queue s3 !! g with
             | Some q =>
                 (with_enqueued (enqueued s3 ++ [(g, audio_item)])
                    (put q audio_item s3), true)
             | None => (s3, false)
             end))).
  { intros s2 W2. cbv zeta.
    set (s3 := match audio_queue s2 !! g with
               | Some _ => s2
               | None => create_task g (new_queue g s2)
               end).
    assert (W3 : wf s3).
    { subst s3. destruct (audio_queue s2 !! g); [exact W2 |].
      by apply wf_create_task, wf_new_queue. }
    destruct (audio_queue s3 !! g); [| exact W3].
    simpl. by apply wf_enqueued, wf_put. }
  destruct (decide _) as [Hch|Hch]; [by apply Hq |].
  destruct ok; [| exact Hc].
  by apply Hq, wf_move_to.
Qed.

Lemma loop_head_registered (g : Z) (s : state) (q : nat) (deadline : Q) :
  loop_head g s = WaitGet q deadline -> audio_queue s !! g = Some q.
Proof.
  unfold loop_head. destruct (audio_queue s !! g); intros; by simplify_eq.
Qed.

Lemma sound_loop_head (g : Z) (s : state) :
  sound_resumption g s s (loop_head g s).
Proof.
  split; [auto |]. split; [apply loop_head_registered | eauto].
Qed.

Lemma sound_other (g : Z) (s : state) (p' : pc) :
  (forall q deadline, p' <> WaitGet q deadline) ->
  sound_resumption g s s p'.
Proof.
  intros H. split; [auto |]. split; [| eauto].
  intros q deadline E. by destruct (H q deadline).
Qed.

Lemma sound_trans (g : Z) (s s1 s' : state) (p' : pc) :
  (wf s -> wf s1) ->
  (forall i t, tasks s !! i = Some t ->
               exists t', tasks s1 !! i = Some t' /\ t_guild t' = t_guild t) ->
  sound_resumption g s1 s' p' -> sound_resumption g s s' p'.
Proof.
  intros W T (W' & R & T'). split; [auto |]. split; [exact R |].
  intros i t Hi. destruct (T i t Hi) as (t1 & H1 & G1).
  destruct (T' i t1 H1) as (t' & H' & G'). exists t'. split; [exact H' |].
  congruence.
Qed.

Lemma stop_player_tasks (c : nat) (s : state) (i : nat) (t : task) :
  tasks s !! i = Some t ->
  exists t', tasks (stop_player c s) !! i = Some t' /\ t_guild t' = t_guild t.
Proof.
  intros Hi. unfold stop_player. fields.
  rewrite list_lookup_fmap, Hi. simpl.
  eexists. split; [reflexivity | apply mark_done_guild].
Qed.

Lemma sound_hand_over (env : worker_env) (g : Z) (c : nat) (item : audio_item)
    (s : state) :
  sound_resumption g s (fst (hand_over env g c item s))
                   (snd (hand_over env g c item s)).
Proof.
  unfold hand_over, _play_audio_data. cbv zeta.
  set (s1 := with_played _ s).
  apply (sound_trans g s s1); [apply wf_played | subst s1; fields; eauto |].
  destruct (is_empty (data item)); [apply sound_loop_head |].
  destruct (negb (media_ok env)); [apply sound_loop_head |].
  destruct (clients s1 !! c) as [vc|]; [| apply sound_loop_head].
  destruct (vc_connected vc && negb (vc_playing vc)); [| apply sound_loop_head].
  simpl. apply (sound_trans g s1 (start_player c s1));
    [apply wf_start_player | unfold start_player; fields; eauto |].
  by apply sound_other.
Qed.

Lemma sound_wait_free (env : worker_env) (g : Z) (c : nat) (item : audio_item)
    (s : state) :
  sound_resumption g s (fst (wait_free env g c item s))
                   (snd (wait_free env g c item s)).
Proof.
  unfold wait_free. destruct (client_playing s c); [| apply sound_hand_over].
  by apply sound_other.
Qed.

Lemma sound_put_back (g : Z) (item : audio_item) (s : state) :
  sound_resumption g s (fst (put_back g item s)) (snd (put_back g item s)).
Proof.
  unfold put_back. destruct (audio_queue s !! g) as [q|]; simpl.
  - apply (sound_trans g s (put q item s));
      [apply wf_put | unfold put, set_queue; fields; eauto |].
    by apply sound_other.
  - by apply sound_other.
Qed.

Lemma sound_after_get (env : worker_env) (g : Z) (item : audio_item)
    (s : state) :
  sound_resumption g s (fst (after_get env g item s))
                   (snd (after_get env g item s)).
Proof.
  unfold after_get. destruct (negb (guild_known env)); [apply sound_loop_head |].
  destruct (connected_client s g);
    [apply sound_wait_free | apply sound_put_back].
Qed.

Lemma sound_resume (env : worker_env) (g : Z) (p : pc) (s s' : state) (p' : pc) :
  _process_audio_queue env g p s = Some (s', p') -> sound_resumption g s s' p'.
Proof.
  unfold _process_audio_queue. destruct p as [|q deadline|wake|wake|c item wake
                                |c item done deadline|wake|].
  - intros [= <- <-]. apply sound_loop_head.
  - destruct (queue_of s q) as [|item rest].
    + destruct (due deadline s); [| discriminate]. intros [= <- <-].
      unfold on_timeout.
      destruct (registered_and_empty g s);
        [by apply sound_other | apply sound_loop_head].
    + pose proof (sound_after_get env g item (set_queue q rest s)) as S.
      destruct (after_get env g item (set_queue q rest s)) as [s1 p1].
      intros [= <- <-]. simpl in S.
      apply (sound_trans g s (set_queue q rest s));
        [apply wf_set_queue | unfold set_queue; fields; eauto | exact S].
  - destruct (due wake s); [| discriminate]. intros [= <- <-].
    unfold after_grace.
    destruct (registered_and_empty g s);
      [by apply sound_other | apply sound_loop_head].
  - destruct (due wake s); [| discriminate]. intros [= <- <-].
    apply sound_loop_head.
  - destruct (due wake s); [| discriminate].
    pose proof (sound_wait_free env g c item s) as S.
    destruct (wait_free env g c item s). intros [= <- <-]. exact S.
  - destruct done.
    + intros [= <- <-]. apply sound_loop_head.
    + destruct (due deadline s); [| discriminate]. intros [= <- <-].
      apply (sound_trans g s (stop_player c s));
        [apply wf_stop_player | apply stop_player_tasks | apply sound_loop_head].
  - destruct (due wake s); [| discriminate]. intros [= <- <-].
    apply sound_loop_head.
  - discriminate.
Qed.

Lemma wf_resume_task (i : nat) (env : worker_env) (s : state) :
  wf s -> wf (resume_task i env s).
Proof.
  intros W. unfold resume_task.
  destruct (tasks s !! i) as [t|] eqn:Hi; [| exact W].
  destruct (_process_audio_queue env (t_guild t) (t_pc t) s)
    as [[s' p']|] eqn:Hr; [| exact W].
  destruct (sound_resume _ _ _ _ _ _ Hr) as (W' & R & T).
  destruct (T i t Hi) as (t' & Hi' & G). rewrite <- G.
  apply wf_set_pc; [exact Hi' | | auto].
  intros q deadline E. rewrite G. by eapply R.
Qed.

Lemma wf_advance (d : Q) (s : state) : wf s -> wf (advance d s).
Proof.
  intros W. unfold advance. destruct (Qle_bool 0 d); [by apply wf_now | exact W].
Qed.

Lemma wf_step (s : state) (e : event) : wf s -> wf (step s e).
Proof.
  destruct e; simpl.
  - apply wf_join_channel.
  - apply wf_leave_channel.
  - apply wf_play_audio.
  - apply wf_resume_task.
  - apply wf_advance.
  - apply wf_lose_connection.
  - apply wf_stop_player.
Qed.

Lemma wf_run (events : list event) (s : state) : wf s -> wf (run events s).
Proof.
  revert s. induction events as [|e events IH]; intros s W; [exact W |].
  apply IH, wf_step, W.
Qed.

(** ** play_audio *)

Lemma queue_of_set_queue (q : nat) (items : list audio_item) (s : state) :
  (q < length (queues s))%nat -> queue_of (set_queue q items s) q = items.
Proof.
  intros H. unfold queue_of, set_queue. fields.
  by rewrite list_lookup_insert_eq.
Qed.

(** The last part of [play_audio], from "Inicializar cola si no existe". *)
Lemma play_audio_enqueues (g : Z) (item : audio_item) (s2 : state) :
  wf s2 ->
  let r := (let s3 := match audio_queue s2 !! g with
                      | Some _ => s2
                      | None => create_task g (new_queue g s2)
                      end in
            match audio_queue s3 !! g with
            | Some q =>
                (with_enqueued (enqueued s3 ++ [(g, item)]) (put q item s3),
                 true)
            | None => (s3, false)
            end) in
  snd r = true /\
  voice_client (fst r) = voice_client s2 /\
  clients (fst r) = clients s2 /\
  room_queue g (fst r) = room_queue g s2 ++ [item].
Proof.
  intros W. cbv zeta. unfold room_queue.
  destruct (audio_queue s2 !! g) as [q|] eqn:Hq.
  - rewrite Hq. unfold put, set_queue, queue_of. fields.
    rewrite Hq, list_lookup_insert_eq by (by eapply wf_queue_ref).
    auto.
  - unfold create_task, new_queue, put, set_queue, queue_of. fields.
    rewrite lookup_insert_eq. fields. rewrite lookup_insert_eq.
    rewrite lookup_app_r, Nat.sub_diag by lia. simpl.
    rewrite list_lookup_insert_eq by (rewrite length_app; simpl; lia).
    auto.
Qed.

(** C10.  In a well-formed state, when [play_audio] returns [True] the
    guild is connected to the channel of the job and the job is the last
    item of the guild's queue, behind what was there; when it returns
    [False] the state is as before.  It returns [False] exactly when the
    guild was not connected to that channel and the connect or the move
    failed. *)
Theorem play_audio_connects_first (channel : VoiceChannel)
    (audio_data : list Byte.byte) (username : Py.str) (ok : bool) (s : state) :
  let g := ch_guild channel in
  let result := play_audio channel audio_data username ok s in
  wf s ->
  (snd result = true ->
     (exists c, connected_client (fst result) g = Some c /\
                channel_of (fst result) c = Some (ch_id channel)) /\
     room_queue g (fst result)
       = room_queue g s ++ [Item audio_data username]) /\
  (snd result = false -> fst result = s) /\
  (snd result = false <->
     ok = false /\
     ~ exists c, connected_client s g = Some c /\
                 channel_of s c = Some (ch_id channel)).
Proof.
  intros g result W. subst result. unfold play_audio. fold g.
  (* after a successful connect or move *)
  assert (Hgo : forall s2 c,
    wf s2 -> connected_client s2 g = Some c ->
    channel_of s2 c = Some (ch_id channel) ->
    room_queue g s2 = room_queue g s ->
    let r := (let s3 := match audio_queue s2 !! g with
                        | Some _ => s2
                        | None => create_task g (new_queue g s2)
                        end in
              let audio_item := Item audio_data username in
              match audio_queue s3 !! g with
              | Some q =>
                  (with_enqueued (enqueued s3 ++ [(g, audio_item)])
                     (put q audio_item s3), true)
              | None => (s3, false)
              end) in
    snd r = true /\
    (exists c, connected_client (fst r) g = Some c /\
               channel_of (fst r) c = Some (ch_id channel)) /\
    room_queue g (fst r) = room_queue g s ++ [Item audio_data username]).
  { intros s2 c W2 Hc Hch Hrq r. subst r.
    pose proof (play_audio_enqueues g (Item audio_data username) s2 W2) as H.
    cbv zeta in H |- *. destruct H as (Ht & Hvc & Hcl & Hq).
    split; [exact Ht |]. split; [| by rewrite Hq, Hrq].
    exists c. split.
    - erewrite connected_client_ext; eauto.
    - erewrite channel_of_ext; eauto. }
  destruct (connected_client s g) as [c|] eqn:Hc.
  - destruct (decide (channel_of s c = Some (ch_id channel))) as [Hch|Hch].
    + pose proof (Hgo s c W Hc Hch eq_refl) as H.
      cbv beta iota zeta in H |- *. destruct H as (Ht & Hcon & Hq).
      split; [intros _; split; assumption |].
      split; [intros E; congruence |].
      split; [intros E; congruence |]. intros [_ Hno]. destruct Hno. eauto.
    + destruct ok.
      * destruct (move_to_connected c channel s g Hc) as [Hc' Hch'].
        pose proof (Hgo (move_to c channel s) c (wf_move_to c channel s W)
                      Hc' Hch' eq_refl) as H.
        cbv beta iota zeta in H |- *. destruct H as (Ht & Hcon & Hq).
        split; [intros _; split; assumption |].
        split; [intros E; congruence |].
        split; [intros E; congruence |]. intros [? _]. discriminate.
      * simpl. split; [discriminate |]. split; [auto |].
        split; [| auto]. intros _. split; [reflexivity |].
        intros (c' & Hc' & Hch'). congruence.
  - destruct ok.
    + destruct (connect_connected channel s) as [Hc' Hch'].
      pose proof (wf_connect channel s W) as W'.
      assert (Hrq : room_queue g (fst (connect channel s)) = room_queue g s)
        by reflexivity.
      destruct (connect channel s) as [s1 c1]. simpl in Hc', Hch', W', Hrq.
      destruct (decide (channel_of s1 c1 = Some (ch_id channel)));
        [| contradiction].
      pose proof (Hgo s1 c1 W' Hc' Hch' Hrq) as H.
      cbv beta iota zeta in H |- *. destruct H as (Ht & Hcon & Hq).
      split; [intros _; split; assumption |].
      split; [intros E; congruence |].
      split; [intros E; congruence |]. intros [? _]. discriminate.
    + simpl. split; [discriminate |]. split; [auto |].
      split; [| auto]. intros _. split; [reflexivity |].
      intros (c' & Hc' & _). discriminate.
Qed.

Lemma play_audio_connects_first_witness :
  wf init /\
  snd (play_audio Scenario.room [Byte.x01] (Py.txt "A") true init) = true /\
  room_queue 1 (fst (play_audio Scenario.room [Byte.x01] (Py.txt "A") true init))
    = [Item [Byte.x01] (Py.txt "A")].
Proof.
  split; [exact wf_init |].
  assert (H : snd (play_audio Scenario.room [Byte.x01] (Py.txt "A") true init)
              = true) by (vm_compute; reflexivity).
  split; [exact H |].
  destruct (play_audio_connects_first Scenario.room [Byte.x01] (Py.txt "A")
              true init wf_init) as (Hok & _).
  destruct (Hok H) as [_ Hq]. exact Hq.
Defined.

(** ** leave_channel *)

Lemma connected_client_Some (s : state) (g : Z) (c : nat) :
  connected_client s g = Some c ->
  voice_client s !! g = Some c /\
  exists vc, clients s !! c = Some vc /\ vc_connected vc = true.
Proof.
  unfold connected_client.
  destruct (voice_client s !! g) as [c'|]; [| discriminate].
  destruct (clients s !! c') as [vc|] eqn:Hvc; [| discriminate].
  destruct (vc_connected vc) eqn:Hcon; [| discriminate].
  intros [= <-]. eauto.
Qed.

(** C5, amended.  On a guild that is not connected, [leave_channel]
    returns without an error and leaves the whole state, the binding
    included, as it is.  On a connected guild it raises when the disconnect
    fails, and the state is as before; when the disconnect succeeds it
    returns, the client is disconnected and no longer the voice client of
    the guild, and the binding and the registration of the queue are
    deleted. *)
Theorem leave_channel_clears_with_the_connection (g : Z) (ok : bool) (s : state) :
  (connected_client s g = None -> leave_channel g ok s = (s, Returns)) /\
  (forall c, connected_client s g = Some c -> ok = false ->
             leave_channel g ok s = (s, Raised)) /\
  (forall c, wf s -> connected_client s g = Some c -> ok = true ->
             let s' := fst (leave_channel g ok s) in
             snd (leave_channel g ok s) = Returns /\
             connected_client s' g = None /\
             voice_client s' !! g = None /\
             vc_connected <$> clients s' !! c = Some false /\
             voice_text_channels s' !! g = None /\
             audio_queue s' !! g = None).
Proof.
  split; [| split].
  - intros H. unfold leave_channel. by rewrite H.
  - intros c H ->. unfold leave_channel. by rewrite H.
  - intros c W H ->. unfold leave_channel. rewrite H.
    destruct (connected_client_Some s g c H) as (Hg & vc & Hvc & Hcon).
    unfold clean_up_queue, disconnect, stop_player, set_queue. cbv zeta. fields.
    assert (Hcl : forall l : list VoiceClient,
              l !! c = Some vc ->
              vc_connected <$>
                alter (fun vc => Client (vc_guild vc) (vc_channel vc) false
                                        (vc_playing vc)) c
                  (alter (fun vc => Client (vc_guild vc) (vc_channel vc)
                                           (vc_connected vc) false) c l) !! c
              = Some false).
    { intros l Hl. by rewrite !list_lookup_alter_eq, Hl. }
    destruct (audio_queue s !! g) as [q|] eqn:Hq.
    + destruct (wf_playing s W g) as [b Hb]; [eauto |].
      fields. rewrite Hb. fields.
      unfold connected_client. fields.
      rewrite !lookup_delete_eq. rewrite (Hcl _ Hvc). by repeat split.
    + fields. unfold connected_client. fields.
      rewrite !lookup_delete_eq. rewrite (Hcl _ Hvc). by repeat split.
Qed.

Lemma leave_channel_clears_with_the_connection_witness :
  let s := Bot.join_voice Scenario.room 77 true init in
  wf s /\ connected_client s 1 = Some 0%nat /\
  voice_text_channels s !! 1 = Some 77 /\
  voice_text_channels (fst (leave_channel 1 true s)) !! 1 = None.
Proof.
  intros s.
  assert (W : wf s).
  { unfold s, Bot.join_voice. apply wf_bindings, wf_join_channel, wf_init. }
  assert (H : connected_client s 1 = Some 0%nat) by (vm_compute; reflexivity).
  split; [exact W |]. split; [exact H |]. split; [vm_compute; reflexivity |].
  destruct (leave_channel_clears_with_the_connection 1 true s) as (_ & _ & L).
  destruct (L 0%nat W H eq_refl) as (_ & _ & _ & _ & Hb & _). exact Hb.
Defined.

(** The command [leave] deletes the binding whenever [leave_channel]
    returns, connected or not. *)
Lemma leave_voice_clears_binding (g : Z) (ok : bool) (s : state) :
  snd (leave_channel g ok s) = Returns ->
  voice_text_channels (Bot.leave_voice g ok s) !! g = None.
Proof.
  unfold Bot.leave_voice. destruct (leave_channel g ok s) as [s' []]; simpl.
  - intros _. apply lookup_delete_eq.
  - discriminate.
Qed.

(** ** The worker, idle and with a lost connection *)

(** A worker that starts on a registered queue waits on it with a deadline
    300 from now.  While the queue it waits on is empty it stays suspended
    until the deadline; then, the registered queue being empty, it sleeps
    until 10 from now, and after that, the queue being still empty, it
    returns. *)
Lemma idle_exit_after_300_and_10 (env : worker_env) (g : Z) (q : nat)
    (s : state) :
  audio_queue s !! g = Some q -> queue_of s q = [] ->
  _process_audio_queue env g Ready s = Some (s, WaitGet q (now s + 300)%Q) /\
  (forall deadline,
     _process_audio_queue env g (WaitGet q deadline) s
     = if due deadline s then Some (s, Grace (now s + 10)%Q) else None) /\
  (forall wake,
     _process_audio_queue env g (Grace wake) s
     = if due wake s then Some (s, Stopped) else None).
Proof.
  intros Hq Hempty.
  assert (Hre : registered_and_empty g s = true)
    by (unfold registered_and_empty; by rewrite Hq, Hempty).
  unfold _process_audio_queue, loop_head, on_timeout, after_grace.
  rewrite Hq, Hempty, Hre. auto.
Qed.

(** C4, amended.  A worker that takes an item from the registered queue of
    its guild while the guild has no connected voice client puts it back as
    the last item of that queue, behind the items that were waiting, hands
    nothing to [_play_audio_data], and sleeps until 2 after the present
    time.  Resumed before that time it stays asleep; resumed from then on it
    waits on the queue again. *)
Theorem put_back_goes_to_the_tail (env : worker_env) (g : Z) (i q : nat)
    (deadline : Q) (item : audio_item) (rest : list audio_item) (s : state) :
  tasks s !! i = Some (Task g (WaitGet q deadline)) ->
  audio_queue s !! g = Some q ->
  queues s !! q = Some (item :: rest) ->
  guild_known env = true ->
  connected_client s g = None ->
  let s' := step s (EResume i env) in
  room_queue g s' = rest ++ [item] /\
  tasks s' !! i = Some (Task g (Backoff (now s + 2)%Q)) /\
  played s' = played s /\
  (forall s1 env1,
     tasks s1 !! i = Some (Task g (Backoff (now s + 2)%Q)) ->
     audio_queue s1 !! g = Some q ->
     ((now s1 < now s + 2)%Q -> step s1 (EResume i env1) = s1) /\
     ((now s + 2 <= now s1)%Q ->
        tasks (step s1 (EResume i env1)) !! i
        = Some (Task g (WaitGet q (now s1 + 300)%Q)))).
Proof.
  intros Hi Hq Hitems Hknown Hnc s'.
  assert (Hlt : (q < length (queues s))%nat) by (by eapply lookup_lt_Some).
  assert (Hil : (i < length (tasks s))%nat) by (by eapply lookup_lt_Some).
  assert (E : s' = with_tasks (<[i := Task g (Backoff (now s + 2)%Q)]> (tasks s))
                     (put q item (set_queue q rest s))).
  { subst s'. simpl. unfold resume_task. rewrite Hi. simpl.
    unfold queue_of. rewrite Hitems. simpl.
    unfold after_get. rewrite Hknown. simpl.
    rewrite (connected_client_ext s (set_queue q rest s) g) by reflexivity.
    rewrite Hnc. unfold put_back.
    change (audio_queue (set_queue q rest s)) with (audio_queue s).
    rewrite Hq. reflexivity. }
  rewrite E. clear E s'.
  split; [| split; [| split]].
  - unfold room_queue, put, set_queue, queue_of. fields. rewrite Hq.
    rewrite list_lookup_insert_eq by (by rewrite length_insert).
    by rewrite list_lookup_insert_eq.
  - fields. by rewrite list_lookup_insert_eq.
  - reflexivity.
  - intros s1 env1 H1 Hq1. split.
    + intros Hearly. simpl. unfold resume_task. rewrite H1. simpl.
      unfold due.
      destruct (Qle_bool (now s + 2) (now s1)) eqn:E; [| reflexivity].
      apply Qle_bool_iff in E. exfalso. eapply Qlt_not_le; eauto.
    + intros Hlate. simpl. unfold resume_task. rewrite H1. simpl.
      unfold due. apply Qle_bool_iff in Hlate. rewrite Hlate.
      unfold loop_head. rewrite Hq1. fields.
      rewrite list_lookup_insert_eq by (by eapply lookup_lt_Some).
      reflexivity.
Qed.

Lemma put_back_goes_to_the_tail_witness :
  let s := run [EJoin Scenario.room true; EResume 0 Scenario.normal;
                Scenario.enqueue Scenario.J1; Scenario.enqueue Scenario.J2;
                ELost 1 true] init in
  room_queue 1 (step s (EResume 0 Scenario.normal))
    = [Scenario.J2] ++ [Scenario.J1] /\
  tasks (step s (EResume 0 Scenario.normal)) !! 0%nat
    = Some (Task 1 (Backoff (now s + 2)%Q)).
Proof.
  intros s.
  destruct (put_back_goes_to_the_tail Scenario.normal 1 0 0 300
              Scenario.J1 [Scenario.J2] s) as (H1 & H2 & _);
    try (vm_compute; reflexivity).
  split; [exact H1 | exact H2].
Defined.

(** ** Events that do not concern a guild *)

Lemma frame_refl (g : Z) (s : state) : frame g s s.
Proof. split; eauto. intros j t' H1 H2. congruence. Qed.

Lemma frame_trans (g : Z) (s1 s2 s3 : state) :
  frame g s1 s2 -> frame g s2 s3 -> frame g s1 s3.
Proof.
  intros [A1 A2 A3 A4 A5 A6 A7 A8] [B1 B2 B3 B4 B5 B6 B7 B8]. split.
  - congruence.
  - intros c Hc. rewrite B2, A2; congruence.
  - congruence.
  - intros q Hq. rewrite B4, A4; congruence.
  - intros j t Hj. destruct (A5 j t Hj) as (t2 & H2 & G2 & P2).
    destruct (B5 j t2 H2) as (t3 & H3 & G3 & P3).
    exists t3. split; [exact H3 |]. split; [congruence |].
    intros Hg. rewrite P3, P2; congruence.
  - intros j t3 H3 H1. destruct (tasks s2 !! j) as [t2|] eqn:H2.
    + destruct (B5 j t2 H2) as (t3' & H3' & G3 & _).
      assert (t3' = t3) by congruence. subst t3'.
      rewrite G3. by eapply A6.
    + by eapply B6.
  - congruence.
  - congruence.
Qed.

(** The clients change, but not whether the client of [g] is connected. *)
Lemma frame_clients (g : Z) (x : list VoiceClient) (s : state) :
  (forall c, voice_client s !! g = Some c ->
             vc_connected <$> x !! c = vc_connected <$> clients s !! c) ->
  frame g s (with_clients x s).
Proof.
  intros H. split; fields; eauto. intros j t' H1 H2. congruence.
Qed.

Lemma alter_keeps_connected (f : VoiceClient -> VoiceClient)
    (l : list VoiceClient) (c' c : nat) :
  (forall vc, vc_connected (f vc) = vc_connected vc) ->
  vc_connected <$> alter f c' l !! c = vc_connected <$> l !! c.
Proof.
  intros Hf. destruct (decide (c' = c)) as [->|Hne].
  - rewrite list_lookup_alter_eq. destruct (l !! c); simpl; [| reflexivity].
    by rewrite Hf.
  - by rewrite list_lookup_alter_ne.
Qed.

Lemma frame_move_to (g : Z) (c : nat) (channel : VoiceChannel) (s : state) :
  frame g s (move_to c channel s).
Proof.
  apply frame_clients. intros c' _. by apply alter_keeps_connected.
Qed.

Lemma frame_start_player (g : Z) (c : nat) (s : state) :
  frame g s (start_player c s).
Proof.
  apply frame_clients. intros c' _. by apply alter_keeps_connected.
Qed.

Lemma pc_view_mark_done (c : nat) (t : task) :
  pc_view (t_pc (mark_done c t)) = pc_view (t_pc t).
Proof.
  unfold mark_done. destruct (t_pc t) eqn:E; simpl; rewrite ?E; try reflexivity.
  destruct (_ =? _)%nat; simpl; rewrite ?E; reflexivity.
Qed.

Lemma frame_stop_player (g : Z) (c : nat) (s : state) :
  frame g s (stop_player c s).
Proof.
  unfold stop_player. split; fields; eauto.
  - intros c' _. by apply alter_keeps_connected.
  - intros j t Hj. rewrite list_lookup_fmap, Hj. simpl.
    eexists. split; [reflexivity |].
    split; [apply mark_done_guild | intros _; apply pc_view_mark_done].
  - intros j t'. rewrite list_lookup_fmap. intros H1 H2.
    rewrite H2 in H1. discriminate.
Qed.

Lemma frame_connect (g : Z) (channel : VoiceChannel) (s : state) :
  wf s -> ch_guild channel <> g -> frame g s (fst (connect channel s)).
Proof.
  intros W Hne. unfold connect. split; fields; eauto.
  - by rewrite lookup_insert_ne.
  - intros c Hc. rewrite lookup_app_l; [reflexivity |].
    by eapply wf_client_ref.
  - intros j t' H1 H2. congruence.
Qed.

Lemma frame_queues (g : Z) (x : list (list audio_item)) (s : state) :
  (forall q, audio_queue s !! g = Some q -> x !! q = queues s !! q) ->
  frame g s (with_queues x s).
Proof.
  intros H. split; fields; eauto. intros j t' H1 H2. congruence.
Qed.

Lemma frame_set_queue (g : Z) (q : nat) (items : list audio_item) (s : state) :
  audio_queue s !! g <> Some q -> frame g s (set_queue q items s).
Proof.
  intros Hne. apply frame_queues. intros q' Hq'.
  apply list_lookup_insert_ne. congruence.
Qed.

Lemma frame_put (g : Z) (q : nat) (item : audio_item) (s : state) :
  audio_queue s !! g <> Some q -> frame g s (put q item s).
Proof. apply frame_set_queue. Qed.

Lemma frame_new_queue (g g' : Z) (s : state) :
  wf s -> g' <> g -> frame g s (new_queue g' s).
Proof.
  intros W Hne. unfold new_queue. split; fields; eauto.
  - by rewrite lookup_insert_ne.
  - intros q Hq. rewrite lookup_app_l; [reflexivity |].
    by eapply wf_queue_ref.
  - intros j t' H1 H2. congruence.
Qed.

Lemma frame_create_task (g g' : Z) (s : state) :
  g' <> g -> frame g s (create_task g' s).
Proof.
  intros Hne. unfold create_task. split; fields; eauto.
  - intros j t Hj. exists t. split; [| auto].
    rewrite lookup_app_l; [exact Hj | by eapply lookup_lt_Some].
  - intros j t' H1 H2. apply lookup_app_Some in H1 as [H1 | [_ H1]].
    + congruence.
    + apply list_lookup_singleton_Some in H1 as [_ <-]. exact Hne.
Qed.

Lemma of_guild_snoc (g g' : Z) (log : list (Z * audio_item)) (item : audio_item) :
  of_guild g (log ++ [(g', item)])
  = of_guild g log ++ (if decide (g' = g) then [item] else []).
Proof.
  unfold of_guild. rewrite filter_app, fmap_app. f_equal.
  rewrite filter_cons. simpl. destruct (decide (g' = g)); reflexivity.
Qed.

Lemma of_guild_snoc_other (g g' : Z) (log : list (Z * audio_item))
    (item : audio_item) :
  g' <> g -> of_guild g (log ++ [(g', item)]) = of_guild g log.
Proof.
  intros Hne. rewrite of_guild_snoc. destruct (decide (g' = g)); [done |].
  apply app_nil_r.
Qed.

Lemma frame_enqueued (g g' : Z) (item : audio_item) (s : state) :
  g' <> g -> frame g s (with_enqueued (enqueued s ++ [(g', item)]) s).
Proof.
  intros Hne. split; fields; eauto.
  - intros j t' H1 H2. congruence.
  - by apply of_guild_snoc_other.
Qed.

Lemma frame_played (g g' : Z) (item : audio_item) (s : state) :
  g' <> g -> frame g s (with_played (played s ++ [(g', item)]) s).
Proof.
  intros Hne. split; fields; eauto.
  - intros j t' H1 H2. congruence.
  - by apply of_guild_snoc_other.
Qed.

Lemma frame_now (g : Z) (x : Q) (s : state) : frame g s (with_now x s).
Proof. split; fields; eauto. intros j t' H1 H2. congruence. Qed.

Lemma frame_bindings (g : Z) (x : gmap Z Z) (s : state) :
  frame g s (with_voice_text_channels x s).
Proof. split; fields; eauto. intros j t' H1 H2. congruence. Qed.

Lemma frame_playing (g : Z) (x : gmap Z bool) (s : state) :
  frame g s (with_playing x s).
Proof. split; fields; eauto. intros j t' H1 H2. congruence. Qed.

Lemma frame_forget_client (g g' : Z) (s : state) :
  g' <> g -> frame g s (with_voice_client (delete g' (voice_client s)) s).
Proof.
  intros Hne. split; fields; eauto.
  - by rewrite lookup_delete_ne.
  - intros j t' H1 H2. congruence.
Qed.

Lemma frame_unregister (g g' : Z) (s : state) :
  g' <> g -> frame g s (with_audio_queue (delete g' (audio_queue s)) s).
Proof.
  intros Hne. split; fields; eauto.
  - by rewrite lookup_delete_ne.
  - intros j t' H1 H2. congruence.
Qed.

(** The pc of a task of another guild is replaced. *)
Lemma frame_set_pc (g : Z) (j : nat) (t : task) (p : pc) (s : state) :
  tasks s !! j = Some t -> t_guild t <> g ->
  frame g s (with_tasks (<[j := Task (t_guild t) p]> (tasks s)) s).
Proof.
  intros Hj Hne. split; fields; eauto.
  - intros j' t' Hj'. destruct (decide (j = j')) as [<-|Hjj].
    + rewrite list_lookup_insert_eq by (by eapply lookup_lt_Some).
      eexists. split; [reflexivity |]. simplify_eq. simpl.
      split; [reflexivity | done].
    + rewrite list_lookup_insert_ne by done. eauto.
  - intros j' t' H1 H2. destruct (decide (j = j')) as [<-|Hjj].
    + congruence.
    + rewrite list_lookup_insert_ne in H1 by done. congruence.
Qed.

Lemma pc_view_held (p p' : pc) : pc_view p' = pc_view p -> held p' = held p.
Proof. destruct p, p'; simpl; intros; by simplify_eq. Qed.

Lemma pc_view_waits (p p' : pc) (q : nat) (deadline : Q) :
  pc_view p' = pc_view p -> p' = WaitGet q deadline -> p = WaitGet q deadline.
Proof. destruct p, p'; simpl; intros; by simplify_eq. Qed.

Lemma pc_view_stopped (p p' : pc) :
  pc_view p' = pc_view p -> p = Stopped -> p' = Stopped.
Proof. destruct p, p'; simpl; intros; by simplify_eq. Qed.

Lemma connected_client_frame (s s' : state) (g : Z) :
  voice_client s' !! g = voice_client s !! g ->
  (forall c, voice_client s !! g = Some c ->
     vc_connected <$> clients s' !! c = vc_connected <$> clients s !! c) ->
  connected_client s' g = connected_client s g.
Proof.
  intros Hv Hc. unfold connected_client. rewrite Hv.
  destruct (voice_client s !! g) as [c|] eqn:E; [| reflexivity].
  specialize (Hc c eq_refl).
  destruct (clients s !! c) as [vc|], (clients s' !! c) as [vc'|];
    simpl in Hc; simplify_eq; try reflexivity.
  by rewrite Hc.
Qed.

Lemma room_queue_frame (s s' : state) (g : Z) :
  audio_queue s' !! g = audio_queue s !! g ->
  (forall q, audio_queue s !! g = Some q -> queues s' !! q = queues s !! q) ->
  room_queue g s' = room_queue g s.
Proof.
  intros Ha Hq. unfold room_queue, queue_of. rewrite Ha.
  destruct (audio_queue s !! g) as [q|]; [| reflexivity].
  by rewrite Hq.
Qed.

(** The invariant of a guild survives what does not concern the guild. *)
Lemma fifo_frame (g : Z) (i : nat) (s s' : state) :
  fifo g i s -> frame g s s' -> wf s' -> fifo g i s'.
Proof.
  intros [W Hcon Hreg (t & Hi & Hg) Hsingle Hwaits Horder]
         [F1 F2 F3 F4 F5 F6 F7 F8] W'.
  destruct (F5 i t Hi) as (t' & Hi' & Hg' & Hpc').
  specialize (Hpc' Hg).
  split.
  - exact W'.
  - by rewrite (connected_client_frame s s' g).
  - by rewrite F3.
  - exists t'. split; [exact Hi' | congruence].
  - intros j tj' Hj' Hgj Hne.
    destruct (tasks s !! j) as [tj|] eqn:Hj.
    + destruct (F5 j tj Hj) as (tj'' & Hj'' & Hgj'' & Hpcj).
      assert (tj'' = tj') by congruence. subst tj''.
      eapply pc_view_stopped; [apply Hpcj; congruence |].
      eapply Hsingle; eauto. congruence.
    + by destruct (F6 j tj' Hj' Hj).
  - intros t0 q deadline Ht0 Hpc0.
    assert (t0 = t') by congruence. subst t0.
    rewrite F3. eapply Hwaits; [exact Hi |].
    eapply pc_view_waits; eauto.
  - rewrite F7, F8, Horder. f_equal.
    rewrite (room_queue_frame s s' g F3 F4). f_equal.
    unfold in_hand. rewrite Hi, Hi'. by apply pc_view_held.
Qed.

Lemma frame_join_channel (g : Z) (channel : VoiceChannel) (ok : bool)
    (s : state) :
  wf s -> (ch_guild channel = g -> is_Some (connected_client s g)) ->
  frame g s (fst (join_channel channel ok s)).
Proof.
  intros W Hown. unfold join_channel.
  destruct (connected_client s (ch_guild channel)) as [c|] eqn:Hc.
  - destruct (decide _); [apply frame_refl |].
    destruct ok; [apply frame_move_to | apply frame_refl].
  - assert (Hne : ch_guild channel <> g).
    { intros E. destruct (Hown E) as [c Hc']. congruence. }
    destruct ok; [| apply frame_refl].
    pose proof (wf_connect channel s W) as W0.
    pose proof (frame_connect g channel s W Hne) as F0.
    destruct (connect channel s) as [s0 c0]. simpl in W0, F0.
    set (s1 := match audio_queue s0 !! ch_guild channel with
               | Some _ => s0
               | None => new_queue (ch_guild channel) s0
               end).
    assert (F1 : frame g s s1).
    { subst s1. destruct (audio_queue s0 !! _); [exact F0 |].
      eapply frame_trans; [exact F0 | by apply frame_new_queue]. }
    simpl. fold s1.
    destruct (playing s1 !! _) as [[]|]; [exact F1 | |];
      (eapply frame_trans; [exact F1 | by apply frame_create_task]).
Qed.

Lemma frame_disconnect (g g' : Z) (c' : nat) (s : state) :
  wf s -> g' <> g -> voice_client s !! g' = Some c' ->
  frame g s (disconnect g' c' s).
Proof.
  intros W Hne Hc'. unfold disconnect. cbv zeta.
  set (s1 := stop_player c' s).
  set (s2 := with_clients
               (alter (fun vc => Client (vc_guild vc) (vc_channel vc) false
                                        (vc_playing vc)) c' (clients s1)) s1).
  apply (frame_trans g s s1); [apply frame_stop_player |].
  apply (frame_trans g s1 s2).
  - apply frame_clients. intros c Hc.
    rewrite list_lookup_alter_ne; [reflexivity |].
    intros ->. apply Hne. eapply wf_client_inj; eauto.
  - change (frame g s2 (with_voice_client (delete g' (voice_client s2)) s2)).
    by apply frame_forget_client.
Qed.

Lemma frame_clean_up_queue (g g' : Z) (s : state) :
  wf s -> g' <> g -> frame g s (fst (clean_up_queue g' s)).
Proof.
  intros W Hne. unfold clean_up_queue.
  destruct (audio_queue s !! g') as [q|] eqn:Hq; [| apply frame_refl].
  set (s1 := set_queue q [] s).
  set (s2 := with_audio_queue (delete g' (audio_queue s)) s1).
  assert (F : frame g s s2).
  { apply (frame_trans g s s1).
    - apply frame_set_queue. intros Hq'. apply Hne.
      eapply wf_queue_inj; eauto.
    - change (frame g s1 (with_audio_queue (delete g' (audio_queue s1)) s1)).
      by apply frame_unregister. }
  destruct (playing s2 !! g'); [| exact F]. simpl.
  eapply frame_trans; [exact F | apply frame_playing].
Qed.

Lemma frame_leave_channel (g g' : Z) (ok : bool) (s : state) :
  wf s -> g' <> g -> frame g s (fst (leave_channel g' ok s)).
Proof.
  intros W Hne. unfold leave_channel.
  destruct (connected_client s g') as [c'|] eqn:Hc; [| apply frame_refl].
  destruct ok; [| apply frame_refl].
  apply connected_client_Some in Hc as [Hc _].
  pose proof (frame_disconnect g g' c' s W Hne Hc) as F1.
  pose proof (frame_clean_up_queue g g' _ (wf_disconnect g' c' s W) Hne) as F2.
  destruct (clean_up_queue g' (disconnect g' c' s)) as [s' []]; simpl in *.
  - eapply frame_trans; [exact F1 |].
    eapply frame_trans; [exact F2 | apply frame_bindings].
  - eapply frame_trans; eauto.
Qed.

Lemma frame_lose_connection (g g' : Z) (gone : bool) (s : state) :
  wf s -> g' <> g -> frame g s (lose_connection g' gone s).
Proof.
  intros W Hne. unfold lose_connection.
  destruct (voice_client s !! g') as [c'|] eqn:Hc'; [| apply frame_refl].
  set (s1 := with_clients
               (alter (fun vc => Client (vc_guild vc) (vc_channel vc) false
                                        (vc_playing vc)) c' (clients s)) s).
  assert (F : frame g s s1).
  { apply frame_clients. intros c Hc.
    rewrite list_lookup_alter_ne; [reflexivity |].
    intros ->. apply Hne. eapply wf_client_inj; eauto. }
  destruct gone; [| exact F].
  apply (frame_trans g s s1); [exact F |].
  change (frame g s1 (with_voice_client (delete g' (voice_client s1)) s1)).
  by apply frame_forget_client.
Qed.

Lemma frame_advance (g : Z) (d : Q) (s : state) : frame g s (advance d s).
Proof.
  unfold advance. destruct (Qle_bool 0 d); [apply frame_now | apply frame_refl].
Qed.

Lemma frame_play_audio (g : Z) (channel : VoiceChannel)
    (audio_data : list Byte.byte) (username : Py.str) (ok : bool) (s : state) :
  wf s -> ch_guild channel <> g ->
  frame g s (fst (play_audio channel audio_data username ok s)).
Proof.
  intros W Hne. unfold play_audio.
  set (g' := ch_guild channel) in *.
  assert (Hc : forall s1 c,
             match connected_client s g' with
             | Some c => Some (s, c)
             | None => if ok then Some (connect channel s) else None
             end = Some (s1, c) -> wf s1 /\ frame g s s1).
  { intros s1 c. destruct (connected_client s g').
    - intros [= <- <-]. split; [exact W | apply frame_refl].
    - destruct ok; [| discriminate].
      pose proof (wf_connect channel s W) as W0.
      pose proof (frame_connect g channel s W Hne) as F0.
      destruct (connect channel s). intros [= <- <-]. auto. }
  destruct (match connected_client s g' with
            | Some c => Some (s, c)
            | None => if ok then Some (connect channel s) else None
            end) as [[s1 c]|]; [| apply frame_refl].
  destruct (Hc s1 c eq_refl) as [W1 F1].
  assert (Hq : forall s2, wf s2 -> frame g s s2 ->
    frame g s
      (fst (let s3 := match audio_queue s2 !! g' with
                      | Some _ => s2
                      | None => create_task g' (new_queue g' s2)
                      end in
            let audio_item := Item audio_data username in
            match audio_queue s3 !! g' with
            | Some q =>
                (with_enqueued (enqueued s3 ++ [(g', audio_item)])
                   (put q audio_item s3), true)
            | None => (s3, false)
            end))).
  { intros s2 W2 F2. cbv zeta.
    set (s3 := match audio_queue s2 !! g' with
               | Some _ => s2
               | None => create_task g' (new_queue g' s2)
               end).
    assert (W3 : wf s3 /\ frame g s s3).
    { subst s3. destruct (audio_queue s2 !! g'); [auto |].
      split; [by apply wf_create_task, wf_new_queue |].
      eapply frame_trans; [exact F2 |].
      eapply frame_trans; [by apply frame_new_queue |].
      by apply frame_create_task. }
    destruct W3 as [W3 F3].
    destruct (audio_queue s3 !! g') as [q|] eqn:Hq; [| exact F3].
    simpl. eapply frame_trans; [exact F3 |].
    eapply frame_trans.
    - apply (frame_put g q). intros Hq'. apply Hne.
      eapply (wf_queue_inj s3); eauto.
    - by apply (frame_enqueued g g' _ (put q _ s3)). }
  destruct (decide _) as [Hch|Hch]; [by apply Hq |].
  destruct ok; [| exact F1].
  apply Hq; [by apply wf_move_to |].
  eapply frame_trans; [exact F1 | apply frame_move_to].
Qed.

(** ** What a resumed worker changes *)

Lemma touches_refl (g' : Z) (P : nat -> Prop) (s : state) : touches g' P s s.
Proof. split; eauto. Qed.

Lemma touches_trans (g' : Z) (P : nat -> Prop) (s1 s2 s3 : state) :
  touches g' P s1 s2 -> touches g' P s2 s3 -> touches g' P s1 s3.
Proof.
  intros [A1 A2 A3 A4 A5 A6 A7 A8] [B1 B2 B3 B4 B5 B6 B7 B8]. split.
  - congruence.
  - congruence.
  - intros c. by rewrite B3, A3.
  - congruence.
  - congruence.
  - intros j t Hj. destruct (A6 j t Hj) as (t2 & H2 & G2 & P2).
    destruct (B6 j t2 H2) as (t3 & H3 & G3 & P3).
    exists t3. split; [exact H3 |]. split; congruence.
  - intros q Hq. by rewrite B7, A7.
  - intros g Hg. by rewrite B8, A8.
Qed.

Lemma touches_set_queue (g' : Z) (P : nat -> Prop) (q : nat)
    (items : list audio_item) (s : state) :
  P q -> touches g' P s (set_queue q items s).
Proof.
  intros HP. unfold set_queue. split; fields; eauto.
  intros q' Hq'. apply list_lookup_insert_ne. intros ->. contradiction.
Qed.

Lemma touches_played (g' : Z) (P : nat -> Prop) (item : audio_item)
    (s : state) :
  touches g' P s (with_played (played s ++ [(g', item)]) s).
Proof.
  split; fields; eauto. intros g Hg. by apply of_guild_snoc_other.
Qed.

Lemma touches_start_player (g' : Z) (P : nat -> Prop) (c : nat) (s : state) :
  touches g' P s (start_player c s).
Proof.
  unfold start_player. split; fields; eauto.
  intros c'. by apply alter_keeps_connected.
Qed.

Lemma touches_stop_player (g' : Z) (P : nat -> Prop) (c : nat) (s : state) :
  touches g' P s (stop_player c s).
Proof.
  unfold stop_player. split; fields; eauto.
  - intros c'. by apply alter_keeps_connected.
  - by rewrite length_fmap.
  - intros j t Hj. rewrite list_lookup_fmap, Hj. simpl.
    eexists. split; [reflexivity |].
    split; [apply mark_done_guild | apply pc_view_mark_done].
Qed.

Lemma touches_hand_over (g' : Z) (P : nat -> Prop) (env : worker_env)
    (c : nat) (item : audio_item) (s : state) :
  touches g' P s (fst (hand_over env g' c item s)).
Proof.
  unfold hand_over, _play_audio_data. cbv zeta.
  set (s1 := with_played _ s).
  apply (touches_trans g' P s s1); [apply touches_played |].
  destruct (is_empty (data item)); [apply touches_refl |].
  destruct (negb (media_ok env)); [apply touches_refl |].
  destruct (clients s1 !! c) as [vc|]; [| apply touches_refl].
  destruct (vc_connected vc && negb (vc_playing vc)); [| apply touches_refl].
  apply touches_start_player.
Qed.

Lemma touches_wait_free (g' : Z) (P : nat -> Prop) (env : worker_env)
    (c : nat) (item : audio_item) (s : state) :
  touches g' P s (fst (wait_free env g' c item s)).
Proof.
  unfold wait_free.
  destruct (client_playing s c); [apply touches_refl | apply touches_hand_over].
Qed.

Lemma touches_put_back (g' : Z) (P : nat -> Prop) (item : audio_item)
    (s : state) :
  (forall q, audio_queue s !! g' = Some q -> P q) ->
  touches g' P s (fst (put_back g' item s)).
Proof.
  intros HP. unfold put_back.
  destruct (audio_queue s !! g') as [q|]; [| apply touches_refl].
  apply touches_set_queue. by apply HP.
Qed.

Lemma touches_after_get (g' : Z) (P : nat -> Prop) (env : worker_env)
    (item : audio_item) (s : state) :
  (forall q, audio_queue s !! g' = Some q -> P q) ->
  touches g' P s (fst (after_get env g' item s)).
Proof.
  intros HP. unfold after_get.
  destruct (negb (guild_known env)); [apply touches_refl |].
  destruct (connected_client s g');
    [apply touches_wait_free | by apply touches_put_back].
Qed.

Lemma touches_resume (env : worker_env) (g' : Z) (p : pc) (s s' : state)
    (p' : pc) :
  _process_audio_queue env g' p s = Some (s', p') ->
  touches g' (fun q => (exists deadline, p = WaitGet q deadline) \/
                       audio_queue s !! g' = Some q) s s'.
Proof.
  unfold _process_audio_queue. destruct p as [|q deadline|wake|wake|c item wake
                                |c item done deadline|wake|].
  - intros [= <- <-]. apply touches_refl.
  - destruct (queue_of s q) as [|item rest].
    + destruct (due deadline s); [| discriminate]. intros [= <- <-].
      apply touches_refl.
    + set (P := fun q0 => (exists d, WaitGet q deadline = WaitGet q0 d) \/
                          audio_queue s !! g' = Some q0).
      pose proof (touches_after_get g' P env item (set_queue q rest s)) as T.
      destruct (after_get env g' item (set_queue q rest s)) as [s1 p1].
      intros [= <- <-]. simpl in T.
      apply (touches_trans g' P s (set_queue q rest s)).
      * apply touches_set_queue. left. by exists deadline.
      * apply T. intros q0 Hq0. by right.
  - destruct (due wake s); [| discriminate]. intros [= <- <-].
    apply touches_refl.
  - destruct (due wake s); [| discriminate]. intros [= <- <-].
    apply touches_refl.
  - destruct (due wake s); [| discriminate].
    match goal with
    | |- _ -> touches _ ?P _ _ =>
        pose proof (touches_wait_free g' P env c item s) as T
    end.
    destruct (wait_free env g' c item s). intros [= <- <-]. exact T.
  - destruct done.
    + intros [= <- <-]. apply touches_refl.
    + destruct (due deadline s); [| discriminate]. intros [= <- <-].
      apply touches_stop_player.
  - destruct (due wake s); [| discriminate]. intros [= <- <-].
    apply touches_refl.
  - discriminate.
Qed.

Lemma frame_of_touches (g g' : Z) (P : nat -> Prop) (s s' : state) :
  touches g' P s s' -> g' <> g ->
  (forall q, audio_queue s !! g = Some q -> ~ P q) ->
  frame g s s'.
Proof.
  intros [T1 T2 T3 T4 T5 T6 T7 T8] Hne HP. split.
  - by rewrite T1.
  - intros c _. apply T3.
  - by rewrite T2.
  - intros q Hq. apply T7. by apply HP.
  - intros j t Hj. destruct (T6 j t Hj) as (t' & Hj' & Hg & Hpc).
    exists t'. auto.
  - intros j t' Hj' Hj.
    apply lookup_lt_Some in Hj'. apply lookup_ge_None in Hj. lia.
  - by rewrite T4.
  - apply T8. auto.
Qed.

(** ** The order of the items when the worker of the guild runs *)

Lemma held_loop_head (g : Z) (s : state) : held (loop_head g s) = [].
Proof. unfold loop_head. by destruct (audio_queue s !! g). Qed.

Lemma room_queue_ext (g : Z) (s s' : state) :
  audio_queue s' = audio_queue s -> queues s' = queues s ->
  room_queue g s' = room_queue g s.
Proof. unfold room_queue, queue_of. by intros -> ->. Qed.

Lemma hand_over_order (env : worker_env) (g : Z) (c : nat) (item : audio_item)
    (s : state) :
  of_guild g (played (fst (hand_over env g c item s)))
    ++ held (snd (hand_over env g c item s))
    ++ room_queue g (fst (hand_over env g c item s))
  = of_guild g (played s) ++ [item] ++ room_queue g s.
Proof.
  unfold hand_over, _play_audio_data. cbv zeta.
  set (s1 := with_played (played s ++ [(g, item)]) s).
  assert (H1 : of_guild g (played s1) ++ room_queue g s1
               = of_guild g (played s) ++ [item] ++ room_queue g s).
  { subst s1. fields. rewrite of_guild_snoc.
    destruct (decide (g = g)); [| done]. by rewrite <- app_assoc. }
  destruct (is_empty (data item));
    [simpl; by rewrite held_loop_head |].
  destruct (negb (media_ok env));
    [simpl; by rewrite held_loop_head |].
  destruct (clients s1 !! c) as [vc|];
    [| simpl; by rewrite held_loop_head].
  destruct (vc_connected vc && negb (vc_playing vc));
    [| simpl; by rewrite held_loop_head].
  simpl. exact H1.
Qed.

Lemma wait_free_order (env : worker_env) (g : Z) (c : nat) (item : audio_item)
    (s : state) :
  of_guild g (played (fst (wait_free env g c item s)))
    ++ held (snd (wait_free env g c item s))
    ++ room_queue g (fst (wait_free env g c item s))
  = of_guild g (played s) ++ [item] ++ room_queue g s.
Proof.
  unfold wait_free.
  destruct (client_playing s c); [reflexivity | apply hand_over_order].
Qed.

Lemma resume_order (env : worker_env) (g : Z) (p : pc) (s s' : state) (p' : pc) :
  _process_audio_queue env g p s = Some (s', p') ->
  wf s -> guild_known env = true -> is_Some (connected_client s g) ->
  (forall q deadline, p = WaitGet q deadline -> audio_queue s !! g = Some q) ->
  of_guild g (played s') ++ held p' ++ room_queue g s'
  = of_guild g (played s) ++ held p ++ room_queue g s.
Proof.
  intros Hr W Hknown [c Hc] Hwaits. revert Hr. unfold _process_audio_queue.
  destruct p as [|q deadline|wake|wake|c0 item wake
                 |c0 item done deadline|wake|].
  - intros [= <- <-]. by rewrite held_loop_head.
  - pose proof (Hwaits q deadline eq_refl) as Hq.
    assert (Hlt : (q < length (queues s))%nat) by (by eapply wf_queue_ref).
    destruct (queue_of s q) as [|item rest] eqn:Hitems.
    + destruct (due deadline s); [| discriminate]. intros [= <- <-].
      unfold on_timeout. destruct (registered_and_empty g s); [reflexivity |].
      by rewrite held_loop_head.
    + unfold after_get. rewrite Hknown. simpl.
      rewrite (connected_client_ext s (set_queue q rest s) g) by reflexivity.
      rewrite Hc.
      pose proof (wait_free_order env g c item (set_queue q rest s)) as O.
      destruct (wait_free env g c item (set_queue q rest s)) as [s1 p1].
      intros [= <- <-]. simpl in O. rewrite O. simpl. do 2 f_equal.
      unfold room_queue.
      change (audio_queue (set_queue q rest s)) with (audio_queue s).
      rewrite Hq, Hitems. f_equal. by apply queue_of_set_queue.
  - destruct (due wake s); [| discriminate]. intros [= <- <-].
    unfold after_grace. destruct (registered_and_empty g s); [reflexivity |].
    by rewrite held_loop_head.
  - destruct (due wake s); [| discriminate]. intros [= <- <-].
    by rewrite held_loop_head.
  - destruct (due wake s); [| discriminate].
    pose proof (wait_free_order env g c0 item s) as O.
    destruct (wait_free env g c0 item s). intros [= <- <-]. exact O.
  - destruct done.
    + intros [= <- <-]. by rewrite held_loop_head.
    + destruct (due deadline s); [| discriminate]. intros [= <- <-].
      rewrite held_loop_head. reflexivity.
  - destruct (due wake s); [| discriminate]. intros [= <- <-].
    by rewrite held_loop_head.
  - discriminate.
Qed.

(** ** The invariant of a guild under the events *)

Lemma fifo_play_audio_own (g : Z) (i : nat) (channel : VoiceChannel)
    (audio_data : list Byte.byte) (username : Py.str) (ok : bool) (s : state) :
  fifo g i s -> ch_guild channel = g ->
  fifo g i (fst (play_audio channel audio_data username ok s)).
Proof.
  intros F <-. set (g := ch_guild channel) in *.
  assert (Hq : forall s2, fifo g i s2 ->
    fifo g i
      (fst (let s3 := match audio_queue s2 !! g with
                      | Some _ => s2
                      | None => create_task g (new_queue g s2)
                      end in
            let audio_item := Item audio_data username in
            match audio_queue s3 !! g with
            | Some q =>
                (with_enqueued (enqueued s3 ++ [(g, audio_item)])
                   (put q audio_item s3), true)
            | None => (s3, false)
            end))).
  { intros s2 [W2 Hc2 [q Hq] Hw2 Hs2 Hwt2 Ho2]. cbv zeta.
    rewrite Hq. cbv beta iota. rewrite Hq. cbn [fst].
    assert (Hlt : (q < length (queues s2))%nat) by (by eapply wf_queue_ref).
    split.
    - by apply wf_enqueued, wf_put.
    - by rewrite (connected_client_ext s2).
    - exists q. exact Hq.
    - exact Hw2.
    - exact Hs2.
    - exact Hwt2.
    - fields. rewrite of_guild_snoc, Ho2.
      destruct (decide (g = g)); [| done].
      rewrite <- !app_assoc. do 2 f_equal.
      unfold room_queue, put, set_queue, queue_of. fields. rewrite Hq.
      by rewrite list_lookup_insert_eq. }
  pose proof F as [W [c Hc] _ _ _ _ _].
  unfold play_audio. fold g. rewrite Hc.
  destruct (decide _); [by apply Hq |].
  destruct ok; [| exact F].
  apply Hq. apply (fifo_frame g i s);
    [exact F | apply frame_move_to | by apply wf_move_to].
Qed.

Lemma fifo_resume_task (g : Z) (i j : nat) (env : worker_env) (s : state) :
  fifo g i s -> guild_known env = true -> fifo g i (resume_task j env s).
Proof.
  intros F Hknown.
  pose proof F as [W Hcon [q Hq] (t & Hi & Hg) Hsingle Hwaits Horder].
  pose proof (wf_resume_task j env s W) as W''.
  unfold resume_task in *.
  destruct (tasks s !! j) as [tj|] eqn:Hj; [| exact F].
  destruct (_process_audio_queue env (t_guild tj) (t_pc tj) s)
    as [[s' p']|] eqn:Hr; [| exact F].
  pose proof (sound_resume _ _ _ _ _ _ Hr) as (_ & R & T).
  pose proof (touches_resume _ _ _ _ _ _ Hr) as To.
  destruct (decide (t_guild tj = g)) as [Hgj|Hgj].
  - destruct (decide (j = i)) as [->|Hji].
    + (* the worker of the guild *)
      assert (tj = t) by congruence. subst tj. rewrite Hg in *.
      pose proof (resume_order env g (t_pc t) s s' p' Hr W Hknown Hcon
                    (fun q0 d E => Hwaits t q0 d Hi E)) as O.
      destruct To as [T1 T2 T3 T4 T5 T6 T7 T8].
      assert (Hil : (i < length (tasks s'))%nat)
        by (rewrite T5; by eapply lookup_lt_Some).
      split.
      * exact W''.
      * erewrite (connected_client_frame s); [exact Hcon | |].
        -- fields. by rewrite T1.
        -- intros c _. fields. apply T3.
      * fields. rewrite T2. eauto.
      * fields. rewrite list_lookup_insert_eq by done. eauto.
      * fields. intros j tj' Hj' Hgj' Hne.
        rewrite list_lookup_insert_ne in Hj' by done.
        assert (Hjl : (j < length (tasks s))%nat)
          by (rewrite <- T5; by eapply lookup_lt_Some).
        apply lookup_lt_is_Some in Hjl as [tj0 Hj0].
        destruct (T6 j tj0 Hj0) as (tj'' & Hj'' & Hg'' & Hpc'').
        assert (tj'' = tj') by congruence. subst tj''.
        eapply pc_view_stopped; [exact Hpc'' |].
        eapply Hsingle; eauto. congruence.
      * fields. intros t0 q0 deadline Ht0 Hpc0.
        rewrite list_lookup_insert_eq in Ht0 by done.
        simplify_eq. simpl in *. by eapply R.
      * fields. rewrite T4, Horder.
        unfold in_hand. fields. rewrite Hi.
        rewrite list_lookup_insert_eq by done. simpl.
        rewrite <- O. reflexivity.
    + (* another task of the guild: it has returned *)
      rewrite (Hsingle j tj Hj Hgj Hji) in Hr. discriminate.
  - (* a task of another guild *)
    apply (fifo_frame g i s); [exact F | | exact W''].
    apply (frame_trans g s s').
    + eapply frame_of_touches; [exact To | exact Hgj |].
      intros q0 Hq0 [[deadline Hp] | Hreg].
      * destruct (wf_waiting s W j tj q0 deadline Hj Hp) as [_ Hown].
        apply Hgj. symmetry. by apply Hown.
      * apply Hgj. exact (wf_queue_inj s W (t_guild tj) g q0 Hreg Hq0).
    + destruct (T j tj Hj) as (tj' & Hj' & Hgj'). rewrite <- Hgj'.
      apply frame_set_pc; [exact Hj' | congruence].
Qed.

Lemma fifo_step (g : Z) (i : nat) (s : state) (e : event) :
  fifo g i s -> undisturbed g e -> fifo g i (step s e).
Proof.
  intros F U. pose proof (fifo_wf g i s F) as W.
  destruct e as [channel ok|g' ok|channel audio_data username ok|j env|d
                 |g' gone|c]; simpl in *.
  - apply (fifo_frame g i s); [exact F | | by apply wf_join_channel].
    apply frame_join_channel; [exact W |].
    intros _. apply (fifo_connected g i s F).
  - apply (fifo_frame g i s); [exact F | | by apply wf_leave_channel].
    by apply frame_leave_channel.
  - destruct (decide (ch_guild channel = g)) as [Hg|Hg].
    + by apply fifo_play_audio_own.
    + apply (fifo_frame g i s); [exact F | | by apply wf_play_audio].
      by apply frame_play_audio.
  - by apply fifo_resume_task.
  - apply (fifo_frame g i s); [exact F | | by apply wf_advance].
    apply frame_advance.
  - apply (fifo_frame g i s); [exact F | | by apply wf_lose_connection].
    by apply frame_lose_connection.
  - apply (fifo_frame g i s); [exact F | | by apply wf_stop_player].
    apply frame_stop_player.
Qed.

Lemma fifo_run (g : Z) (i : nat) (events : list event) (s : state) :
  fifo g i s -> Forall (undisturbed g) events -> fifo g i (run events s).
Proof.
  revert s. induction events as [|e events IH]; intros s F U; [exact F |].
  inversion U as [|? ? Ue Uevents]; subst.
  apply IH; [by apply fifo_step | exact Uevents].
Qed.

(** The state after the first join of a guild satisfies the invariant, with
    the task that the join created as the worker. *)
Lemma first_join (channel : VoiceChannel) :
  fst (join_channel channel true init)
  = State 0 [Client (ch_guild channel) (ch_id channel) true false]
          {[ch_guild channel := 0%nat]} [[]] {[ch_guild channel := 0%nat]}
          {[ch_guild channel := false]} ∅ [Task (ch_guild channel) Ready]
          [] [].
Proof.
  unfold join_channel, connected_client, init. fields.
  rewrite lookup_empty. unfold connect. fields. rewrite lookup_empty.
  unfold new_queue. fields. rewrite lookup_insert_eq.
  reflexivity.
Qed.

Lemma fifo_after_first_join (channel : VoiceChannel) :
  fifo (ch_guild channel) 0 (fst (join_channel channel true init)).
Proof.
  split.
  - apply wf_join_channel, wf_init.
  - rewrite first_join. exists 0%nat. unfold connected_client. fields.
    by rewrite lookup_singleton_eq.
  - rewrite first_join. exists 0%nat. fields. by rewrite lookup_singleton_eq.
  - rewrite first_join. eexists. fields. split; reflexivity.
  - rewrite first_join. fields. intros [|j] t; [done |]. discriminate.
  - rewrite first_join. fields. intros t q deadline [= <-]. discriminate.
  - rewrite first_join. unfold room_queue, in_hand, queue_of. fields.
    by rewrite lookup_singleton_eq.
Qed.

(** C2, amended.  Let guild [g] be connected with a registered queue and
    task [i] as its only live worker, and let what was enqueued for [g] be
    what was played, then what the worker holds, then what waits in the
    queue.  After any events among which there is no leave and no loss of
    connection for [g], and in which the bot knows the guild whenever a
    worker runs, the same holds: the calls of [_play_audio_data] for [g]
    are, in order, an initial part of the items enqueued for [g], and the
    rest is held or waits in that order. *)
Theorem played_in_submission_order (g : Z) (i : nat) (events : list event)
    (s : state) :
  fifo g i s -> Forall (undisturbed g) events ->
  fifo g i (run events s) /\
  of_guild g (enqueued (run events s))
  = of_guild g (played (run events s))
    ++ in_hand i (run events s) ++ room_queue g (run events s).
Proof.
  intros F U. pose proof (fifo_run g i events s F U) as F'.
  split; [exact F' | apply (fifo_order g i _ F')].
Qed.

Lemma played_in_submission_order_witness :
  let s := fst (join_channel Scenario.room true init) in
  let events := [EResume 0 Scenario.normal;
                 Scenario.enqueue Scenario.J1; Scenario.enqueue Scenario.J2;
                 EResume 0 Scenario.normal; Scenario.enqueue Scenario.J3;
                 EJoin Scenario.other_room true;
                 EPlayerDone 0; EResume 0 Scenario.normal;
                 EResume 0 Scenario.normal;
                 ETime 60; EResume 0 Scenario.normal;
                 EResume 0 Scenario.normal] in
  fifo Scenario.guild 0 s /\
  Forall (undisturbed Scenario.guild) events /\
  of_guild Scenario.guild (enqueued (run events s))
    = [Scenario.J1; Scenario.J2; Scenario.J3] /\
  of_guild Scenario.guild (played (run events s))
    = [Scenario.J1; Scenario.J2; Scenario.J3] /\
  in_hand 0 (run events s) ++ room_queue Scenario.guild (run events s) = [].
Proof.
  intros s events.
  assert (F : fifo Scenario.guild 0 s)
    by apply (fifo_after_first_join Scenario.room).
  assert (U : Forall (undisturbed Scenario.guild) events)
    by (repeat constructor).
  destruct (played_in_submission_order Scenario.guild 0 events s F U)
    as [_ O].
  assert (P : of_guild Scenario.guild (played (run events s))
              = [Scenario.J1; Scenario.J2; Scenario.J3])
    by (vm_compute; reflexivity).
  assert (E : of_guild Scenario.guild (enqueued (run events s))
              = [Scenario.J1; Scenario.J2; Scenario.J3])
    by (vm_compute; reflexivity).
  split; [exact F |]. split; [exact U |]. split; [exact E |].
  split; [exact P |].
  rewrite E, P in O.
  rewrite <- (app_nil_r [Scenario.J1; Scenario.J2; Scenario.J3]) in O at 1.
  by apply app_inv_head in O.
Defined.

(** [play_audio] starts a worker only together with a new queue: for a
    guild whose queue is registered the tasks stay as they are, whether the
    worker of the guild has returned or not. *)
Lemma play_audio_starts_no_worker (channel : VoiceChannel)
    (audio_data : list Byte.byte) (username : Py.str) (ok : bool) (s : state) :
  is_Some (audio_queue s !! ch_guild channel) ->
  tasks (fst (play_audio channel audio_data username ok s)) = tasks s.
Proof.
  intros [q Hq]. unfold play_audio. set (g := ch_guild channel) in *.
  assert (Hc : forall s1 c,
             match connected_client s g with
             | Some c => Some (s, c)
             | None => if ok then Some (connect channel s) else None
             end = Some (s1, c) ->
             tasks s1 = tasks s /\ audio_queue s1 = audio_queue s).
  { intros s1 c. destruct (connected_client s g).
    - intros [= <- <-]. auto.
    - destruct ok; [| discriminate]. unfold connect. intros [= <- <-]. auto. }
  destruct (match connected_client s g with
            | Some c => Some (s, c)
            | None => if ok then Some (connect channel s) else None
            end) as [[s1 c]|]; [| reflexivity].
  destruct (Hc s1 c eq_refl) as [Ht Ha].
  assert (Hgo : forall s2, tasks s2 = tasks s -> audio_queue s2 = audio_queue s ->
    tasks (fst (let s3 := match audio_queue s2 !! g with
                          | Some _ => s2
                          | None => create_task g (new_queue g s2)
                          end in
                let audio_item := Item audio_data username in
                match audio_queue s3 !! g with
                | Some q =>
                    (with_enqueued (enqueued s3 ++ [(g, audio_item)])
                       (put q audio_item s3), true)
                | None => (s3, false)
                end)) = tasks s).
  { intros s2 Ht2 Ha2. cbv zeta. rewrite Ha2, Hq. cbv beta iota.
    rewrite Ha2, Hq. exact Ht2. }
  destruct (decide _); [by apply Hgo |].
  destruct ok; [| exact Ht].
  by apply Hgo.
Qed.

(** C6 at a state: the guild is connected to one channel and joins
    another one. *)
Lemma join_channel_idempotent_witness :
  let s := fst (join_channel Scenario.room true init) in
  connected_client s 1 = Some 0%nat /\
  channel_of s 0 <> Some 11 /\
  snd (join_channel Scenario.other_room true s) = Some 0%nat /\
  tasks (fst (join_channel Scenario.other_room true s)) = tasks s.
Proof.
  intros s.
  assert (Hc : connected_client s 1 = Some 0%nat) by (vm_compute; reflexivity).
  assert (Hch : channel_of s 0 <> Some 11) by (vm_compute; discriminate).
  destruct (join_channel_idempotent Scenario.other_room s) as (_ & _ & H & _).
  destruct (H 0%nat Hc Hch) as (H1 & _ & _ & _ & _ & _ & _ & _ & H2).
  split; [exact Hc |]. split; [exact Hch |]. split; [exact H1 | exact H2].
Defined.

(** * More of voice_manager.py *)

Import VoiceQueries.

(** ** What holds in every state that the events can lead to *)

(** X1.  In every state reached from the initial one, a [leave_channel]
    whose disconnect succeeds returns: [del self.playing[guild.id]] finds
    its key whenever [self.audio_queue] has it. *)
Theorem leave_channel_finds_its_keys (events : list event) (g : Z) :
  snd (leave_channel g true (run events init)) = Returns.
Proof.
  pose proof (wf_run events init wf_init) as W.
  set (s := run events init) in *.
  unfold leave_channel.
  destruct (connected_client s g) as [c|]; [| reflexivity].
  unfold clean_up_queue.
  change (audio_queue (disconnect g c s)) with (audio_queue s).
  destruct (audio_queue s !! g) as [q|] eqn:Hq; [| reflexivity].
  destruct (wf_playing s W g) as [b Hb]; [eauto |].
  change (playing (with_audio_queue (delete g (audio_queue s))
                     (set_queue q [] (disconnect g c s))))
    with (playing s).
  by rewrite Hb.
Qed.

(** X2.  In every state reached from the initial one, two guilds never
    share a queue object or a voice client object, and the queue and the
    client of a guild exist in the stores. *)
Theorem guilds_share_nothing (events : list event) (g1 g2 : Z) :
  let s := run events init in
  (forall q, audio_queue s !! g1 = Some q -> audio_queue s !! g2 = Some q ->
             g1 = g2) /\
  (forall c, voice_client s !! g1 = Some c -> voice_client s !! g2 = Some c ->
             g1 = g2) /\
  (forall q, audio_queue s !! g1 = Some q -> is_Some (queues s !! q)) /\
  (forall c, voice_client s !! g1 = Some c -> is_Some (clients s !! c)).
Proof.
  intros s. pose proof (wf_run events init wf_init) as W. fold s in W.
  split; [| split; [| split]].
  - intros q. apply (wf_queue_inj s W).
  - intros c. apply (wf_client_inj s W).
  - intros q H. apply lookup_lt_is_Some. by eapply wf_queue_ref.
  - intros c H. apply lookup_lt_is_Some. by eapply wf_client_ref.
Qed.

Lemma guilds_share_nothing_witness :
  let s := run [EJoin Scenario.room true; EJoin (Channel 20 2) true] init in
  audio_queue s !! 1 = Some 0%nat /\ audio_queue s !! 2 = Some 1%nat /\
  is_Some (queues s !! 0%nat).
Proof.
  intros s.
  assert (H1 : audio_queue s !! 1 = Some 0%nat) by (vm_compute; reflexivity).
  split; [exact H1 |]. split; [vm_compute; reflexivity |].
  destruct (guilds_share_nothing
              [EJoin Scenario.room true; EJoin (Channel 20 2) true] 1 2)
    as (_ & _ & H & _).
  exact (H 0%nat H1).
Defined.

(** ** No two playbacks at a time on one client *)

Lemma client_playing_alter (f : VoiceClient -> VoiceClient) (c c' : nat)
    (s : state) :
  (forall vc, vc_playing (f vc) = vc_playing vc) ->
  client_playing (with_clients (alter f c' (clients s)) s) c
  = client_playing s c.
Proof.
  intros Hf. unfold client_playing. fields.
  destruct (decide (c' = c)) as [->|Hne].
  - rewrite list_lookup_alter_eq. destruct (clients s !! c); simpl; auto.
  - by rewrite list_lookup_alter_ne.
Qed.

(** The tasks are the same and no playing client has stopped playing. *)
Lemma exclusive_same (s s' : state) :
  tasks s' = tasks s ->
  (forall c, client_playing s c = true -> client_playing s' c = true) ->
  exclusive s -> exclusive s'.
Proof.
  intros Ht Hp [E1 E2]. split.
  - intros j t c item deadline Hj Hpc. rewrite Ht in Hj. eauto.
  - intros j1 j2 t1 t2 c item1 item2 d1 d2 H1 P1 H2 P2.
    rewrite Ht in H1, H2. eauto.
Qed.

Lemma exclusive_init : exclusive init.
Proof. split; intros; by destruct j || by destruct j1. Qed.

Lemma exclusive_connect (channel : VoiceChannel) (s : state) :
  exclusive s -> exclusive (fst (connect channel s)).
Proof.
  apply exclusive_same; [reflexivity |].
  intros c. unfold connect, client_playing. fields.
  destruct (clients s !! c) as [vc|] eqn:E; [| discriminate].
  rewrite lookup_app_l by (by eapply lookup_lt_Some). by rewrite E.
Qed.

Lemma exclusive_move_to (c : nat) (channel : VoiceChannel) (s : state) :
  exclusive s -> exclusive (move_to c channel s).
Proof.
  apply exclusive_same; [reflexivity |]. intros c'. unfold move_to.
  by rewrite client_playing_alter.
Qed.

Lemma exclusive_create_task (g : Z) (s : state) :
  exclusive s -> exclusive (create_task g s).
Proof.
  intros [E1 E2].
  assert (Hold : forall j t c item deadline,
             tasks (create_task g s) !! j = Some t ->
             t_pc t = InPlayback c item false deadline ->
             tasks s !! j = Some t).
  { unfold create_task. fields. intros j t c item deadline Hj Hpc.
    apply lookup_app_Some in Hj as [Hj | [_ Hj]]; [exact Hj |].
    apply list_lookup_singleton_Some in Hj as [_ <-]. discriminate. }
  split.
  - intros j t c item deadline Hj Hpc.
    change (client_playing (create_task g s) c) with (client_playing s c).
    eauto.
  - intros j1 j2 t1 t2 c item1 item2 d1 d2 H1 P1 H2 P2. eauto.
Qed.

Lemma mark_done_awaits (c : nat) (t : task) (c' : nat) (item : audio_item)
    (deadline : Q) :
  t_pc (mark_done c t) = InPlayback c' item false deadline ->
  t_pc t = InPlayback c' item false deadline /\ c' <> c.
Proof.
  unfold mark_done. destruct (t_pc t) as [| | | | |c0 item0 done0 d0| |] eqn:E;
    simpl; rewrite ?E; try discriminate.
  destruct (Nat.eqb_spec c0 c) as [->|Hne]; simpl.
  - discriminate.
  - rewrite E. intros [= -> -> -> ->]. auto.
Qed.

Lemma exclusive_stop_player (c : nat) (s : state) :
  exclusive s -> exclusive (stop_player c s).
Proof.
  intros [E1 E2].
  assert (Hold : forall j t c' item deadline,
             tasks (stop_player c s) !! j = Some t ->
             t_pc t = InPlayback c' item false deadline ->
             c' <> c /\
             exists t0, tasks s !! j = Some t0 /\
                        t_pc t0 = InPlayback c' item false deadline).
  { unfold stop_player. fields. intros j t c' item deadline Hj Hpc.
    rewrite list_lookup_fmap in Hj.
    destruct (tasks s !! j) as [t0|]; [| discriminate]. simpl in Hj.
    simplify_eq. apply mark_done_awaits in Hpc as [Hpc Hne]. eauto. }
  split.
  - intros j t c' item deadline Hj Hpc.
    destruct (Hold _ _ _ _ _ Hj Hpc) as (Hne & t0 & Hj0 & Hpc0).
    unfold stop_player, client_playing. fields.
    rewrite list_lookup_alter_ne by done.
    exact (E1 _ _ _ _ _ Hj0 Hpc0).
  - intros j1 j2 t1 t2 c' item1 item2 d1 d2 H1 P1 H2 P2.
    destruct (Hold _ _ _ _ _ H1 P1) as (_ & t01 & H01 & P01).
    destruct (Hold _ _ _ _ _ H2 P2) as (_ & t02 & H02 & P02).
    eauto.
Qed.

(** A task gets a pc at which it does not await a playback. *)
Lemma exclusive_set_pc (i : nat) (g : Z) (p : pc) (s : state) :
  awaits_playback p = false ->
  exclusive s -> exclusive (with_tasks (<[i := Task g p]> (tasks s)) s).
Proof.
  intros Hp [E1 E2].
  assert (Hold : forall j t c item deadline,
             <[i := Task g p]> (tasks s) !! j = Some t ->
             t_pc t = InPlayback c item false deadline ->
             tasks s !! j = Some t).
  { intros j t c item deadline Hj Hpc.
    destruct (decide (i = j)) as [<-|Hne].
    - apply list_lookup_insert_Some in Hj as [(_ & <- & _) | [? _]]; [| done].
      simpl in Hpc. rewrite Hpc in Hp. discriminate.
    - by rewrite list_lookup_insert_ne in Hj. }
  split; fields.
  - intros j t c item deadline Hj Hpc.
    change (client_playing (with_tasks (<[i := Task g p]> (tasks s)) s) c)
      with (client_playing s c).
    eauto.
  - intros j1 j2 t1 t2 c item1 item2 d1 d2 H1 P1 H2 P2. eauto.
Qed.

(** A task starts the player of a client that is not playing and awaits
    the end of the playback. *)
Lemma exclusive_start_player (i : nat) (g : Z) (c : nat) (vc : VoiceClient)
    (item : audio_item) (deadline : Q) (s : state) :
  clients s !! c = Some vc -> vc_playing vc = false ->
  exclusive s ->
  exclusive (with_tasks (<[i := Task g (InPlayback c item false deadline)]>
                           (tasks s)) (start_player c s)).
Proof.
  intros Hvc Hidle [E1 E2].
  assert (Hnone : forall j t item0 d0,
             tasks s !! j = Some t -> t_pc t <> InPlayback c item0 false d0).
  { intros j t item0 d0 Hj Hpc.
    pose proof (E1 _ _ _ _ _ Hj Hpc) as H. unfold client_playing in H.
    rewrite Hvc in H. congruence. }
  assert (Hcase : forall j t c' item' d',
             <[i := Task g (InPlayback c item false deadline)]> (tasks s) !! j
               = Some t ->
             t_pc t = InPlayback c' item' false d' ->
             (j = i /\ c' = c) \/
             (j <> i /\ c' <> c /\ tasks s !! j = Some t)).
  { intros j t c' item' d' Hj Hpc.
    destruct (decide (i = j)) as [<-|Hne].
    - apply list_lookup_insert_Some in Hj as [(_ & <- & _) | [? _]]; [| done].
      simpl in Hpc. left. split; [done | congruence].
    - rewrite list_lookup_insert_ne in Hj by done. right.
      split; [done |]. split; [| done].
      intros ->. by eapply Hnone. }
  split; fields.
  - intros j t c' item' d' Hj Hpc. unfold client_playing, start_player. fields.
    destruct (Hcase _ _ _ _ _ Hj Hpc) as [[-> ->] | (Hji & Hc & Hj0)].
    + by rewrite list_lookup_alter_eq, Hvc.
    + rewrite list_lookup_alter_ne by done. exact (E1 _ _ _ _ _ Hj0 Hpc).
  - intros j1 j2 t1 t2 c' item1 item2 d1 d2 H1 P1 H2 P2.
    destruct (Hcase _ _ _ _ _ H1 P1) as [[-> ->] | (Hj1 & Hc1 & H01)];
      destruct (Hcase _ _ _ _ _ H2 P2) as [[-> Hc2] | (Hj2 & Hc2 & H02)];
      try done.
    eauto.
Qed.

Lemma awaits_loop_head (g : Z) (s : state) :
  awaits_playback (loop_head g s) = false.
Proof. unfold loop_head. by destruct (audio_queue s !! g). Qed.

Lemma exclusive_hand_over (i : nat) (env : worker_env) (g : Z) (c : nat)
    (item : audio_item) (s : state) :
  exclusive s ->
  exclusive (with_tasks (<[i := Task g (snd (hand_over env g c item s))]>
                           (tasks (fst (hand_over env g c item s))))
               (fst (hand_over env g c item s))).
Proof.
  intros E. unfold hand_over, _play_audio_data. cbv zeta.
  set (s1 := with_played _ s).
  assert (E1 : exclusive s1)
    by (revert E; apply exclusive_same; [reflexivity | auto]).
  assert (Hidle : exclusive
                    (with_tasks (<[i := Task g (loop_head g s1)]> (tasks s1))
                       s1))
    by (apply exclusive_set_pc; [apply awaits_loop_head | exact E1]).
  destruct (is_empty (data item)); [exact Hidle |].
  destruct (negb (media_ok env)); [exact Hidle |].
  destruct (clients s1 !! c) as [vc|] eqn:Hvc; [| exact Hidle].
  destruct (vc_connected vc) eqn:Hcon, (vc_playing vc) eqn:Hpl;
    try exact Hidle.
  exact (exclusive_start_player i g c vc item _ s1 Hvc Hpl E1).
Qed.

Lemma exclusive_wait_free (i : nat) (env : worker_env) (g : Z) (c : nat)
    (item : audio_item) (s : state) :
  exclusive s ->
  exclusive (with_tasks (<[i := Task g (snd (wait_free env g c item s))]>
                           (tasks (fst (wait_free env g c item s))))
               (fst (wait_free env g c item s))).
Proof.
  intros E. unfold wait_free. destruct (client_playing s c).
  - exact (exclusive_set_pc i g (WaitFree c item (now s + (1 # 2))%Q) s
             eq_refl E).
  - by apply exclusive_hand_over.
Qed.

Lemma exclusive_after_get (i : nat) (env : worker_env) (g : Z)
    (item : audio_item) (s : state) :
  exclusive s ->
  exclusive (with_tasks (<[i := Task g (snd (after_get env g item s))]>
                           (tasks (fst (after_get env g item s))))
               (fst (after_get env g item s))).
Proof.
  intros E. unfold after_get.
  destruct (negb (guild_known env));
    [exact (exclusive_set_pc i g _ s (awaits_loop_head g s) E) |].
  destruct (connected_client s g); [by apply exclusive_wait_free |].
  unfold put_back. destruct (audio_queue s !! g) as [q|].
  - apply (exclusive_set_pc i g (Backoff (now s + 2)%Q) (put q item s));
      [reflexivity |].
    revert E. apply exclusive_same; [reflexivity | auto].
  - exact (exclusive_set_pc i g (ErrPause (now s + 1)%Q) s eq_refl E).
Qed.

Lemma exclusive_resume_task (i : nat) (env : worker_env) (s : state) :
  exclusive s -> exclusive (resume_task i env s).
Proof.
  intros E. unfold resume_task.
  destruct (tasks s !! i) as [t|] eqn:Hi; [| exact E].
  unfold _process_audio_queue.
  destruct (t_pc t) as [|q deadline|wake|wake|c item wake
                        |c item done deadline|wake|] eqn:Hpc.
  - apply exclusive_set_pc; [apply awaits_loop_head | exact E].
  - destruct (queue_of s q) as [|item rest].
    + destruct (due deadline s); [| exact E].
      apply exclusive_set_pc; [| exact E].
      unfold on_timeout. destruct (registered_and_empty (t_guild t) s);
        [reflexivity | apply awaits_loop_head].
    + pose proof (exclusive_after_get i env (t_guild t) item
                    (set_queue q rest s)) as H.
      destruct (after_get env (t_guild t) item (set_queue q rest s))
        as [s1 p1].
      apply H. revert E. apply exclusive_same; [reflexivity | auto].
  - destruct (due wake s); [| exact E].
    apply exclusive_set_pc; [| exact E].
    unfold after_grace. destruct (registered_and_empty (t_guild t) s);
      [reflexivity | apply awaits_loop_head].
  - destruct (due wake s); [| exact E].
    apply exclusive_set_pc; [apply awaits_loop_head | exact E].
  - destruct (due wake s); [| exact E].
    pose proof (exclusive_wait_free i env (t_guild t) c item s E) as H.
    by destruct (wait_free env (t_guild t) c item s).
  - destruct done.
    + apply exclusive_set_pc; [apply awaits_loop_head | exact E].
    + destruct (due deadline s); [| exact E].
      apply (exclusive_set_pc i (t_guild t) _ (stop_player c s));
        [apply awaits_loop_head | by apply exclusive_stop_player].
  - destruct (due wake s); [| exact E].
    apply exclusive_set_pc; [apply awaits_loop_head | exact E].
  - exact E.
Qed.

Lemma exclusive_join_channel (channel : VoiceChannel) (ok : bool) (s : state) :
  exclusive s -> exclusive (fst (join_channel channel ok s)).
Proof.
  intros E. unfold join_channel.
  destruct (connected_client s (ch_guild channel)) as [c|].
  - destruct (decide _); [exact E |].
    destruct ok; [by apply exclusive_move_to | exact E].
  - destruct ok; [| exact E].
    pose proof (exclusive_connect channel s E) as E0.
    destruct (connect channel s) as [s0 c0]. simpl in E0.
    set (s1 := match audio_queue s0 !! ch_guild channel with
               | Some _ => s0
               | None => new_queue (ch_guild channel) s0
               end).
    assert (E1 : exclusive s1).
    { subst s1. destruct (audio_queue s0 !! _); [exact E0 |].
      revert E0. apply exclusive_same; [reflexivity | auto]. }
    simpl. fold s1.
    destruct (playing s1 !! _) as [[]|]; [exact E1 | |];
      by apply exclusive_create_task.
Qed.

Lemma exclusive_disconnect (g : Z) (c : nat) (s : state) :
  exclusive s -> exclusive (disconnect g c s).
Proof.
  intros E. apply (exclusive_stop_player c) in E.
  revert E. unfold disconnect. cbv zeta.
  apply exclusive_same; [reflexivity |].
  intros c'.
  change (client_playing
            (with_voice_client (delete g (voice_client (stop_player c s)))
               (with_clients
                  (alter (fun vc => Client (vc_guild vc) (vc_channel vc) false
                                           (vc_playing vc)) c
                     (clients (stop_player c s))) (stop_player c s))) c')
    with (client_playing
            (with_clients
               (alter (fun vc => Client (vc_guild vc) (vc_channel vc) false
                                        (vc_playing vc)) c
                  (clients (stop_player c s))) (stop_player c s)) c').
  by rewrite client_playing_alter.
Qed.

Lemma exclusive_leave_channel (g : Z) (ok : bool) (s : state) :
  exclusive s -> exclusive (fst (leave_channel g ok s)).
Proof.
  intros E. unfold leave_channel.
  destruct (connected_client s g) as [c|]; [| exact E].
  destruct ok; [| exact E].
  pose proof (exclusive_disconnect g c s E) as E1.
  unfold clean_up_queue.
  destruct (audio_queue (disconnect g c s) !! g) as [q|].
  - set (s2 := with_audio_queue _ (set_queue q [] (disconnect g c s))).
    assert (E2 : exclusive s2)
      by (revert E1; apply exclusive_same; [reflexivity | auto]).
    destruct (playing s2 !! g); simpl; [| exact E2].
    revert E2. apply exclusive_same; [reflexivity | auto].
  - simpl. revert E1. apply exclusive_same; [reflexivity | auto].
Qed.

Lemma exclusive_play_audio (channel : VoiceChannel)
    (audio_data : list Byte.byte) (username : Py.str) (ok : bool) (s : state) :
  exclusive s -> exclusive (fst (play_audio channel audio_data username ok s)).
Proof.
  intros E. unfold play_audio. set (g := ch_guild channel).
  assert (Hc : forall s1 c,
             match connected_client s g with
             | Some c => Some (s, c)
             | None => if ok then Some (connect channel s) else None
             end = Some (s1, c) -> exclusive s1).
  { intros s1 c. destruct (connected_client s g).
    - by intros [= <- <-].
    - destruct ok; [| discriminate].
      pose proof (exclusive_connect channel s E) as E0.
      destruct (connect channel s). by intros [= <- <-]. }
  destruct (match connected_client s g with
            | Some c => Some (s, c)
            | None => if ok then Some (connect channel s) else None
            end) as [[s1 c]|]; [| exact E].
  specialize (Hc s1 c eq_refl).
  assert (Hq : forall s2, exclusive s2 ->
    exclusive
      (fst (let s3 := match audio_queue s2 !! g with
                      | Some _ => s2
                      | None => create_task g (new_queue g s2)
                      end in
            let audio_item := Item audio_data username in
            match audio_queue s3 !! g with
            | Some q =>
                (with_enqueued (enqueued s3 ++ [(g, audio_item)])
                   (put q audio_item s3), true)
            | None => (s3, false)
            end))).
  { intros s2 E2. cbv zeta.
    set (s3 := match audio_queue s2 !! g with
               | Some _ => s2
               | None => create_task g (new_queue g s2)
               end).
    assert (E3 : exclusive s3).
    { subst s3. destruct (audio_queue s2 !! g); [exact E2 |].
      apply exclusive_create_task.
      revert E2. apply exclusive_same; [reflexivity | auto]. }
    destruct (audio_queue s3 !! g); [| exact E3].
    simpl. revert E3. apply exclusive_same; [reflexivity | auto]. }
  destruct (decide _); [by apply Hq |].
  destruct ok; [| exact Hc].
  by apply Hq, exclusive_move_to.
Qed.

Lemma exclusive_lose_connection (g : Z) (gone : bool) (s : state) :
  exclusive s -> exclusive (lose_connection g gone s).
Proof.
  unfold lose_connection. destruct (voice_client s !! g) as [c|]; [| auto].
  apply exclusive_same; [by destruct gone |].
  intros c'. destruct gone.
  - change (client_playing
              (with_voice_client _
                 (with_clients
                    (alter (fun vc => Client (vc_guild vc) (vc_channel vc)
                                             false (vc_playing vc)) c
                       (clients s)) s)) c')
      with (client_playing
              (with_clients
                 (alter (fun vc => Client (vc_guild vc) (vc_channel vc) false
                                          (vc_playing vc)) c (clients s)) s)
              c').
    by rewrite client_playing_alter.
  - by rewrite client_playing_alter.
Qed.

Lemma exclusive_step (s : state) (e : event) :
  exclusive s -> exclusive (step s e).
Proof.
  destruct e; simpl.
  - apply exclusive_join_channel.
  - apply exclusive_leave_channel.
  - apply exclusive_play_audio.
  - apply exclusive_resume_task.
  - unfold advance. destruct (Qle_bool 0 d); [| auto].
    apply exclusive_same; [reflexivity | auto].
  - apply exclusive_lose_connection.
  - apply exclusive_stop_player.
Qed.

Lemma exclusive_run (events : list event) (s : state) :
  exclusive s -> exclusive (run events s).
Proof.
  revert s. induction events as [|e events IH]; intros s E; [exact E |].
  apply IH, exclusive_step, E.
Qed.

(** X3.  In every state reached from the initial one, whatever the number
    of workers of a guild, no two tasks await the end of a playback on the
    same voice client, and a task that awaits one awaits it on a client that
    is playing: playbacks on a connection do not overlap. *)
Theorem playbacks_do_not_overlap (events : list event) :
  let s := run events init in
  (forall j1 j2 t1 t2 c item1 item2 deadline1 deadline2,
     tasks s !! j1 = Some t1 ->
     t_pc t1 = InPlayback c item1 false deadline1 ->
     tasks s !! j2 = Some t2 ->
     t_pc t2 = InPlayback c item2 false deadline2 ->
     j1 = j2) /\
  (forall j t c item deadline,
     tasks s !! j = Some t -> t_pc t = InPlayback c item false deadline ->
     client_playing s c = true).
Proof.
  intros s. destruct (exclusive_run events init exclusive_init) as [E1 E2].
  split; [exact E2 | exact E1].
Qed.

Lemma playbacks_do_not_overlap_witness :
  let events := [EJoin Scenario.room true; ELeave 1 true;
                 EJoin Scenario.room true;
                 EResume 0 Scenario.normal; EResume 1 Scenario.normal;
                 Scenario.enqueue Scenario.J1; Scenario.enqueue Scenario.J2;
                 EResume 0 Scenario.normal; EResume 1 Scenario.normal] in
  let s := run events init in
  tasks s !! 0%nat
    = Some (Task 1 (InPlayback 1 Scenario.J1 false 60)) /\
  tasks s !! 1%nat
    = Some (Task 1 (WaitFree 1 Scenario.J2 (1 # 2))) /\
  client_playing s 1 = true.
Proof.
  intros events s.
  assert (H0 : tasks s !! 0%nat
               = Some (Task 1 (InPlayback 1 Scenario.J1 false 60)))
    by (vm_compute; reflexivity).
  split; [exact H0 |]. split; [vm_compute; reflexivity |].
  destruct (playbacks_do_not_overlap events) as [_ H].
  exact (H 0%nat _ 1%nat Scenario.J1 60%Q H0 eq_refl).
Defined.

(** ** A guild and the events of the other guilds *)

Lemma get_queue_size_room (g : Z) (s : state) :
  get_queue_size g s = length (room_queue g s).
Proof.
  unfold get_queue_size, room_queue. by destruct (audio_queue s !! g).
Qed.

Lemma filter_length_frame {A : Type} (P : A -> Prop)
    `{forall x, Decision (P x)} (l l' : list A) :
  (forall j x, l !! j = Some x -> exists y, l' !! j = Some y /\ (P y <-> P x)) ->
  (forall j y, l' !! j = Some y -> l !! j = None -> ~ P y) ->
  length (filter P l') = length (filter P l).
Proof.
  revert l'. induction l as [|x l IH]; intros l' Hold Hnew.
  - clear Hold. induction l' as [|y l' IH']; [reflexivity |].
    rewrite filter_cons.
    destruct (decide (P y)) as [Hy|Hy].
    + exfalso. by apply (Hnew 0%nat y).
    + apply IH'. intros j z Hj _. by apply (Hnew (S j) z).
  - destruct (Hold 0%nat x eq_refl) as (y & Hy & Hxy).
    destruct l' as [|y' l']; [discriminate |]. simpl in Hy. simplify_eq.
    rewrite !filter_cons.
    assert (Hrec : length (filter P l') = length (filter P l)).
    { apply IH.
      - intros j z Hj. exact (Hold (S j) z Hj).
      - intros j z Hj Hn. exact (Hnew (S j) z Hj Hn). }
    destruct (decide (P y)) as [Py|Py], (decide (P x)) as [Px|Px];
      simpl; try lia; tauto.
Qed.

Lemma alive_pc_view (t t' : task) :
  pc_view (t_pc t') = pc_view (t_pc t) -> alive t' = alive t.
Proof.
  unfold alive. destruct (t_pc t), (t_pc t'); simpl; congruence.
Qed.

Lemma workers_frame (g : Z) (s s' : state) :
  frame g s s' -> workers g s' = workers g s.
Proof.
  intros F. unfold workers. apply filter_length_frame.
  - intros j t Hj.
    destruct (fr_tasks_old g s s' F j t Hj) as (t' & Hj' & Hg & Hpc).
    exists t'. split; [exact Hj' |].
    split.
    + intros [Hg' Ha]. rewrite Hg in Hg'. split; [exact Hg' |].
      by rewrite <- (alive_pc_view t t' (Hpc Hg')).
    + intros [Hg' Ha]. split; [congruence |].
      by rewrite (alive_pc_view t t' (Hpc Hg')).
  - intros j t' Hj' Hj [Hg _].
    exact (fr_tasks_new g s s' F j t' Hj' Hj Hg).
Qed.

Lemma frame_resume_task (g : Z) (i : nat) (env : worker_env) (t : task)
    (s : state) :
  wf s -> tasks s !! i = Some t -> t_guild t <> g ->
  frame g s (resume_task i env s).
Proof.
  intros W Hi Hg. unfold resume_task. rewrite Hi.
  destruct (_process_audio_queue env (t_guild t) (t_pc t) s)
    as [[s' p']|] eqn:Hr; [| apply frame_refl].
  pose proof (sound_resume _ _ _ _ _ _ Hr) as (_ & _ & T).
  pose proof (touches_resume _ _ _ _ _ _ Hr) as To.
  apply (frame_trans g s s').
  - eapply frame_of_touches; [exact To | exact Hg |].
    intros q0 Hq0 [[deadline Hp] | Hreg].
    + destruct (wf_waiting s W i t q0 deadline Hi Hp) as [_ Hown].
      apply Hg. symmetry. by apply Hown.
    + apply Hg. exact (wf_queue_inj s W (t_guild t) g q0 Hreg Hq0).
  - destruct (T i t Hi) as (t' & Hi' & Hg'). rewrite <- Hg'.
    apply frame_set_pc; [exact Hi' | congruence].
Qed.

Lemma frame_step (g g' : Z) (s : state) (e : event) :
  wf s -> concerns s e = Some g' -> g' <> g -> frame g s (step s e).
Proof.
  intros W Hc Hne.
  destruct e as [channel ok|g0 ok|channel audio_data username ok|j env|d
                 |g0 gone|c]; simpl in *.
  - simplify_eq. apply frame_join_channel; [exact W | done].
  - simplify_eq. by apply frame_leave_channel.
  - simplify_eq. by apply frame_play_audio.
  - destruct (tasks s !! j) as [t|] eqn:Hj; [| discriminate].
    simpl in Hc. simplify_eq. by eapply frame_resume_task.
  - discriminate.
  - simplify_eq. by apply frame_lose_connection.
  - apply frame_stop_player.
Qed.

(** X4.  An event for a guild other than [g] (a call of [join_channel],
    [leave_channel] or [play_audio] for it, the loss of its connection, a
    step of one of its workers, the end of a playback of its client)
    changes nothing of [g]: not its connection, not its queue or the size that
    [get_queue_size] reports, not what has been accepted and played for
    it, and not the number of its workers. *)
Theorem other_guilds_change_nothing (g g' : Z) (s : state) (e : event) :
  wf s -> concerns s e = Some g' -> g' <> g ->
  let s' := step s e in
  connected_client s' g = connected_client s g /\
  room_queue g s' = room_queue g s /\
  get_queue_size g s' = get_queue_size g s /\
  of_guild g (enqueued s') = of_guild g (enqueued s) /\
  of_guild g (played s') = of_guild g (played s) /\
  workers g s' = workers g s.
Proof.
  intros W Hc Hne s'.
  pose proof (frame_step g g' s e W Hc Hne) as F. fold s' in F.
  pose proof F as [F1 F2 F3 F4 F5 F6 F7 F8].
  assert (Hq : room_queue g s' = room_queue g s)
    by (by apply room_queue_frame).
  split; [by apply connected_client_frame |].
  split; [exact Hq |].
  split; [by rewrite !get_queue_size_room, Hq |].
  split; [exact F7 |]. split; [exact F8 |].
  by apply workers_frame.
Qed.

Lemma other_guilds_change_nothing_witness :
  let s := run [EJoin Scenario.room true; Scenario.enqueue Scenario.J1;
                EJoin (Channel 20 2) true] init in
  let s' := step s (ELeave 2 true) in
  connected_client s' 1 = connected_client s 1 /\
  room_queue 1 s' = room_queue 1 s /\
  get_queue_size 1 s' = get_queue_size 1 s /\
  of_guild 1 (enqueued s') = of_guild 1 (enqueued s) /\
  of_guild 1 (played s') = of_guild 1 (played s) /\
  workers 1 s' = workers 1 s.
Proof.
  intros s.
  apply (other_guilds_change_nothing 1 2 s (ELeave 2 true)).
  - apply wf_run, wf_init.
  - reflexivity.
  - discriminate.
Defined.

(** ** The size of the queue *)

(** X5.  While a guild stays connected with its one worker, the jobs that
    [play_audio] has accepted for it are the jobs played, the job that the
    worker holds (at most one) and the jobs in the queue: [get_queue_size]
    is the number of accepted jobs that no worker has taken yet. *)
Theorem queue_size_counts_the_waiting_jobs (g : Z) (i : nat)
    (events : list event) (s : state) :
  fifo g i s -> Forall (undisturbed g) events ->
  let s' := run events s in
  (length (of_guild g (enqueued s'))
   = length (of_guild g (played s')) + length (in_hand i s')
     + get_queue_size g s')%nat /\
  (length (in_hand i s') <= 1)%nat.
Proof.
  intros F U s'. pose proof (fifo_run g i events s F U) as F'. fold s' in F'.
  split.
  - rewrite (fifo_order g i s' F'), !length_app.
    rewrite get_queue_size_room. lia.
  - unfold in_hand. destruct (tasks s' !! i) as [t|]; [| simpl; lia].
    destruct (t_pc t); simpl; lia.
Qed.

Lemma queue_size_counts_the_waiting_jobs_witness :
  let s' := run [Scenario.enqueue Scenario.J1; Scenario.enqueue Scenario.J2;
                 EResume 0 Scenario.normal; EResume 0 Scenario.normal;
                 Scenario.enqueue Scenario.J3]
              (fst (join_channel Scenario.room true init)) in
  (length (of_guild 1 (enqueued s'))
   = length (of_guild 1 (played s')) + length (in_hand 0 s')
     + get_queue_size 1 s')%nat /\
  (length (in_hand 0 s') <= 1)%nat.
Proof.
  apply (queue_size_counts_the_waiting_jobs 1 0).
  - apply (fifo_after_first_join Scenario.room).
  - repeat constructor.
Defined.

(** ** [self.playing] *)

Lemma playing_resume (env : worker_env) (g : Z) (p : pc) (s s' : state)
    (p' : pc) :
  _process_audio_queue env g p s = Some (s', p') -> playing s' = playing s.
Proof.
  unfold _process_audio_queue, after_get, put_back, wait_free, hand_over,
    _play_audio_data.
  intros H.
  repeat (simplify_eq; try reflexivity;
          match goal with
          | H : context [match ?x with _ => _ end] |- _ => destruct x eqn:?
          end; simpl in * ).
Qed.

Lemma playing_resume_task (i : nat) (env : worker_env) (s : state) :
  playing (resume_task i env s) = playing s.
Proof.
  unfold resume_task. destruct (tasks s !! i) as [t|]; [| reflexivity].
  destruct (_process_audio_queue env (t_guild t) (t_pc t) s)
    as [[s' p']|] eqn:Hr; [| reflexivity].
  fields. by eapply playing_resume.
Qed.

Lemma unflagged_join_channel (channel : VoiceChannel) (ok : bool) (s : state) :
  (forall g, playing s !! g <> Some true) ->
  forall g, playing (fst (join_channel channel ok s)) !! g <> Some true.
Proof.
  intros H. unfold join_channel.
  destruct (connected_client s (ch_guild channel)) as [c|].
  - destruct (decide _); [exact H |]. destruct ok; exact H.
  - destruct ok; [| exact H]. unfold connect. cbv zeta beta iota.
    set (s0 := with_voice_client _ _).
    assert (H0 : forall g, playing s0 !! g <> Some true) by exact H.
    set (s1 := match audio_queue s0 !! ch_guild channel with
               | Some _ => s0
               | None => new_queue (ch_guild channel) s0
               end).
    assert (H1 : forall g, playing s1 !! g <> Some true).
    { subst s1. destruct (audio_queue s0 !! _); [exact H0 |].
      intros g. unfold new_queue. fields.
      destruct (decide (ch_guild channel = g)) as [<-|Hne].
      - by rewrite lookup_insert_eq.
      - rewrite lookup_insert_ne by done. apply H0. }
    simpl. destruct (playing s1 !! ch_guild channel) as [[]|]; exact H1.
Qed.

Lemma unflagged_leave_channel (g0 : Z) (ok : bool) (s : state) :
  (forall g, playing s !! g <> Some true) ->
  forall g, playing (fst (leave_channel g0 ok s)) !! g <> Some true.
Proof.
  intros H. unfold leave_channel.
  destruct (connected_client s g0) as [c|]; [| exact H].
  destruct ok; [| exact H].
  unfold clean_up_queue.
  change (audio_queue (disconnect g0 c s)) with (audio_queue s).
  destruct (audio_queue s !! g0) as [q|]; [| exact H].
  change (playing (with_audio_queue (delete g0 (audio_queue s))
                     (set_queue q [] (disconnect g0 c s))))
    with (playing s).
  destruct (playing s !! g0) eqn:E; simpl; [| exact H].
  intros g Hg. apply lookup_delete_Some in Hg as [_ Hg]. by apply (H g).
Qed.

Lemma unflagged_play_audio (channel : VoiceChannel)
    (audio_data : list Byte.byte) (username : Py.str) (ok : bool) (s : state) :
  (forall g, playing s !! g <> Some true) ->
  forall g,
    playing (fst (play_audio channel audio_data username ok s)) !! g
    <> Some true.
Proof.
  intros H. unfold play_audio. set (g0 := ch_guild channel).
  assert (Hc : forall s1 c,
             match connected_client s g0 with
             | Some c => Some (s, c)
             | None => if ok then Some (connect channel s) else None
             end = Some (s1, c) -> playing s1 = playing s).
  { intros s1 c. destruct (connected_client s g0).
    - by intros [= <- <-].
    - destruct ok; [| discriminate]. unfold connect. by intros [= <- <-]. }
  destruct (match connected_client s g0 with
            | Some c => Some (s, c)
            | None => if ok then Some (connect channel s) else None
            end) as [[s1 c]|]; [| exact H].
  specialize (Hc s1 c eq_refl).
  assert (Hq : forall s2, playing s2 = playing s -> forall g,
    playing
      (fst (let s3 := match audio_queue s2 !! g0 with
                      | Some _ => s2
                      | None => create_task g0 (new_queue g0 s2)
                      end in
            let audio_item := Item audio_data username in
            match audio_queue s3 !! g0 with
            | Some q =>
                (with_enqueued (enqueued s3 ++ [(g0, audio_item)])
                   (put q audio_item s3), true)
            | None => (s3, false)
            end)) !! g <> Some true).
  { intros s2 E2 g. cbv zeta.
    set (s3 := match audio_queue s2 !! g0 with
               | Some _ => s2
               | None => create_task g0 (new_queue g0 s2)
               end).
    assert (E3 : playing s3 !! g <> Some true).
    { subst s3. destruct (audio_queue s2 !! g0).
      - rewrite E2. apply H.
      - unfold create_task, new_queue. fields.
        destruct (decide (g0 = g)) as [<-|Hne].
        + by rewrite lookup_insert_eq.
        + rewrite lookup_insert_ne by done. rewrite E2. apply H. }
    by destruct (audio_queue s3 !! g0). }
  destruct (decide _); [by apply Hq |].
  destruct ok; [| intros g; simpl; rewrite Hc; apply H].
  by apply Hq.
Qed.

Lemma unflagged_step (s : state) (e : event) :
  (forall g, playing s !! g <> Some true) ->
  forall g, playing (step s e) !! g <> Some true.
Proof.
  intros H. destruct e; simpl.
  - by apply unflagged_join_channel.
  - by apply unflagged_leave_channel.
  - by apply unflagged_play_audio.
  - by rewrite playing_resume_task.
  - unfold advance. by destruct (Qle_bool 0 d).
  - unfold lose_connection. destruct (voice_client s !! guild); [| exact H].
    by destruct gone.
  - exact H.
Qed.

Lemma unflagged_run (events : list event) (s : state) :
  (forall g, playing s !! g <> Some true) ->
  forall g, playing (run events s) !! g <> Some true.
Proof.
  revert s. induction events as [|e events IH]; intros s H; [exact H |].
  apply IH. by apply unflagged_step.
Qed.

(** X6.  No event ever sets [self.playing[guild.id]] to [True], so the test
    of [join_channel] before [create_task] always passes: in every state
    reached from the initial one, a [join_channel] that connects a guild
    which is not connected starts one more worker task for it. *)
Theorem join_channel_starts_a_worker_each_time (events : list event)
    (channel : VoiceChannel) :
  let s := run events init in
  (forall g, playing s !! g <> Some true) /\
  (connected_client s (ch_guild channel) = None ->
   tasks (fst (join_channel channel true s))
   = tasks s ++ [Task (ch_guild channel) Ready]).
Proof.
  intros s.
  assert (H : forall g, playing s !! g <> Some true).
  { apply unflagged_run. intros g. unfold init. fields.
    by rewrite lookup_empty. }
  split; [exact H |].
  intros Hc. unfold join_channel. rewrite Hc.
  unfold connect. cbv zeta beta iota.
  set (s0 := with_voice_client _ _).
  set (s1 := match audio_queue s0 !! ch_guild channel with
             | Some _ => s0
             | None => new_queue (ch_guild channel) s0
             end).
  assert (H1 : playing s1 !! ch_guild channel <> Some true).
  { subst s1. destruct (audio_queue s0 !! _); [apply H |].
    unfold new_queue. fields. by rewrite lookup_insert_eq. }
  assert (T1 : tasks s1 = tasks s)
    by (subst s1; by destruct (audio_queue s0 !! _)).
  simpl.
  destruct (playing s1 !! ch_guild channel) as [[]|]; [done | |];
    unfold create_task; fields; by rewrite T1.
Qed.

Lemma join_channel_starts_a_worker_each_time_witness :
  let s := run [EJoin Scenario.room true; ELost 1 true] init in
  connected_client s 1 = None /\
  tasks (fst (join_channel Scenario.room true s))
  = [Task 1 Ready; Task 1 Ready].
Proof.
  intros s.
  assert (Hc : connected_client s 1 = None) by (vm_compute; reflexivity).
  split; [exact Hc |].
  destruct (join_channel_starts_a_worker_each_time
              [EJoin Scenario.room true; ELost 1 true] Scenario.room)
    as [_ H].
  exact (H Hc).
Defined.

(** ** [join_channel] and the queues *)

Lemma room_queue_new_queue (g g' : Z) (s : state) :
  wf s -> audio_queue s !! g = None ->
  room_queue g' (new_queue g s) = room_queue g' s.
Proof.
  intros W Hn. unfold room_queue, queue_of, new_queue. fields.
  destruct (decide (g = g')) as [<-|Hne].
  - rewrite lookup_insert_eq, Hn.
    by rewrite lookup_app_r, Nat.sub_diag by lia.
  - rewrite lookup_insert_ne by done.
    destruct (audio_queue s !! g') as [q|] eqn:Hq; [| reflexivity].
    rewrite lookup_app_l; [reflexivity |]. by eapply wf_queue_ref.
Qed.

(** X7.  [join_channel] never touches a job: whatever it does (nothing, a
    move, a new connection with or without a new queue, a failure) the
    queue of every guild and the history are as before.  It returns
    [None] exactly when the awaited call fails and the guild is not already
    connected to the channel, and then the state is unchanged. *)
Theorem join_channel_keeps_the_jobs (channel : VoiceChannel) (ok : bool)
    (s : state) :
  wf s ->
  let r := join_channel channel ok s in
  (forall g, room_queue g (fst r) = room_queue g s) /\
  enqueued (fst r) = enqueued s /\ played (fst r) = played s /\
  (snd r = None <->
   ok = false /\
   ~ exists c, connected_client s (ch_guild channel) = Some c /\
               channel_of s c = Some (ch_id channel)) /\
  (snd r = None -> fst r = s).
Proof.
  intros W. unfold join_channel. cbv zeta.
  destruct (connected_client s (ch_guild channel)) as [c|] eqn:Hc.
  - destruct (decide (channel_of s c = Some (ch_id channel))) as [Hch|Hch].
    + simpl. split; [| split; [| split; [| split]]]; try done.
      split; [done |]. intros [_ Hn]. exfalso. apply Hn. eauto.
    + destruct ok; simpl.
      * split; [| split; [| split; [| split]]]; try done.
        split; [done | by intros [? _]].
      * split; [| split; [| split; [| split]]]; try done.
        split; [| done]. intros _. split; [done |].
        intros (c' & Hc' & Hch'). congruence.
  - destruct ok.
    + pose proof (wf_connect channel s W) as W0.
      unfold connect in *. cbv zeta beta iota in *. simpl in W0.
      set (s0 := with_voice_client _ _) in *.
      set (s1 := match audio_queue s0 !! ch_guild channel with
                 | Some _ => s0
                 | None => new_queue (ch_guild channel) s0
                 end).
      assert (Q1 : forall g, room_queue g s1 = room_queue g s).
      { intros g. subst s1.
        destruct (audio_queue s0 !! ch_guild channel) eqn:E; [reflexivity |].
        by rewrite room_queue_new_queue. }
      assert (E1 : enqueued s1 = enqueued s /\ played s1 = played s)
        by (subst s1; by destruct (audio_queue s0 !! _)).
      destruct E1 as [E1 P1].
      simpl. split; [| split; [| split; [| split]]].
      * intros g. transitivity (room_queue g s1); [| apply Q1].
        by destruct (playing s1 !! ch_guild channel) as [[]|].
      * transitivity (enqueued s1); [| exact E1].
        by destruct (playing s1 !! ch_guild channel) as [[]|].
      * transitivity (played s1); [| exact P1].
        by destruct (playing s1 !! ch_guild channel) as [[]|].
      * split; [done | by intros [? _]].
      * done.
    + simpl. split; [| split; [| split; [| split]]]; try done.
      split; [| done]. intros _. split; [done |].
      intros (c' & Hc' & _). discriminate.
Qed.

Lemma join_channel_keeps_the_jobs_witness :
  let s := run [EJoin Scenario.room true; Scenario.enqueue Scenario.J1;
                ELost 1 true] init in
  room_queue 1 (fst (join_channel Scenario.other_room true s))
  = [Scenario.J1].
Proof.
  intros s.
  destruct (join_channel_keeps_the_jobs Scenario.other_room true s)
    as [H _].
  - apply wf_run, wf_init.
  - rewrite (H 1). vm_compute. reflexivity.
Defined.

(** ** [play_audio] and the workers *)

(** X8.  [play_audio] starts a worker exactly when it creates the queue: the
    tasks afterwards are the tasks before, and one new task of the guild
    when the call succeeds for a guild that had no queue. *)
Theorem play_audio_starts_a_worker_with_the_queue (channel : VoiceChannel)
    (audio_data : list Byte.byte) (username : Py.str) (ok : bool) (s : state) :
  let r := play_audio channel audio_data username ok s in
  tasks (fst r)
  = if snd r && bool_decide (audio_queue s !! ch_guild channel = None)
    then tasks s ++ [Task (ch_guild channel) Ready]
    else tasks s.
Proof.
  unfold play_audio. cbv zeta. set (g := ch_guild channel).
  assert (Hc : forall s1 c,
             match connected_client s g with
             | Some c => Some (s, c)
             | None => if ok then Some (connect channel s) else None
             end = Some (s1, c) ->
             tasks s1 = tasks s /\ audio_queue s1 = audio_queue s).
  { intros s1 c. destruct (connected_client s g).
    - intros [= <- <-]. auto.
    - destruct ok; [| discriminate]. unfold connect. intros [= <- <-]. auto. }
  destruct (match connected_client s g with
            | Some c => Some (s, c)
            | None => if ok then Some (connect channel s) else None
            end) as [[s1 c]|]; [| reflexivity].
  destruct (Hc s1 c eq_refl) as [T1 A1].
  assert (Hq : forall s2, tasks s2 = tasks s ->
                          audio_queue s2 = audio_queue s ->
    let r := (let s3 := match audio_queue s2 !! g with
                      | Some _ => s2
                      | None => create_task g (new_queue g s2)
                      end in
            let audio_item := Item audio_data username in
            match audio_queue s3 !! g with
            | Some q =>
                (with_enqueued (enqueued s3 ++ [(g, audio_item)])
                   (put q audio_item s3), true)
            | None => (s3, false)
            end) in
    tasks (fst r)
    = if snd r && bool_decide (audio_queue s !! g = None)
      then tasks s ++ [Task g Ready] else tasks s).
  { intros s2 T2 A2. cbv zeta. rewrite A2.
    destruct (audio_queue s !! g) as [q|] eqn:Hq.
    - rewrite A2, Hq. simpl. fields. exact T2.
    - unfold create_task, new_queue. fields. rewrite lookup_insert_eq.
      simpl. fields. by rewrite T2. }
  destruct (decide _); [exact (Hq s1 T1 A1) |].
  destruct ok; [| exact T1].
  exact (Hq (move_to c channel s1) T1 A1).
Qed.

(** ** A worker whose guild has left *)

(** X9.  After a [leave_channel] that succeeds, the queue on which the
    worker of the guild waits has been emptied and is registered no more;
    the worker stays suspended until its [wait_for] times out, then returns,
    and it has played nothing. *)
Theorem worker_of_a_left_guild_returns (g : Z) (i q : nat) (deadline d : Q)
    (env : worker_env) (s : state) :
  wf s -> is_Some (connected_client s g) ->
  audio_queue s !! g = Some q ->
  tasks s !! i = Some (Task g (WaitGet q deadline)) ->
  let s1 := advance d (fst (leave_channel g true s)) in
  let s2 := resume_task i env s1 in
  audio_queue s1 !! g = None /\ queue_of s1 q = [] /\
  tasks s1 !! i = Some (Task g (WaitGet q deadline)) /\
  (due deadline s1 = false -> s2 = s1) /\
  (due deadline s1 = true ->
   tasks s2 !! i = Some (Task g Stopped) /\ played s2 = played s).
Proof.
  intros W [c Hc] Hq Hi.
  assert (Hl : exists b,
             fst (leave_channel g true s)
             = with_voice_text_channels (delete g (voice_text_channels s))
                 (with_playing (delete g (playing s))
                    (with_audio_queue (delete g (audio_queue s))
                       (set_queue q [] (disconnect g c s)))) /\
             playing s !! g = Some b).
  { destruct (wf_playing s W g) as [b Hb]; [eauto |]. exists b.
    split; [| exact Hb].
    unfold leave_channel. rewrite Hc. unfold clean_up_queue.
    change (audio_queue (disconnect g c s)) with (audio_queue s).
    rewrite Hq.
    change (playing (with_audio_queue (delete g (audio_queue s))
                       (set_queue q [] (disconnect g c s))))
      with (playing s).
    by rewrite Hb. }
  destruct Hl as (b & Hl & _).
  set (s0 := fst (leave_channel g true s)) in *.
  assert (A0 : audio_queue s0 !! g = None)
    by (rewrite Hl; fields; apply lookup_delete_eq).
  assert (Q0 : queue_of s0 q = []).
  { rewrite Hl. unfold queue_of, set_queue. fields.
    rewrite list_lookup_insert_eq; [reflexivity |].
    change (queues (disconnect g c s)) with (queues s).
    by eapply wf_queue_ref. }
  assert (T0 : tasks s0 !! i = Some (Task g (WaitGet q deadline))).
  { rewrite Hl. unfold set_queue, disconnect, stop_player. fields.
    by rewrite list_lookup_fmap, Hi. }
  assert (P0 : played s0 = played s) by (by rewrite Hl).
  intros s1 s2.
  assert (A1 : audio_queue s1 !! g = None)
    by (subst s1; unfold advance; by destruct (Qle_bool 0 d)).
  assert (Q1 : queue_of s1 q = [])
    by (subst s1; unfold advance; by destruct (Qle_bool 0 d)).
  assert (T1 : tasks s1 !! i = Some (Task g (WaitGet q deadline)))
    by (subst s1; unfold advance; by destruct (Qle_bool 0 d)).
  assert (P1 : played s1 = played s)
    by (subst s1; unfold advance; by destruct (Qle_bool 0 d)).
  split; [exact A1 |]. split; [exact Q1 |]. split; [exact T1 |].
  subst s2. unfold resume_task. rewrite T1. simpl. rewrite Q1.
  split.
  - by intros ->.
  - intros ->. unfold on_timeout, registered_and_empty, loop_head.
    rewrite A1. fields.
    split; [| exact P1].
    apply list_lookup_insert_eq. by eapply lookup_lt_Some.
Qed.

Lemma worker_of_a_left_guild_returns_witness :
  let s := run [EJoin Scenario.room true; EResume 0 Scenario.normal] init in
  let s1 := advance 300 (fst (leave_channel 1 true s)) in
  tasks (resume_task 0 Scenario.normal s1) !! 0%nat = Some (Task 1 Stopped).
Proof.
  intros s s1.
  destruct (worker_of_a_left_guild_returns 1 0 0 300 300 Scenario.normal s)
    as (_ & _ & _ & _ & H).
  - apply wf_run, wf_init.
  - exists 0%nat. vm_compute. reflexivity.
  - vm_compute. reflexivity.
  - vm_compute. reflexivity.
  - apply H. vm_compute. reflexivity.
Defined.

(** ** [stop_audio] *)

(** X10.  [stop_audio] ends the playback of the guild and nothing else: the
    client plays no more, the state is unchanged when nothing was playing,
    the queues and the history are as before, and the worker that awaited
    the end of the playback goes on to the next job of its queue when it
    runs again. *)
Theorem stop_audio_ends_the_current_playback (g : Z) (s : state) :
  let s' := stop_audio g s in
  is_playing g s' = (fun _ => false) <$> is_playing g s /\
  (is_playing g s <> Some true -> s' = s) /\
  queues s' = queues s /\ audio_queue s' = audio_queue s /\
  enqueued s' = enqueued s /\ played s' = played s /\
  (forall i g0 c item done deadline env,
     voice_client s !! g = Some c -> client_playing s c = true ->
     tasks s !! i = Some (Task g0 (InPlayback c item done deadline)) ->
     tasks (resume_task i env s') !! i = Some (Task g0 (loop_head g0 s))).
Proof.
  unfold stop_audio, is_playing.
  destruct (voice_client s !! g) as [c|] eqn:Hc; simpl.
  2: { rewrite Hc. repeat split; try done. }
  destruct (client_playing s c) eqn:Hp.
  - change (voice_client (stop_player c s)) with (voice_client s).
    rewrite Hc. simpl.
    split.
    { f_equal. unfold client_playing, stop_player. fields.
      rewrite list_lookup_alter_eq. by destruct (clients s !! c). }
    split; [done |]. split; [done |]. split; [done |]. split; [done |].
    split; [done |].
    intros i g0 c0 item done deadline env [= <-] _ Hi.
    unfold resume_task.
    assert (Hi' : tasks (stop_player c s) !! i
                  = Some (Task g0 (InPlayback c item true deadline))).
    { unfold stop_player. fields. rewrite list_lookup_fmap, Hi. simpl.
      unfold mark_done. simpl. by rewrite Nat.eqb_refl. }
    rewrite Hi'. simpl. fields.
    rewrite list_lookup_insert_eq by (by eapply lookup_lt_Some).
    reflexivity.
  - rewrite Hc, Hp. simpl. repeat split; try done.
    intros i g0 c0 item done deadline env [= <-]. congruence.
Qed.

Lemma stop_audio_ends_the_current_playback_witness :
  let s := run [EJoin Scenario.room true; Scenario.enqueue Scenario.J1;
                Scenario.enqueue Scenario.J2;
                EResume 0 Scenario.normal; EResume 0 Scenario.normal] init in
  is_playing 1 s = Some true /\
  tasks (resume_task 0 Scenario.normal (stop_audio 1 s)) !! 0%nat
  = Some (Task 1 (WaitGet 0 300)) /\
  room_queue 1 (stop_audio 1 s) = [Scenario.J2].
Proof.
  intros s.
  split; [vm_compute; reflexivity |].
  destruct (stop_audio_ends_the_current_playback 1 s)
    as (_ & _ & _ & _ & _ & _ & H).
  split; [| vm_compute; reflexivity].
  rewrite (H 0%nat 1 0%nat Scenario.J1 false 60%Q Scenario.normal);
    vm_compute; reflexivity.
Defined.

(** * bot.py *)

Section Messages.

Import PyStr DiscordTTSBot.

Ltac bot_fields :=
  cbn [target_users user_voices silenced_users tts_handler voice_manager
       with_target_users with_user_voices with_silenced_users
       with_tts_handler with_voice_manager
       p_channel p_name p_original p_audio
       TTSHandler.voice TTSHandler.rate TTSHandler.volume set_voice] in *.

Lemma set_voice_restores (v : string) (h : TTSHandler.handler) :
  set_voice (TTSHandler.voice h) (set_voice v h) = h.
Proof. by destruct h. Qed.

Lemma generate_tts_not_empty (h : TTSHandler.handler)
    (provider : TTSHandler.request -> TTSHandler.provider_outcome)
    (text : Py.str) (audio : list Byte.byte) :
  TTSHandler.generate_tts h provider text = Some audio ->
  is_empty audio = false.
Proof.
  unfold TTSHandler.generate_tts. cbv zeta.
  destruct (TTSHandler.is_empty (TTSHandler.clean_text text)); [discriminate |].
  destruct (provider _) as [chunks|]; [| discriminate].
  destruct (TTSHandler.collect_audio chunks) as [|x audio0] eqn:E;
    [discriminate |].
  by intros [= <-].
Qed.

(** What [on_message] has found when it goes on to [generate_tts]. *)
Lemma on_message_begin_accepts
    (provider : TTSHandler.request -> TTSHandler.provider_outcome)
    (m : message) (b b1 : bot) (p : pending) :
  on_message_begin provider m b = (b1, Some p) ->
  (author_bot m = false /\
   startswith (Py.strip (content m)) COMMAND_PREFIX = false /\
   display_name m ∈ target_users b /\
   silenced b (display_name m) = false /\
   Py.strip (content m) <> [] /\
   (exists c channel_id,
      author_voice m = Some channel_id /\
      connected_client (voice_manager b) (msg_guild m) = Some c /\
      channel_of (voice_manager b) c = Some channel_id /\
      p_channel p = Channel channel_id (msg_guild m)) /\
   voice_text_channels (voice_manager b) !! msg_guild m
   = Some (msg_channel m)) /\
  (target_users b1 = target_users b /\ user_voices b1 = user_voices b /\
   silenced_users b1 = silenced_users b /\
   voice_manager b1 = voice_manager b /\
   tts_handler b1
   = match user_voice b (display_name m) with
     | Some v => set_voice v (tts_handler b)
     | None => tts_handler b
     end) /\
  (p_name p = display_name m /\
   p_original p
   = match user_voice b (display_name m) with
     | Some _ => Some (TTSHandler.voice (tts_handler b))
     | None => None
     end /\
   p_audio p
   = TTSHandler.generate_tts (tts_handler b1) provider
       (Autocorrector.autocorregir_mensaje (content m))).
Proof.
  unfold on_message_begin.
  destruct (author_bot m); [discriminate |].
  destruct (startswith _ _); [discriminate |].
  destruct (bool_decide (display_name m ∈ target_users b)) eqn:Ht;
    [| discriminate].
  apply bool_decide_eq_true in Ht. simpl.
  destruct (silenced b (display_name m)); [discriminate |].
  destruct (is_empty (content m) || _) eqn:He; [discriminate |].
  apply orb_false_iff in He as [_ He]. apply Nat.eqb_neq in He.
  destruct (author_voice m) as [channel_id|]; [| discriminate].
  destruct (connected_client (voice_manager b) (msg_guild m)) as [c|] eqn:Hc;
    [| discriminate].
  destruct (bool_decide (channel_of (voice_manager b) c = Some channel_id))
    eqn:Hch; [| discriminate].
  apply bool_decide_eq_true in Hch. simpl.
  destruct (voice_text_channels (voice_manager b) !! msg_guild m)
    as [expected|] eqn:Hb; [| discriminate].
  destruct (msg_channel m =? expected) eqn:Hm; [| discriminate].
  apply Z.eqb_eq in Hm. subst expected. simpl. cbv zeta.
  intros [= <- <-]. bot_fields.
  split; [| split].
  - split; [done |]. split; [done |]. split; [done |]. split; [done |].
    split; [by destruct (Py.strip (content m)) |].
    split; [| done]. exists c, channel_id. done.
  - by destruct (user_voice b (display_name m)).
  - done.
Qed.

Lemma on_message_begin_ignores
    (provider : TTSHandler.request -> TTSHandler.provider_outcome)
    (m : message) (b b1 : bot) :
  on_message_begin provider m b = (b1, None) -> b1 = b.
Proof.
  unfold on_message_begin.
  repeat (match goal with
          | |- context [if ?x then _ else _] => destruct x
          | |- context [match ?x with Some _ => _ | None => _ end] =>
              destruct x
          end; try (by intros [= <-])).
Qed.

(** [play_audio] on a guild that is connected to the channel of the job. *)
Lemma play_audio_in_place (channel : VoiceChannel)
    (audio_data : list Byte.byte) (username : Py.str) (ok : bool) (s : state)
    (c : nat) :
  wf s ->
  connected_client s (ch_guild channel) = Some c ->
  channel_of s c = Some (ch_id channel) ->
  let r := play_audio channel audio_data username ok s in
  snd r = true /\
  voice_client (fst r) = voice_client s /\ clients (fst r) = clients s /\
  voice_text_channels (fst r) = voice_text_channels s /\
  enqueued (fst r)
  = enqueued s ++ [(ch_guild channel, Item audio_data username)] /\
  room_queue (ch_guild channel) (fst r)
  = room_queue (ch_guild channel) s ++ [Item audio_data username].
Proof.
  intros W Hc Hch.
  pose proof (play_audio_enqueues (ch_guild channel)
                (Item audio_data username) s W) as H.
  unfold play_audio. rewrite Hc. cbv zeta in *.
  destruct (decide (channel_of s c = Some (ch_id channel))); [| done].
  destruct H as (H1 & H2 & H3 & H4).
  split; [exact H1 |]. split; [exact H2 |]. split; [exact H3 |].
  split; [| split; [| exact H4]].
  - destruct (audio_queue s !! ch_guild channel) as [q|] eqn:Hq.
    + by rewrite Hq.
    + unfold create_task, new_queue. fields. by rewrite lookup_insert_eq.
  - destruct (audio_queue s !! ch_guild channel) as [q|] eqn:Hq.
    + by rewrite Hq.
    + unfold create_task, new_queue. fields. by rewrite lookup_insert_eq.
Qed.

(** X11.  A message handled without interruption changes nothing of the bot
    but the queue: the users, their voices and the voice of the handler
    (set for the user and restored) are as before, and the bot neither
    connects nor moves, whatever the network would answer.  The message is
    put into the queue of its guild only if its author is no bot, its text
    without the white space around it is not empty and does not begin with
    the command prefix [T], the author is a target user who is not
    silenced and is in the voice channel that the bot is connected to, and
    the message is in the text channel bound to the guild; the audio is that
    of the corrected text in the voice of the user. *)
Theorem on_message_speaks_only_when
    (provider : TTSHandler.request -> TTSHandler.provider_outcome)
    (ok : bool) (m : message) (b : bot) :
  wf (voice_manager b) ->
  let b' := on_message provider ok m b in
  let s := voice_manager b in
  let s' := voice_manager b' in
  (target_users b' = target_users b /\ user_voices b' = user_voices b /\
   silenced_users b' = silenced_users b /\ tts_handler b' = tts_handler b /\
   voice_client s' = voice_client s /\ clients s' = clients s /\
   voice_text_channels s' = voice_text_channels s) /\
  (s' = s \/
   exists audio c channel_id,
     enqueued s'
     = enqueued s ++ [(msg_guild m, Item audio (Py.txt (display_name m)))] /\
     room_queue (msg_guild m) s'
     = room_queue (msg_guild m) s ++ [Item audio (Py.txt (display_name m))] /\
     TTSHandler.generate_tts
       match user_voice b (display_name m) with
       | Some v => set_voice v (tts_handler b)
       | None => tts_handler b
       end provider (Autocorrector.autocorregir_mensaje (content m))
     = Some audio /\
     author_bot m = false /\
     startswith (Py.strip (content m)) COMMAND_PREFIX = false /\
     Py.strip (content m) <> [] /\
     display_name m ∈ target_users b /\
     silenced b (display_name m) = false /\
     author_voice m = Some channel_id /\
     connected_client s (msg_guild m) = Some c /\
     channel_of s c = Some channel_id /\
     voice_text_channels s !! msg_guild m = Some (msg_channel m)).
Proof.
  intros W. unfold on_message.
  destruct (on_message_begin provider m b) as [b1 [p|]] eqn:Hbegin.
  2: { apply on_message_begin_ignores in Hbegin. subst. cbv zeta. auto 10. }
  destruct (on_message_begin_accepts provider m b b1 p Hbegin)
    as ((G1 & G2 & G3 & G4 & G5 & (c & channel_id & G6 & G7 & G8 & Hpc) & G9)
        & (E1 & E2 & E3 & E4 & E5) & (P1 & P2 & P3)).
  assert (Hrestored :
            tts_handler
              match p_original p with
              | Some original_voice =>
                  with_tts_handler (set_voice original_voice (tts_handler b1))
                    b1
              | None => b1
              end = tts_handler b).
  { rewrite P2. destruct (user_voice b (display_name m)); bot_fields.
    - rewrite E5. by destruct (tts_handler b).
    - exact E5. }
  unfold on_message_end. cbv zeta.
  set (b2 := match p_original p with
             | Some original_voice =>
                 with_tts_handler (set_voice original_voice (tts_handler b1))
                   b1
             | None => b1
             end) in *.
  assert (E2' : target_users b2 = target_users b /\
                user_voices b2 = user_voices b /\
                silenced_users b2 = silenced_users b /\
                voice_manager b2 = voice_manager b)
    by (subst b2; by destruct (p_original p)).
  destruct E2' as (F1 & F2 & F3 & F4).
  destruct (p_audio p) as [audio|] eqn:Ha.
  2: { cbv zeta. rewrite F1, F2, F3, F4, Hrestored. auto 10. }
  clear Ha. symmetry in P3. rename P3 into Ha.
  rewrite (generate_tts_not_empty _ _ _ _ Ha). cbv zeta. bot_fields.
  rewrite F1, F2, F3, F4, Hrestored, Hpc, P1.
  destruct (play_audio_in_place (Channel channel_id (msg_guild m)) audio
              (Py.txt (display_name m)) ok (voice_manager b) c W G7 G8)
    as (_ & H2 & H3 & H4 & H5 & H6).
  simpl in H5, H6.
  split; [auto 10 |].
  right. exists audio, c, channel_id.
  rewrite E5 in Ha. auto 15.
Qed.

Lemma on_message_speaks_only_when_witness :
  let provider := fun _ : TTSHandler.request =>
                    TTSHandler.Streamed [TTSHandler.Chunk "audio" [Byte.x01]] in
  let b := with_voice_manager (Bot.join_voice Scenario.room 77 true init)
             fresh in
  let m := Message false "azacgamer" (Py.txt "hola xd") (Some 10) 1 77 in
  let b' := on_message provider false m b in
  tts_handler b' = tts_handler b /\
  clients (voice_manager b') = clients (voice_manager b) /\
  room_queue 1 (voice_manager b') = [Item [Byte.x01] (Py.txt "azacgamer")].
Proof.
  intros provider b m b'.
  destruct (on_message_speaks_only_when provider false m b)
    as ((_ & _ & _ & H1 & _ & H2 & _) & _).
  - apply wf_bindings, wf_join_channel, wf_init.
  - split; [exact H1 |]. split; [exact H2 |]. vm_compute. reflexivity.
Defined.

(** ** A message that is overtaken during its await *)

Lemma on_message_ignored_without_binding
    (provider : TTSHandler.request -> TTSHandler.provider_outcome)
    (ok : bool) (m : message) (b : bot) :
  voice_text_channels (voice_manager b) !! msg_guild m = None ->
  on_message provider ok m b = b.
Proof.
  intros Hn. unfold on_message.
  destruct (on_message_begin provider m b) as [b1 [p|]] eqn:Hbegin.
  - apply on_message_begin_accepts in Hbegin as ((_ & _ & _ & _ & _ & _ & H) & _).
    congruence.
  - by apply on_message_begin_ignores in Hbegin.
Qed.

(** A [leave_channel] that succeeds on a connected guild. *)
Lemma leave_channel_leaves (g : Z) (c : nat) (s : state) :
  wf s -> connected_client s g = Some c ->
  let s' := fst (leave_channel g true s) in
  snd (leave_channel g true s) = Returns /\ wf s' /\
  connected_client s' g = None /\ audio_queue s' !! g = None /\
  voice_text_channels s' !! g = None.
Proof.
  intros W H. cbv zeta.
  split; [| split; [by apply wf_leave_channel |]].
  - unfold leave_channel. rewrite H. unfold clean_up_queue.
    change (audio_queue (disconnect g c s)) with (audio_queue s).
    destruct (audio_queue s !! g) as [q|] eqn:Hq; [| reflexivity].
    destruct (wf_playing s W g) as [b Hb]; [eauto |].
    change (playing (with_audio_queue (delete g (audio_queue s))
                       (set_queue q [] (disconnect g c s))))
      with (playing s).
    by rewrite Hb.
  - unfold leave_channel. rewrite H.
    unfold clean_up_queue, disconnect, stop_player, set_queue. cbv zeta. fields.
    destruct (audio_queue s !! g) as [q|] eqn:Hq.
    + destruct (wf_playing s W g) as [b Hb]; [eauto |].
      fields. rewrite Hb. fields.
      unfold connected_client. fields.
      rewrite !lookup_delete_eq. by repeat split.
    + fields. unfold connected_client. fields.
      rewrite !lookup_delete_eq. by repeat split.
Qed.

(** [play_audio] on a guild that is not connected, when the connect
    succeeds. *)
Lemma play_audio_connects (channel : VoiceChannel)
    (audio_data : list Byte.byte) (username : Py.str) (s : state) :
  wf s -> connected_client s (ch_guild channel) = None ->
  let r := play_audio channel audio_data username true s in
  snd r = true /\
  connected_client (fst r) (ch_guild channel) = Some (length (clients s)) /\
  channel_of (fst r) (length (clients s)) = Some (ch_id channel) /\
  room_queue (ch_guild channel) (fst r)
  = room_queue (ch_guild channel) s ++ [Item audio_data username] /\
  voice_text_channels (fst r) = voice_text_channels s.
Proof.
  intros W Hc.
  pose proof (wf_connect channel s W) as W0.
  destruct (connect_connected channel s) as [C1 C2].
  pose proof (play_audio_enqueues (ch_guild channel)
                (Item audio_data username) (fst (connect channel s)) W0) as H.
  unfold play_audio. rewrite Hc. cbv zeta in *.
  destruct (connect channel s) as [s0 c0] eqn:Hconn.
  assert (Hc0 : c0 = length (clients s))
    by (unfold connect in Hconn; by simplify_eq).
  assert (Hq0 : room_queue (ch_guild channel) s0
                = room_queue (ch_guild channel) s)
    by (unfold connect in Hconn; by simplify_eq).
  assert (Hb0 : voice_text_channels s0 = voice_text_channels s)
    by (unfold connect in Hconn; by simplify_eq).
  simpl in C1, C2, W0, H. subst c0.
  destruct (decide (channel_of s0 (length (clients s))
                    = Some (ch_id channel))); [| done].
  destruct H as (H1 & H2 & H3 & H4).
  split; [exact H1 |].
  split; [by rewrite (connected_client_ext s0 _ _ H2 H3) |].
  split; [by rewrite (channel_of_ext s0 _ _ H3) |].
  split; [by rewrite H4, Hq0 |].
  rewrite <- Hb0.
  destruct (audio_queue s0 !! ch_guild channel) as [q|] eqn:Hq.
  - by rewrite Hq.
  - unfold create_task, new_queue. fields. by rewrite lookup_insert_eq.
Qed.

(** X12.  When the command [leave] runs while [on_message] awaits the audio
    of an accepted message, the message brings the bot back: its
    [play_audio] connects the guild to the author's channel again and
    queues the audio, but the text channel stays unbound, so that every
    later message of the guild is ignored. *)
Theorem pending_message_brings_the_bot_back
    (provider : TTSHandler.request -> TTSHandler.provider_outcome)
    (m : message) (b b1 : bot) (p : pending) (audio : list Byte.byte) :
  wf (voice_manager b) ->
  on_message_begin provider m b = (b1, Some p) ->
  p_audio p = Some audio ->
  let g := msg_guild m in
  let b2 := on_message_end p true (leave_voice g true b1) in
  let s2 := voice_manager b2 in
  (exists c, connected_client s2 g = Some c /\
             channel_of s2 c = author_voice m) /\
  room_queue g s2 = [Item audio (Py.txt (display_name m))] /\
  voice_text_channels s2 !! g = None /\
  (forall provider' ok' m',
     msg_guild m' = g -> on_message provider' ok' m' b2 = b2).
Proof.
  intros W Hbegin Ha g.
  destruct (on_message_begin_accepts provider m b b1 p Hbegin)
    as ((_ & _ & _ & _ & _ & (c & channel_id & G6 & G7 & G8 & Hpc) & _)
        & (_ & _ & _ & E4 & _) & (P1 & _ & P3)).
  rewrite P3 in Ha. pose proof (generate_tts_not_empty _ _ _ _ Ha) as Hne.
  rewrite <- P3 in Ha.
  destruct (leave_channel_leaves g c (voice_manager b) W G7)
    as (L1 & L2 & L3 & L4 & L5).
  set (s1 := Bot.leave_voice g true (voice_manager b)).
  assert (Hs1 : wf s1 /\ connected_client s1 g = None /\
                audio_queue s1 !! g = None /\
                voice_text_channels s1 !! g = None).
  { pose proof (leave_voice_clears_binding g true (voice_manager b) L1) as Hb.
    fold s1 in Hb. subst s1. unfold Bot.leave_voice in *.
    destruct (leave_channel g true (voice_manager b)) as [s' []];
      [| discriminate].
    simpl in *. split; [by apply wf_bindings |]. done. }
  destruct Hs1 as (W1 & C1 & A1 & B1).
  destruct (play_audio_connects (Channel channel_id g) audio
              (Py.txt (display_name m)) s1 W1 C1)
    as (_ & R1 & R2 & R3 & R4).
  simpl in R1, R2, R3.
  assert (Hs2 : voice_manager
                  (on_message_end p true (leave_voice g true b1))
                = fst (play_audio (Channel channel_id g) audio
                         (Py.txt (display_name m)) true s1)).
  { unfold on_message_end, leave_voice. cbv zeta.
    rewrite Ha, Hne, Hpc, P1, E4.
    by destruct (p_original p). }
  cbv zeta. rewrite Hs2.
  assert (Hq1 : room_queue g s1 = [])
    by (unfold room_queue; by rewrite A1).
  rewrite Hq1 in R3.
  assert (Hb2 : voice_text_channels
                  (fst (play_audio (Channel channel_id g) audio
                          (Py.txt (display_name m)) true s1)) !! g = None)
    by (by rewrite R4).
  split; [exists (length (clients s1)); by rewrite G6 |].
  split; [exact R3 |]. split; [exact Hb2 |].
  intros provider' ok' m' Hg.
  apply on_message_ignored_without_binding. by rewrite Hs2, Hg.
Qed.

Lemma pending_message_brings_the_bot_back_witness :
  let provider := fun _ : TTSHandler.request =>
                    TTSHandler.Streamed [TTSHandler.Chunk "audio" [Byte.x01]] in
  let b := with_voice_manager (Bot.join_voice Scenario.room 77 true init)
             fresh in
  let m := Message false "azacgamer" (Py.txt "hola") (Some 10) 1 77 in
  let b1 := fst (on_message_begin provider m b) in
  let p := Pending Scenario.room "azacgamer" None (Some [Byte.x01]) in
  let s2 := voice_manager (on_message_end p true (leave_voice 1 true b1)) in
  connected_client (voice_manager (leave_voice 1 true b1)) 1 = None /\
  room_queue 1 s2 = [Item [Byte.x01] (Py.txt "azacgamer")] /\
  voice_text_channels s2 !! 1 = None.
Proof.
  intros provider b m b1 p s2.
  split; [vm_compute; reflexivity |].
  destruct (pending_message_brings_the_bot_back provider m b b1 p [Byte.x01])
    as (_ & H1 & H2 & _).
  - apply wf_bindings, wf_join_channel, wf_init.
  - vm_compute. reflexivity.
  - reflexivity.
  - split; [exact H1 | exact H2].
Defined.

(** X13.  When a second message is accepted while [on_message] awaits the
    audio of a first one whose author has a voice of their own, the second
    finds that voice in the handler: its audio is requested in the voice
    of the first author unless its own author has a voice too, and in that
    case, when the first message is finished before the second, the voice
    that the second restores, and that the handler keeps, is the voice of
    the first author. *)
Theorem overlapping_messages_mix_the_voices
    (provider : TTSHandler.request -> TTSHandler.provider_outcome)
    (mA mB : message) (b bA bB : bot) (pA pB : pending) (okA okB : bool)
    (vA : string) :
  on_message_begin provider mA b = (bA, Some pA) ->
  user_voice b (display_name mA) = Some vA ->
  on_message_begin provider mB bA = (bB, Some pB) ->
  let b' := on_message_end pB okB (on_message_end pA okA bB) in
  p_audio pB
  = TTSHandler.generate_tts
      (set_voice (default vA (user_voice b (display_name mB)))
         (tts_handler b))
      provider (Autocorrector.autocorregir_mensaje (content mB)) /\
  (user_voice b (display_name mB) = None -> tts_handler b' = tts_handler b) /\
  (user_voice b (display_name mB) <> None ->
   tts_handler b' = set_voice vA (tts_handler b)).
Proof.
  intros HA HvA HB.
  destruct (on_message_begin_accepts provider mA b bA pA HA)
    as (_ & (_ & A2 & _ & _ & A5) & (_ & A7 & _)).
  destruct (on_message_begin_accepts provider mB bA bB pB HB)
    as (_ & (_ & _ & _ & _ & B5) & (_ & B7 & B8)).
  rewrite HvA in A5, A7.
  assert (Hv : user_voice bA (display_name mB)
               = user_voice b (display_name mB))
    by (unfold user_voice; by rewrite A2).
  rewrite Hv in B5, B7.
  assert (Hend : forall p ok b0,
             tts_handler (on_message_end p ok b0)
             = match p_original p with
               | Some v => set_voice v (tts_handler b0)
               | None => tts_handler b0
               end).
  { intros p ok b0. unfold on_message_end. cbv zeta.
    destruct (p_original p), (p_audio p) as [a|]; try reflexivity;
      by destruct (is_empty a). }
  cbv zeta. rewrite !Hend, A7, B7, B8, B5, A5.
  destruct (user_voice b (display_name mB)) as [vB|]; simpl.
  - split; [by destruct (tts_handler b) |].
    split; [done |]. intros _. by destruct (tts_handler b).
  - split; [done |].
    split; [| done]. intros _. by destruct (tts_handler b).
Qed.

Lemma overlapping_messages_mix_the_voices_witness :
  let provider := fun _ : TTSHandler.request =>
                    TTSHandler.Streamed [TTSHandler.Chunk "audio" [Byte.x01]] in
  let b := with_user_voices
             {["azacgamer" := "es-MX-JorgeNeural";
               "PDGadm" := "es-ES-AlvaroNeural"]}%string
             (with_voice_manager (Bot.join_voice Scenario.room 77 true init)
                fresh) in
  let mA := Message false "azacgamer" (Py.txt "hola") (Some 10) 1 77 in
  let mB := Message false "PDGadm" (Py.txt "adios") (Some 10) 1 77 in
  let bA := fst (on_message_begin provider mA b) in
  let bB := fst (on_message_begin provider mB bA) in
  let pA := Pending Scenario.room "azacgamer" (Some "es-ES-ElviraNeural")
              (Some [Byte.x01]) in
  let pB := Pending Scenario.room "PDGadm" (Some "es-MX-JorgeNeural")
              (Some [Byte.x01]) in
  TTSHandler.voice (tts_handler b) = "es-ES-ElviraNeural"%string /\
  TTSHandler.voice
    (tts_handler (on_message_end pB true (on_message_end pA true bB)))
  = "es-MX-JorgeNeural"%string.
Proof.
  intros provider b mA mB bA bB pA pB.
  split; [reflexivity |].
  destruct (overlapping_messages_mix_the_voices provider mA mB b bA bB pA pB
              true true "es-MX-JorgeNeural") as (_ & _ & H).
  - vm_compute. reflexivity.
  - vm_compute. reflexivity.
  - vm_compute. reflexivity.
  - rewrite H; [reflexivity |]. vm_compute. discriminate.
Defined.

(** ** The users and their voices *)







(** X15.  The silence of a user outlives their removal: a target user who
    is silenced, removed and added again (by anyone but [PDGadm], whom the
    test of [add] turns away) is a target user again, without the voice
    they had, and still silenced, so that their messages are ignored. *)
Theorem silence_outlives_removal (author u : string) (b : bot) :
  u ∈ target_users b -> author <> "PDGadm"%string ->
  let b' := add_user author u (remove_user u (silenciar_usuario u b)) in
  u ∈ target_users b' /\ user_voices b' !! u = None /\
  silenced b' u = true /\
  add_user "PDGadm" u (remove_user u (silenciar_usuario u b))
  = remove_user u (silenciar_usuario u b) /\
  (forall provider ok m,
     display_name m = u -> on_message provider ok m b' = b').
Proof.
  intros Hu Ha. cbv zeta.
  assert (H1 : silenciar_usuario u b
               = with_silenced_users
                   (Some ({[u]} ∪ default ∅ (silenced_users b))) b).
  { unfold silenciar_usuario. by rewrite bool_decide_eq_true_2. }
  rewrite H1.
  set (b1 := with_silenced_users _ b).
  assert (H2 : remove_user u b1
               = with_user_voices (delete u (user_voices b1))
                   (with_target_users (target_users b1 ∖ {[u]}) b1)).
  { unfold remove_user. by rewrite bool_decide_eq_true_2. }
  rewrite H2.
  set (b2 := with_user_voices _ _).
  assert (Hnot : u ∉ target_users b2).
  { subst b2 b1. bot_fields. intros [_ Hn]%elem_of_difference.
    by apply Hn, elem_of_singleton. }
  assert (H3 : add_user author u b2
               = with_target_users ({[u]} ∪ target_users b2) b2).
  { unfold add_user.
    destruct (String.eqb author "PDGadm") eqn:E;
      [by apply String.eqb_eq in E |].
    by rewrite bool_decide_eq_false_2. }
  rewrite H3.
  assert (Hs : silenced (with_target_users ({[u]} ∪ target_users b2) b2) u
               = true).
  { unfold silenced. subst b2 b1. bot_fields.
    apply bool_decide_eq_true_2. set_solver. }
  split; [bot_fields; set_solver |].
  split; [subst b2; bot_fields; apply lookup_delete_eq |].
  split; [exact Hs |].
  split; [reflexivity |].
  intros provider ok m Hm. unfold on_message.
  destruct (on_message_begin provider m _) as [b3 [p|]] eqn:Hbegin.
  - apply on_message_begin_accepts in Hbegin as ((_ & _ & _ & G4 & _) & _).
    rewrite Hm in G4. congruence.
  - by apply on_message_begin_ignores in Hbegin.
Qed.

Lemma silence_outlives_removal_witness :
  let b' := add_user "Clara <3" "azacgamer"
              (remove_user "azacgamer"
                 (silenciar_usuario "azacgamer" fresh)) in
  "azacgamer"%string ∈ target_users b' /\ silenced b' "azacgamer" = true.
Proof.
  intros b'.
  destruct (silence_outlives_removal "Clara <3" "azacgamer" fresh)
    as (H1 & _ & H2 & _).
  - cbn. set_solver.
  - discriminate.
  - split; [exact H1 | exact H2].
Defined.

(** ** The command [test] *)

(** X16.  The command [test] needs no [join]: on a guild that is not
    connected it connects the bot to the author's channel and queues the
    audio, but it binds no text channel, so that the messages of the guild
    are ignored as before. *)
Theorem test_connects_without_binding
    (provider : TTSHandler.request -> TTSHandler.provider_outcome)
    (text : Py.str) (channel : VoiceChannel) (audio : list Byte.byte)
    (b : bot) :
  wf (voice_manager b) ->
  connected_client (voice_manager b) (ch_guild channel) = None ->
  voice_text_channels (voice_manager b) !! ch_guild channel = None ->
  TTSHandler.generate_tts (tts_handler b) provider text = Some audio ->
  let b' := test_tts provider true (Some text) (Some channel) b in
  let s' := voice_manager b' in
  (exists c, connected_client s' (ch_guild channel) = Some c /\
             channel_of s' c = Some (ch_id channel)) /\
  room_queue (ch_guild channel) s'
  = room_queue (ch_guild channel) (voice_manager b)
    ++ [Item audio (Py.txt "Test")] /\
  (forall provider' ok' m,
     msg_guild m = ch_guild channel -> on_message provider' ok' m b' = b').
Proof.
  intros W Hc Hb Ha.
  pose proof (generate_tts_not_empty _ _ _ _ Ha) as Hne.
  assert (Ht : is_empty text = false).
  { destruct text; [| reflexivity]. vm_compute in Ha. discriminate. }
  destruct (play_audio_connects channel audio (Py.txt "Test")
              (voice_manager b) W Hc) as (_ & R1 & R2 & R3 & R4).
  assert (Hs : voice_manager
                 (test_tts provider true (Some text) (Some channel) b)
               = fst (play_audio channel audio (Py.txt "Test") true
                        (voice_manager b)))
    by (unfold test_tts; by rewrite Ht, Ha, Hne).
  cbv zeta. rewrite Hs.
  split; [eauto |]. split; [exact R3 |].
  intros provider' ok' m Hm.
  apply on_message_ignored_without_binding. by rewrite Hs, R4, Hm.
Qed.

Lemma test_connects_without_binding_witness :
  let provider := fun _ : TTSHandler.request =>
                    TTSHandler.Streamed [TTSHandler.Chunk "audio" [Byte.x01]] in
  let b' := test_tts provider true (Some (Py.txt "hola"))
              (Some Scenario.room) fresh in
  room_queue 1 (voice_manager b') = [Item [Byte.x01] (Py.txt "Test")].
Proof.
  intros provider b'.
  destruct (test_connects_without_binding provider (Py.txt "hola")
              Scenario.room [Byte.x01] fresh) as (_ & H & _).
  - apply wf_init.
  - reflexivity.
  - reflexivity.
  - vm_compute. reflexivity.
  - exact H.
Defined.

End Messages.

(** * More of the text pipeline *)

Section MoreText.

Import Py PyStr Re Autocorrector TTSHandler.

(** ** [' '.join(text.split())] *)

Lemma split_from_word (w rest cur : str) :
  Forall no_space w ->
  split_from cur (w ++ rest) = split_from (rev w ++ cur) rest.
Proof.
  revert cur. induction w as [|c w IH]; intros cur Hw; [reflexivity |].
  inversion Hw as [|? ? Hc Hw']; subst. simpl. rewrite Hc.
  rewrite IH by done. by rewrite <- app_assoc.
Qed.

Lemma split_join_words (ws : list str) :
  Forall is_word ws -> split (join (txt " ") ws) = ws.
Proof.
  unfold split. induction ws as [|w ws IH]; intros Hws; [reflexivity |].
  inversion Hws as [|? ? [Hne Hw] Hrest]; subst.
  destruct ws as [|w' ws].
  - simpl. rewrite <- (app_nil_r w) at 1.
    rewrite split_from_word by done. simpl. rewrite app_nil_r.
    destruct (rev w) eqn:E.
    + apply (f_equal (@rev ascii)) in E. rewrite rev_involutive in E. done.
    + by rewrite <- E, rev_involutive.
  - change (join (txt " ") (w :: w' :: ws))
      with (w ++ " "%char :: join (txt " ") (w' :: ws)).
    rewrite split_from_word by done. rewrite app_nil_r.
    change (split_from (rev w) (" "%char :: join (txt " ") (w' :: ws)))
      with (match rev w with
            | [] => split_from [] (join (txt " ") (w' :: ws))
            | _ => rev (rev w) :: split_from [] (join (txt " ") (w' :: ws))
            end).
    rewrite (IH Hrest).
    destruct (rev w) eqn:E.
    + apply (f_equal (@rev ascii)) in E. rewrite rev_involutive in E. done.
    + by rewrite <- E, rev_involutive.
Qed.

(** X17.  The white-space normalisation of [clean_text] keeps the words and
    is idempotent: splitting the joined words gives the words back, so
    that the normalised text has the words of the text and normalising it
    again changes nothing. *)
Theorem collapse_spaces_keeps_the_words (text : str) :
  split (collapse_spaces text) = split text /\
  collapse_spaces (collapse_spaces text) = collapse_spaces text /\
  Forall is_word (split text).
Proof.
  assert (Hw : Forall is_word (split text))
    by (apply split_from_words; constructor).
  assert (H : split (collapse_spaces text) = split text)
    by (apply split_join_words, Hw).
  split; [exact H |]. split; [| exact Hw].
  unfold collapse_spaces at 1. by rewrite H.
Qed.

(** ** The white space of a cleaned text *)

Lemma spaced_word (w rest : str) (b : bool) :
  is_word w -> spaced b (w ++ rest) = spaced false rest.
Proof.
  intros [Hne Hw]. revert b. induction w as [|c w IH]; intros b; [done |].
  inversion Hw as [|? ? Hc Hw']; subst. simpl. rewrite Hc.
  destruct w as [|c' w]; [reflexivity |]. by apply IH.
Qed.

Lemma spaced_join (ws : list str) :
  Forall is_word ws -> ws <> [] -> spaced true (join (txt " ") ws) = true.
Proof.
  induction ws as [|w ws IH]; intros Hws Hne; [done |].
  inversion Hws as [|? ? Hw Hrest]; subst.
  destruct ws as [|w' ws].
  - simpl. rewrite <- (app_nil_r w). by rewrite spaced_word.
  - change (join (txt " ") (w :: w' :: ws))
      with (w ++ " "%char :: join (txt " ") (w' :: ws)).
    rewrite spaced_word by done.
    change (spaced false (" "%char :: join (txt " ") (w' :: ws)))
      with (spaced true (join (txt " ") (w' :: ws))).
    by apply IH.
Qed.

Lemma spaced_take (t w : str) (b : bool) (n : nat) :
  spaced b t = true -> is_word w -> spaced b (take n t ++ w) = true.
Proof.
  intros Ht Hw.
  assert (Hend : forall b', spaced b' w = true).
  { intros b'. rewrite <- (app_nil_r w). by rewrite spaced_word. }
  revert b n Ht. induction t as [|c t IH]; intros b n Ht.
  - rewrite take_nil. apply Hend.
  - destruct n as [|n]; [apply Hend |].
    simpl in *. destruct (isspace c).
    + apply andb_true_iff in Ht as [Ht1 Ht2]. rewrite Ht1. simpl.
      by apply IH.
    + by apply IH.
Qed.

Lemma single_spaced_collapse (text : str) :
  single_spaced (collapse_spaces text) = true.
Proof.
  unfold collapse_spaces.
  assert (Hw : Forall is_word (split text))
    by (apply split_from_words; constructor).
  destruct (split text) as [|w ws] eqn:E; [reflexivity |].
  assert (H : spaced true (join (txt " ") (w :: ws)) = true)
    by (by apply spaced_join).
  unfold single_spaced. by destruct (join (txt " ") (w :: ws)).
Qed.

(** X18.  In the text that [clean_text] returns, also when it has been cut
    at 500 characters and given its dots, every white-space character is a
    single blank between two characters that are not white space: no tabs
    or line breaks, no run of blanks, no blank at either end. *)
Theorem clean_text_is_single_spaced (text : str) :
  single_spaced (clean_text text) = true.
Proof.
  unfold clean_text. cbv zeta.
  pose proof (collapse_spaces_trimmed (remove_markup text)) as Htr.
  pose proof (single_spaced_collapse (remove_markup text)) as Hs.
  fold (sanitized text) in Htr, Hs.
  destruct (500 <? length (sanitized text))%nat eqn:Hlen.
  - apply Nat.ltb_lt in Hlen.
    rewrite strip_trimmed by (by apply truncated_trimmed).
    assert (H : spaced true (take 500 (sanitized text) ++ ellipsis) = true).
    { apply spaced_take.
      - destruct (sanitized text); [simpl in Hlen; lia | exact Hs].
      - split; [done |]. by repeat constructor. }
    unfold single_spaced.
    by destruct (take 500 (sanitized text) ++ ellipsis).
  - by rewrite strip_trimmed.
Qed.

(** ** Texts without markup *)

Lemma rmatch_starts_lit {A : Type} (icase : bool) (c : ascii) (r : regex)
    (st : mstate) (k : mstate -> option A) :
  match m_rest st with
  | x :: _ => lit_eq icase c x = false
  | [] => True
  end ->
  rmatch icase (Cat (Lit c) r) st k = None.
Proof.
  simpl. destruct (m_rest st) as [|x t]; [done |]. by intros ->.
Qed.

Lemma rmatch_starts_word {A : Type} (icase : bool) (c : ascii)
    (r1 r2 : regex) (st : mstate) (k : mstate -> option A) :
  match m_rest st with
  | x :: _ => lit_eq icase c x = false
  | [] => True
  end ->
  rmatch icase (Cat (Cat (Lit c) r1) r2) st k = None.
Proof.
  intros H.
  exact (rmatch_starts_lit icase c r1 st (fun st1 => rmatch icase r2 st1 k) H).
Qed.

Lemma search_first_char (icase : bool) (r : regex) (c : ascii) (t : str) :
  (forall prev t',
     match t' with
     | x :: _ => lit_eq icase c x = false
     | [] => True
     end -> match_at icase r prev t' = None) ->
  Forall (fun x => lit_eq icase c x = false) t ->
  forall prev, search_from icase r prev t = false.
Proof.
  intros Hr. induction t as [|x t IH]; intros Ht prev; simpl.
  - by rewrite Hr.
  - inversion Ht as [|? ? Hx Ht']; subst. rewrite Hr by exact Hx. by apply IH.
Qed.

Lemma search_needs_part (r : regex) (part : str) :
  (forall prev t', startswith t' part = false ->
                   match_at false r prev t' = None) ->
  forall t prev, contains part t = false -> search_from false r prev t = false.
Proof.
  intros Hr. induction t as [|x t IH]; intros prev Hc; simpl in *.
  - apply orb_false_iff in Hc as [Hc _]. by rewrite Hr.
  - apply orb_false_iff in Hc as [Hc1 Hc2]. rewrite Hr by exact Hc1.
    by apply IH.
Qed.

Lemma url_needs_http (prev : option ascii) (t : str) :
  startswith t (txt "http") = false -> match_at false re_url prev t = None.
Proof.
  unfold match_at.
  change re_url
    with (Cat (Cat (Lit "h") (Cat (Lit "t") (Cat (Lit "t") (Cat (Lit "p") Eps))))
              (Seq [Opt (Lit "s"); Word "://";
                    Plus (Alt (Cls letter)
                         (Alt (Cls (between 48 57))
                         (Alt (Cls url_punct)
                         (Alt (Cls (one_of "!*\(\),"))
                              (Seq [Lit "%"; Cls hexdigit; Cls hexdigit])))))])).
  generalize (Seq [Opt (Lit "s"); Word "://";
                    Plus (Alt (Cls letter)
                         (Alt (Cls (between 48 57))
                         (Alt (Cls url_punct)
                         (Alt (Cls (one_of "!*\(\),"))
                              (Seq [Lit "%"; Cls hexdigit; Cls hexdigit])))))]).
  intros rest.
  change (txt "http") with ["h"; "t"; "t"; "p"]%char.
  destruct t as [|c1 [|c2 [|c3 [|c4 t]]]]; simpl; unfold lit_eq;
    repeat (match goal with
            | |- context [ascii_eqb ?a ?b] => destruct (ascii_eqb a b)
            end; simpl; try done).
  all: try done.
  all: by destruct t.
Qed.

Lemma plain_chars (t : str) :
  forallb (fun c => negb (one_of "<`*~_" c)) t = true ->
  forall p, In p (txt "<`*~_") ->
            Forall (fun x => lit_eq false p x = false) t.
Proof.
  intros H p Hp. apply Forall_forall. intros x Hx. unfold lit_eq.
  rewrite forallb_forall in H. apply list_elem_of_In in Hx.
  specialize (H x Hx). apply negb_true_iff in H.
  unfold one_of in H.
  destruct (ascii_eqb x p) eqn:E; [| reflexivity].
  exfalso. apply not_true_iff_false in H. apply H.
  apply existsb_exists. exists p. auto.
Qed.

(** X19.  A text with none of the characters [<], [`], [*], [~], [_] and
    without [http] goes through [clean_text] with its words unchanged: no
    substitution applies, and the result is the text with its white space
    normalised, cut at 500 characters if it is longer. *)
Theorem plain_text_is_only_respaced (text : str) :
  plain text = true ->
  remove_markup text = text /\
  clean_text text
  = if (500 <? length (collapse_spaces text))%nat
    then take 500 (collapse_spaces text) ++ ellipsis
    else collapse_spaces text.
Proof.
  intros H. apply andb_true_iff in H as [Hch Hurl].
  apply negb_true_iff in Hurl.
  pose proof (plain_chars text Hch) as Hp.
  assert (Hlt : Forall (fun x => lit_eq false "<" x = false) text)
    by (apply Hp; cbv; auto 10).
  assert (Hbt : Forall (fun x => lit_eq false "`" x = false) text)
    by (apply Hp; cbv; auto 10).
  assert (Hst : Forall (fun x => lit_eq false "*" x = false) text)
    by (apply Hp; cbv; auto 10).
  assert (Hti : Forall (fun x => lit_eq false "~" x = false) text)
    by (apply Hp; cbv; auto 10).
  assert (Hun : Forall (fun x => lit_eq false "_" x = false) text)
    by (apply Hp; cbv; auto 10).
  assert (Hword : forall c r1 r2 tpl,
             Forall (fun x => lit_eq false c x = false) text ->
             Re.sub false (Cat (Cat (Lit c) r1) r2) tpl text = text).
  { intros c r1 r2 tpl Hc. apply sub_no_match.
    apply (search_first_char false _ c); [| exact Hc].
    intros prev t' Ht'. by apply rmatch_starts_word. }
  assert (Hlit : forall c r tpl,
             Forall (fun x => lit_eq false c x = false) text ->
             Re.sub false (Cat (Lit c) r) tpl text = text).
  { intros c r tpl Hc. apply sub_no_match.
    apply (search_first_char false _ c); [| exact Hc].
    intros prev t' Ht'. by apply rmatch_starts_lit. }
  assert (Hm : remove_markup text = text).
  { unfold remove_markup. cbv zeta.
    rewrite (Hword "<"%char _ _ (Text []) Hlt : Re.sub false re_user_mention _ _ = _).
    rewrite (Hword "<"%char _ _ (Text []) Hlt
             : Re.sub false re_channel_mention _ _ = _).
    rewrite (Hword "<"%char _ _ (Text []) Hlt
             : Re.sub false re_custom_emoji _ _ = _).
    rewrite (Hword "`"%char _ _ (Text []) Hbt
             : Re.sub false re_code_block _ _ = _).
    rewrite (Hlit "`"%char _ (Text []) Hbt
             : Re.sub false re_inline_code _ _ = _).
    rewrite (Hword "*"%char _ _ Group1 Hst
             : Re.sub false (re_wrapped "**") _ _ = _).
    rewrite (Hword "*"%char _ _ Group1 Hst
             : Re.sub false (re_wrapped "*") _ _ = _).
    rewrite (Hword "~"%char _ _ Group1 Hti
             : Re.sub false (re_wrapped "~~") _ _ = _).
    rewrite (Hword "_"%char _ _ Group1 Hun
             : Re.sub false (re_wrapped "__") _ _ = _).
    apply sub_no_match.
    apply (search_needs_part re_url (txt "http")); [| exact Hurl].
    intros prev t'. apply url_needs_http. }
  split; [exact Hm |].
  unfold clean_text, sanitized. cbv zeta. rewrite Hm.
  pose proof (collapse_spaces_trimmed text) as Htr.
  destruct (500 <? length (collapse_spaces text))%nat eqn:Hlen.
  - apply Nat.ltb_lt in Hlen. by rewrite strip_trimmed by (by apply truncated_trimmed).
  - by rewrite strip_trimmed.
Qed.

Lemma plain_text_is_only_respaced_witness :
  clean_text (txt "  hola,   que tal?  ") = txt "hola, que tal?".
Proof.
  destruct (plain_text_is_only_respaced (txt "  hola,   que tal?  "))
    as [_ H]; [vm_compute; reflexivity |].
  rewrite H. vm_compute. reflexivity.
Defined.

(** ** The patterns of [_flexible_pattern_for] *)

Lemma isword_not_space (c : ascii) : isword c = true -> isspace c = false.
Proof.
  destruct c as [b0 b1 b2 b3 b4 b5 b6 b7].
  destruct b0, b1, b2, b3, b4, b5, b6, b7; vm_compute; congruence.
Qed.

Lemma isspace_lower (c : ascii) : isspace c = true -> lower c = c.
Proof.
  destruct c as [b0 b1 b2 b3 b4 b5 b6 b7].
  destruct b0, b1, b2, b3, b4, b5, b6, b7; vm_compute; congruence.
Qed.

Lemma isword_lower (c : ascii) : isword c = true -> isword (lower c) = true.
Proof.
  destruct c as [b0 b1 b2 b3 b4 b5 b6 b7].
  destruct b0, b1, b2, b3, b4, b5, b6, b7; vm_compute; congruence.
Qed.

Lemma lower_isword (c : ascii) : isword (lower c) = true -> isword c = true.
Proof.
  destruct c as [b0 b1 b2 b3 b4 b5 b6 b7].
  destruct b0, b1, b2, b3, b4, b5, b6, b7; vm_compute; congruence.
Qed.

Lemma ascii_eqb_eq (a b : ascii) : ascii_eqb a b = true <-> a = b.
Proof.
  unfold ascii_eqb, code. rewrite N.eqb_eq. split; [| by intros ->].
  intros H. by rewrite <- (ascii_N_embedding a), <- (ascii_N_embedding b), H.
Qed.

Lemma lit_eq_icase (p c : ascii) :
  lit_eq true p c = true <-> lower c = lower p.
Proof. unfold lit_eq. apply ascii_eqb_eq. Qed.

Lemma same_letter_word (c x : ascii) :
  lower x = lower c -> isword c = true -> isword x = true.
Proof.
  intros H Hc. apply lower_isword. rewrite H. by apply isword_lower.
Qed.

Lemma words_trimmed (t : str) :
  Forall (fun c => isword c = true) t -> trimmed t.
Proof.
  intros H. split; intros c Hc.
  - destruct t; simplify_eq/=. inversion H; subst. by apply isword_not_space.
  - apply last_Some_elem_of in Hc. rewrite Forall_forall in H.
    by apply isword_not_space, H.
Qed.

Lemma drop_final_spaces_snoc (ps : list piece) :
  drop_final_spaces (ps ++ [PSpaces]) = ps.
Proof.
  unfold drop_final_spaces. rewrite rev_app_distr. simpl.
  apply rev_involutive.
Qed.

Lemma pieces_of_words (c : ascii) (tl : str) :
  Forall (fun c => isword c = true) (c :: tl) ->
  concat (map pieces_for (c :: tl))
  = (PLit c :: concat (map (fun c' => [PSpaces; PLit c']) tl)) ++ [PSpaces].
Proof.
  revert c. induction tl as [|c' tl IH]; intros c H.
  - inversion H as [|? ? Hc _]; subst. simpl. unfold pieces_for.
    by rewrite (isword_not_space c Hc), Hc.
  - inversion H as [|? ? Hc H']; subst.
    change (concat (map pieces_for (c :: c' :: tl)))
      with (pieces_for c ++ concat (map pieces_for (c' :: tl))).
    rewrite (IH c' H'). unfold pieces_for at 1.
    by rewrite (isword_not_space c Hc), Hc.
Qed.

(** The pattern for a token of word characters: the characters with [\s*]
    between them. *)
Lemma flexible_pattern_of_words (c : ascii) (tl : str) :
  Forall (fun c => isword c = true) (c :: tl) ->
  _flexible_pattern_for (c :: tl)
  = Cat NotBehindWord
      (Cat (Seq (map regex_of_piece
                   (PLit c :: concat (map (fun c' => [PSpaces; PLit c']) tl))))
           NotAheadWord).
Proof.
  intros H. unfold _flexible_pattern_for. cbv zeta.
  rewrite strip_trimmed by (by apply words_trimmed).
  by rewrite pieces_of_words, drop_final_spaces_snoc.
Qed.

Lemma literals_of_words (c : ascii) (tl : str) :
  literals (PLit c :: concat (map (fun c' => [PSpaces; PLit c']) tl))
  = c :: tl.
Proof.
  unfold literals. simpl. f_equal.
  induction tl as [|c' tl IH]; [reflexivity |]. simpl. by rewrite IH.
Qed.

(** A greedy [\s*] before a character that is not white space takes all
    the white space, when the rest of the pattern then matches. *)
Lemma star_takes_the_spaces {A : Type} (k : mstate -> option A) (a : A)
    (spaces rest : str) :
  Forall (fun s => isspace s = true) spaces ->
  match rest with
  | c :: _ => isspace c = false
  | [] => True
  end ->
  forall n prev used grp,
    (length spaces <= n)%nat ->
    k (MState (match last spaces with Some c => Some c | None => prev end)
              rest (used + length spaces) grp) = Some a ->
    star_loop true (rmatch true (Cls isspace)) k n
      (MState prev (spaces ++ rest) used grp) = Some a.
Proof.
  intros Hs Hrest. induction Hs as [|s spaces Hsp Hs IH];
    intros n prev used grp Hn Hk.
  - simpl in *. rewrite Nat.add_0_r in Hk.
    destruct n as [|n]; [exact Hk |]. simpl.
    destruct rest as [|c rest]; [by rewrite Hk |]. by rewrite Hrest, Hk.
  - destruct n as [|n]; [simpl in Hn; lia |].
    change (star_loop true ?b k (S n) ?st)
      with (match b st (fun st1 =>
                          if (m_used st <? m_used st1)%nat
                          then star_loop true b k n st1 else None) with
            | Some a => Some a
            | None => k st
            end).
    change (rmatch true (Cls isspace) ?st ?kk)
      with (match m_rest st with
            | c :: t => if isspace c then kk (eat c t st) else None
            | [] => None
            end).
    cbn [m_rest app]. rewrite Hsp. unfold eat. cbn [m_used m_grp].
    rewrite (proj2 (Nat.ltb_lt used (S used))) by lia.
    rewrite (IH n (Some s) (S used) grp); [reflexivity | simpl in Hn; lia |].
    rewrite <- Hk. f_equal. f_equal.
    + destruct spaces as [|s' spaces]; [reflexivity |].
      rewrite last_cons_cons, (last_cons s' spaces).
      by destruct (last spaces).
    + simpl. lia.
Qed.

Lemma written_head (token subject : str) :
  written token subject ->
  exists c tl x t, token = c :: tl /\ subject = x :: t /\ lower x = lower c.
Proof. intros [c x H | c x spaces tl s H _ _]; eauto 10. Qed.

Lemma rmatch_written {A : Type} (token subject : str) :
  written token subject ->
  Forall (fun c => isword c = true) token ->
  forall (k : mstate -> option A) (a : A) rest prev used grp,
    k (MState (last subject) rest (used + length subject) grp) = Some a ->
    rmatch true
      (Seq (map regex_of_piece
              match token with
              | c :: tl =>
                  PLit c :: concat (map (fun c' => [PSpaces; PLit c']) tl)
              | [] => []
              end))
      (MState prev (subject ++ rest) used grp) k = Some a.
Proof.
  induction 1 as [c x Hx | c x spaces token subject Hx Hsp Hw IH];
    intros Htok k a rest prev used grp Hk.
  - unfold Seq. cbn [map concat regex_of_piece foldr rmatch m_rest app].
    rewrite (proj2 (lit_eq_icase c x) Hx). unfold eat. cbn [m_used m_grp].
    rewrite <- Hk. f_equal. f_equal. simpl. lia.
  - inversion Htok as [|? ? Hc Htok']; subst.
    destruct (written_head token subject Hw)
      as (c' & tl & x' & t & -> & -> & Hx').
    specialize (IH Htok').
    change (Seq (map regex_of_piece
                   (PLit c
                    :: concat (map (fun c' => [PSpaces; PLit c']) (c' :: tl)))))
      with (Cat (Lit c)
              (Cat (Star true (Cls isspace))
                 (Seq (map regex_of_piece
                         (PLit c'
                          :: concat (map (fun c' => [PSpaces; PLit c']) tl)))))).
    change (rmatch true (Cat (Lit c) ?r) ?st k)
      with (rmatch true (Lit c) st (fun st1 => rmatch true r st1 k)).
    cbn [rmatch m_rest app].
    rewrite (proj2 (lit_eq_icase c x) Hx). unfold eat. cbn [m_used m_grp].
    rewrite <- app_assoc.
    apply star_takes_the_spaces.
    + exact Hsp.
    + cbn [app]. apply isword_not_space.
      inversion Htok' as [|? ? Hc' _]; subst. by eapply same_letter_word.
    + cbn [m_rest]. rewrite length_app. lia.
    + apply IH. rewrite <- Hk. f_equal. f_equal.
      * rewrite (last_cons x), last_app_cons, (last_cons x' t).
        by destruct (last t).
      * rewrite (length_cons x), length_app. lia.
Qed.

Lemma flexible_match_at_end (token : str) (prev : option ascii) :
  Forall (fun c => isword c = true) token -> token <> [] ->
  match_at true (_flexible_pattern_for token) prev [] = None.
Proof.
  intros H Hne. destruct token as [|c tl]; [done |].
  rewrite flexible_pattern_of_words by done.
  unfold match_at. simpl. by destruct prev as [p|]; [destruct (isword p) |].
Qed.

Lemma sub_scan_skips (icase : bool) (r : regex) (tpl : template) (t : str) :
  (forall prev, match_at icase r prev [] = None) ->
  forall prev, sub_scan icase r tpl prev t (length t) = [].
Proof.
  intros H. induction t as [|c t IH]; intros prev; simpl.
  - by rewrite H.
  - apply IH.
Qed.

(** X20.  The pattern that [_flexible_pattern_for] builds for a token of
    word characters matches the token written in any case and with any
    white space between its characters, all of it and as one match, where
    no word character stands before or after it; a message that is such a
    spelling of the token is replaced as a whole. *)
Theorem flexible_pattern_tolerates_case_and_spaces
    (token subject rest repl : str) (prev : option ascii) :
  Forall (fun c => isword c = true) token ->
  written token subject ->
  match prev with Some c => isword c = false | None => True end ->
  match rest with c :: _ => isword c = false | [] => True end ->
  match_at true (_flexible_pattern_for token) prev (subject ++ rest)
  = Some (length subject, []) /\
  Re.sub true (_flexible_pattern_for token) (Text repl) subject = repl.
Proof.
  intros Htok Hw Hprev Hrest.
  assert (Hm : forall prev rest,
             match prev with Some c => isword c = false | None => True end ->
             match rest with c :: _ => isword c = false | [] => True end ->
             match_at true (_flexible_pattern_for token) prev (subject ++ rest)
             = Some (length subject, [])).
  { clear prev rest Hprev Hrest. intros prev rest Hprev Hrest.
    destruct (written_head token subject Hw)
      as (c & tl & x & t & -> & Hsubject & Hx).
    rewrite flexible_pattern_of_words by done.
    unfold match_at.
    change (rmatch true (Cat NotBehindWord (Cat ?p NotAheadWord)) ?st ?k)
      with (rmatch true NotBehindWord st
              (fun st1 => rmatch true p st1
                            (fun st2 => rmatch true NotAheadWord st2 k))).
    assert (Hb : forall k : mstate -> option (nat * str),
               rmatch true NotBehindWord (MState prev (subject ++ rest) 0 []) k
               = k (MState prev (subject ++ rest) 0 [])).
    { intros k. simpl. destruct prev as [p|]; [by rewrite Hprev | reflexivity]. }
    rewrite Hb.
    apply (rmatch_written (A := nat * str) (c :: tl) subject Hw Htok).
    simpl. destruct rest as [|r0 rest]; [reflexivity | by rewrite Hrest]. }
  split; [by apply Hm |].
  destruct subject as [|x t] eqn:Hs;
    [by destruct (written_head _ _ Hw) as (? & ? & ? & ? & _ & ? & _) |].
  specialize (Hm None [] I I). rewrite app_nil_r in Hm.
  unfold Re.sub. cbn [sub_scan]. rewrite Hm. cbn [length expand].
  rewrite sub_scan_skips; [apply app_nil_r |].
  intros prev'. apply flexible_match_at_end; [exact Htok |].
  by destruct (written_head _ _ Hw) as (? & ? & ? & ? & -> & _).
Qed.

Lemma flexible_pattern_tolerates_case_and_spaces_witness :
  Re.sub true (_flexible_pattern_for (txt "wtf")) (Text (txt "watafac"))
    (txt "W  t F") = txt "watafac".
Proof.
  destruct (flexible_pattern_tolerates_case_and_spaces
              (txt "wtf") (txt "W  t F") [] (txt "watafac") None) as [_ H].
  - by repeat constructor.
  - apply (written_more "w" "W" (txt "  ") (txt "tf") (txt "t F")); [reflexivity | by repeat constructor |].
    apply (written_more "t" "t" (txt " ") (txt "f") (txt "F")); [reflexivity | by repeat constructor |].
    by apply written_last.
  - exact I.
  - exact I.
  - exact H.
Defined.

(** ** Messages of one word *)











Lemma same_letters_words (a b : str) :
  map lower a = map lower b ->
  Forall (fun c => isword c = true) a -> Forall (fun c => isword c = true) b.
Proof.
  revert b. induction a as [|x a IH]; intros [|y b] H Ha; try discriminate.
  - constructor.
  - simpl in H. injection H as Hx H. inversion Ha; subst.
    constructor; [| by apply IH].
    by apply (same_letter_word x y).
Qed.









End MoreText.

(** * More commands of bot.py *)

Section MoreCommands.

Import PyStr DiscordTTSBot BotCommands.

Ltac bot_fields :=
  cbn [target_users user_voices silenced_users tts_handler voice_manager
       with_target_users with_user_voices with_silenced_users
       with_tts_handler with_voice_manager] in *.

(** ** [fix] *)







(** ** [repetir] *)

(** [play_audio] when the awaited call, if there is one, succeeds. *)
Lemma play_audio_succeeds (channel : VoiceChannel)
    (audio_data : list Byte.byte) (username : Py.str) (s : state) :
  wf s ->
  let r := play_audio channel audio_data username true s in
  wf (fst r) /\
  (exists c, connected_client (fst r) (ch_guild channel) = Some c /\
             channel_of (fst r) c = Some (ch_id channel)) /\
  room_queue (ch_guild channel) (fst r)
  = room_queue (ch_guild channel) s ++ [Item audio_data username].
Proof.
  intros W. cbv zeta.
  split; [by apply wf_play_audio |].
  destruct (connected_client s (ch_guild channel)) as [c|] eqn:Hc.
  - destruct (decide (channel_of s c = Some (ch_id channel))) as [Hch|Hch].
    + destruct (play_audio_in_place channel audio_data username true s c
                  W Hc Hch) as (_ & H2 & H3 & _ & _ & H6).
      split; [| exact H6].
      exists c. by rewrite (connected_client_ext s _ _ H2 H3),
                           (channel_of_ext s _ _ H3).
    + destruct (move_to_connected c channel s _ Hc) as [M1 M2].
      pose proof (wf_move_to c channel s W) as Wm.
      pose proof (play_audio_enqueues (ch_guild channel)
                    (Item audio_data username) (move_to c channel s) Wm) as H.
      unfold play_audio. rewrite Hc. cbv zeta in *.
      destruct (decide (channel_of s c = Some (ch_id channel))); [done |].
      destruct H as (_ & H2 & H3 & H4).
      split; [| exact H4].
      exists c. by rewrite (connected_client_ext (move_to c channel s) _ _ H2 H3),
                           (channel_of_ext (move_to c channel s) _ _ H3).
  - destruct (play_audio_connects channel audio_data username s W Hc)
      as (_ & R1 & R2 & R3 & _).
    split; [eauto | exact R3].
Qed.

Lemma repetir_once_queues
    (provider : TTSHandler.request -> TTSHandler.provider_outcome)
    (texto : Py.str) (channel : VoiceChannel) (audio : list Byte.byte)
    (b : bot) (i : nat) :
  wf (voice_manager b) ->
  TTSHandler.generate_tts (tts_handler b) provider texto = Some audio ->
  let b' := repetir_once provider true texto channel b i in
  wf (voice_manager b') /\ tts_handler b' = tts_handler b /\
  room_queue (ch_guild channel) (voice_manager b')
  = room_queue (ch_guild channel) (voice_manager b)
    ++ [Item audio (Py.txt "Repetir " ++ str_of_nat (i + 1))].
Proof.
  intros W Ha. cbv zeta. unfold repetir_once. rewrite Ha.
  rewrite (generate_tts_not_empty _ _ _ _ Ha). bot_fields.
  destruct (play_audio_succeeds channel audio
              (Py.txt "Repetir " ++ str_of_nat (i + 1)) (voice_manager b) W)
    as (H1 & _ & H3).
  auto.
Qed.

(** X24.  The command [repetir] takes from 1 to 100 repetitions (its message
    speaks of 5) and does nothing outside that range.  Handled without
    interruption, with the speech synthesis and the connection working, it
    puts one job for each repetition at the end of the queue of the guild,
    named [Repetir 1], [Repetir 2] and so on, in this order. *)
Theorem repetir_queues_each_repetition
    (provider : TTSHandler.request -> TTSHandler.provider_outcome)
    (veces : Z) (texto : Py.str) (channel : VoiceChannel)
    (audio : list Byte.byte) (b : bot) :
  wf (voice_manager b) ->
  TTSHandler.generate_tts (tts_handler b) provider texto = Some audio ->
  let b' := repetir_tts provider true veces (Some texto) (Some channel) b in
  (1 <= veces <= 100 ->
   room_queue (ch_guild channel) (voice_manager b')
   = room_queue (ch_guild channel) (voice_manager b)
     ++ map (fun i => Item audio (Py.txt "Repetir " ++ str_of_nat (i + 1)))
            (seq 0 (Z.to_nat veces))) /\
  (veces < 1 \/ 100 < veces -> b' = b).
Proof.
  intros W Ha. cbv zeta.
  assert (Ht : is_empty texto = false).
  { destruct texto; [| reflexivity]. vm_compute in Ha. discriminate. }
  unfold repetir_tts. rewrite Ht.
  split.
  - intros [Hlo Hhi].
    rewrite (proj2 (Z.ltb_ge veces 1)) by lia.
    rewrite (proj2 (Z.ltb_ge 100 veces)) by lia. simpl.
    generalize (Z.to_nat veces). intros n.
    assert (H : wf (voice_manager
                      (foldl (repetir_once provider true texto channel) b
                         (seq 0 n))) /\
                tts_handler (foldl (repetir_once provider true texto channel)
                               b (seq 0 n)) = tts_handler b /\
                room_queue (ch_guild channel)
                  (voice_manager
                     (foldl (repetir_once provider true texto channel) b
                        (seq 0 n)))
                = room_queue (ch_guild channel) (voice_manager b)
                  ++ map (fun i => Item audio
                                     (Py.txt "Repetir " ++ str_of_nat (i + 1)))
                         (seq 0 n)).
    { induction n as [|n (IW & IT & IQ)].
      - simpl. by rewrite app_nil_r.
      - rewrite seq_S, foldl_app, map_app. simpl.
        destruct (repetir_once_queues provider texto channel audio _ n IW)
          as (H1 & H2 & H3); [by rewrite IT |].
        split; [exact H1 |]. split; [by rewrite H2 |].
        by rewrite H3, IQ, <- app_assoc. }
    apply H.
  - intros [Hlo | Hhi].
    + by rewrite (proj2 (Z.ltb_lt veces 1)) by lia.
    + rewrite (proj2 (Z.ltb_lt 100 veces)) by lia. by rewrite orb_true_r.
Qed.

Lemma repetir_queues_each_repetition_witness :
  let provider := fun _ : TTSHandler.request =>
                    TTSHandler.Streamed [TTSHandler.Chunk "audio" [Byte.x01]] in
  let b' := repetir_tts provider true 12 (Some (Py.txt "hola"))
              (Some Scenario.room) fresh in
  length (room_queue 1 (voice_manager b')) = 12%nat /\
  last (room_queue 1 (voice_manager b'))
  = Some (Item [Byte.x01] (Py.txt "Repetir 12")).
Proof.
  intros provider b'.
  destruct (repetir_queues_each_repetition provider 12 (Py.txt "hola")
              Scenario.room [Byte.x01] fresh) as [H _].
  - apply wf_init.
  - vm_compute. reflexivity.
  - specialize (H ltac:(lia)).
    change (room_queue 1 (voice_manager b')
            = [] ++ map (fun i => Item [Byte.x01]
                                    (Py.txt "Repetir " ++ str_of_nat (i + 1)))
                        (seq 0 12)) in H.
    rewrite H. split; vm_compute; reflexivity.
Defined.

End MoreCommands.

(** * The voices of tts_handler.py *)

Section Voices.

Import TTSHandler DiscordTTSBot TTSVoices.

Lemma key_lt_asym (a b : edge_voice) : key_lt a b = true -> key_lt b a = false.
Proof.
  unfold key_lt.
  rewrite (String.compare_antisym (Locale a) (Locale b)).
  rewrite (String.compare_antisym (ShortName a) (ShortName b)).
  destruct (String.compare (Locale b) (Locale a)); simpl; try done.
  by destruct (String.compare (ShortName b) (ShortName a)).
Qed.

Lemma insert_voice_perm (x : edge_voice) (l : list edge_voice) :
  insert_voice x l ≡ₚ x :: l.
Proof.
  induction l as [|y l IH]; simpl; [reflexivity |].
  destruct (key_lt x y); [reflexivity |].
  rewrite IH. apply Permutation_swap.
Qed.

Lemma sort_voices_perm (l : list edge_voice) : sort_voices l ≡ₚ l.
Proof.
  unfold sort_voices.
  assert (H : forall acc,
             foldl (fun sorted x => insert_voice x sorted) acc l ≡ₚ l ++ acc).
  { induction l as [|x l IH]; intros acc; simpl; [reflexivity |].
    rewrite IH, insert_voice_perm. by rewrite Permutation_middle. }
  by rewrite H, app_nil_r.
Qed.

Lemma insert_voice_head (x y : edge_voice) (l : list edge_voice) :
  Sorted.HdRel (fun a b => key_lt b a = false) y l ->
  key_lt x y = false ->
  Sorted.HdRel (fun a b => key_lt b a = false) y (insert_voice x l).
Proof.
  intros H Hxy. destruct l as [|z l]; simpl.
  - by constructor.
  - inversion H; subst. destruct (key_lt x z); by constructor.
Qed.

Lemma insert_voice_sorted (x : edge_voice) (l : list edge_voice) :
  Sorted.Sorted (fun a b => key_lt b a = false) l ->
  Sorted.Sorted (fun a b => key_lt b a = false) (insert_voice x l).
Proof.
  induction 1 as [|y l Hl IH Hy]; simpl.
  - by repeat constructor.
  - destruct (key_lt x y) eqn:E.
    + constructor; [by constructor |]. constructor. by apply key_lt_asym.
    + constructor; [exact IH |]. by apply insert_voice_head.
Qed.

Lemma sort_voices_sorted (l : list edge_voice) :
  Sorted.Sorted (fun a b => key_lt b a = false) (sort_voices l).
Proof.
  unfold sort_voices.
  assert (H : forall acc,
             Sorted.Sorted (fun a b => key_lt b a = false) acc ->
             Sorted.Sorted (fun a b => key_lt b a = false)
               (foldl (fun sorted x => insert_voice x sorted) acc l)).
  { induction l as [|x l IH]; intros acc Hacc; simpl; [exact Hacc |].
    by apply IH, insert_voice_sorted. }
  apply H. constructor.
Qed.

Lemma get_available_voices_elem (listed : option (list edge_voice))
    (voice : edge_voice) :
  voice ∈ get_available_voices listed ->
  exists all, listed = Some all /\ voice ∈ all /\
              Locale voice ∈ spanish_locales.
Proof.
  unfold get_available_voices. destruct listed as [all|];
    [| by intros ?%elem_of_nil].
  rewrite sort_voices_perm.
  rewrite list_elem_of_In, filter_In, <- list_elem_of_In.
  rewrite bool_decide_eq_true. intros [H1 H2]. eauto.
Qed.

(** X25.  [get_available_voices] returns the voices of [list_voices] whose
    locale is one of the 21 Spanish locales, each as often as it is listed
    and no other, ordered so that no voice is followed by one with a
    smaller pair of locale and short name; it returns the empty list when
    [list_voices] raises. *)
Theorem get_available_voices_sorted_spanish
    (listed : option (list edge_voice)) :
  let found := get_available_voices listed in
  Sorted.Sorted (fun a b => key_lt b a = false) found /\
  found ≡ₚ match listed with
           | Some all =>
               List.filter
                 (fun voice => bool_decide (Locale voice ∈ spanish_locales))
                 all
           | None => []
           end /\
  (forall voice,
     voice ∈ found <->
     exists all, listed = Some all /\ voice ∈ all /\
                 Locale voice ∈ spanish_locales).
Proof.
  cbv zeta. unfold get_available_voices.
  destruct listed as [all|].
  - split; [apply sort_voices_sorted |].
    split; [apply sort_voices_perm |].
    intros voice. rewrite sort_voices_perm.
    rewrite list_elem_of_In, filter_In, <- list_elem_of_In.
    rewrite bool_decide_eq_true. split.
    + intros [H1 H2]. eauto.
    + intros (all' & [= <-] & H1 & H2). auto.
  - split; [constructor |]. split; [reflexivity |].
    intros voice. split.
    + by intros ?%elem_of_nil.
    + by intros (all & ? & _).
Qed.

Lemma get_available_voices_sorted_spanish_witness :
  map ShortName
    (get_available_voices
       (Some [Voice "es-MX" "es-MX-JorgeNeural" "Male";
              Voice "en-US" "en-US-GuyNeural" "Male";
              Voice "es-ES" "es-ES-ElviraNeural" "Female";
              Voice "es-ES" "es-ES-AlvaroNeural" "Male"]))
  = ["es-ES-AlvaroNeural"; "es-ES-ElviraNeural"; "es-MX-JorgeNeural"]%string.
Proof.
  destruct (get_available_voices_sorted_spanish
              (Some [Voice "es-MX" "es-MX-JorgeNeural" "Male";
                     Voice "en-US" "en-US-GuyNeural" "Male";
                     Voice "es-ES" "es-ES-ElviraNeural" "Female";
                     Voice "es-ES" "es-ES-AlvaroNeural" "Male"]))
    as (_ & _ & _).
  vm_compute. reflexivity.
Defined.

(** X26.  The command [voz_set] records a voice for a user only if the user
    is a target user and [list_voices] has just listed a voice of that
    short name with a Spanish locale (and, for the restricted voice, only
    if the user is [Clara <3]); when [list_voices] raises, or in any other
    case, the bot is left as it is. *)
Theorem voz_set_takes_listed_spanish_voices (username voice_name : string)
    (listed : option (list edge_voice)) (b : bot) :
  let b' := set_user_voice username voice_name (voice_names listed) b in
  b' = b \/
  (b' = with_user_voices (<[username := voice_name]> (user_voices b)) b /\
   username ∈ target_users b /\
   (voice_name = Restricted_voice -> username = "Clara <3"%string) /\
   exists all voice,
     listed = Some all /\ voice ∈ all /\ ShortName voice = voice_name /\
     Locale voice ∈ spanish_locales).
Proof.
  cbv zeta. unfold set_user_voice.
  destruct (bool_decide (username ∈ target_users b)) eqn:Ht; [| by left].
  apply bool_decide_eq_true in Ht. simpl.
  destruct (String.eqb voice_name Restricted_voice
            && negb (String.eqb username "Clara <3")) eqn:Hr; [by left |].
  destruct (bool_decide (voice_name ∈ voice_names listed)) eqn:Hv;
    [| by left].
  apply bool_decide_eq_true in Hv. simpl. right.
  split; [reflexivity |]. split; [exact Ht |].
  split.
  - intros ->. rewrite String.eqb_refl in Hr. simpl in Hr.
    apply negb_false_iff in Hr. by apply String.eqb_eq in Hr.
  - unfold voice_names in Hv.
    apply list_elem_of_In, in_map_iff in Hv as (voice & Hn & Hin).
    apply list_elem_of_In in Hin.
    destruct (get_available_voices_elem listed voice Hin)
      as (all & Hl & Ha & Hs).
    eauto 10.
Qed.

Lemma voz_set_takes_listed_spanish_voices_witness :
  user_voices
    (set_user_voice "azacgamer" "en-US-GuyNeural"
       (voice_names (Some [Voice "en-US" "en-US-GuyNeural" "Male";
                           Voice "es-MX" "es-MX-JorgeNeural" "Male"]))
       fresh) = ∅.
Proof.
  destruct (voz_set_takes_listed_spanish_voices "azacgamer" "en-US-GuyNeural"
              (Some [Voice "en-US" "en-US-GuyNeural" "Male";
                     Voice "es-MX" "es-MX-JorgeNeural" "Male"]) fresh)
    as [H | (_ & _ & _ & all & voice & _ & _ & _ & _)];
    vm_compute; reflexivity.
Defined.

(** ** [rotate_voice] *)

Lemma rotate_voice_index (self : rotation) (n : nat) :
  current_voice_index (Nat.iter (S n) rotate_voice self)
  = ((current_voice_index self + S n) mod 4)%nat.
Proof.
  induction n as [|n IH].
  - simpl. unfold rotate_voice. simpl. reflexivity.
  - change (Nat.iter (S (S n)) rotate_voice self)
      with (rotate_voice (Nat.iter (S n) rotate_voice self)).
    unfold rotate_voice at 1. cbv zeta. cbn [current_voice_index].
    rewrite IH. change (length voices) with 4%nat.
    rewrite Nat.Div0.add_mod_idemp_l. f_equal. lia.
Qed.

Lemma rotate_voice_settings (self : rotation) (n : nat) :
  rate (rot_handler (Nat.iter n rotate_voice self)) = rate (rot_handler self) /\
  volume (rot_handler (Nat.iter n rotate_voice self))
  = volume (rot_handler self).
Proof.
  induction n as [|n [IH1 IH2]]; [done |]. simpl. auto.
Qed.

Lemma rotate_voice_voice (self : rotation) :
  voice (rot_handler (rotate_voice self))
  = nth (current_voice_index (rotate_voice self)) voices ""%string.
Proof. reflexivity. Qed.

(** X27.  [rotate_voice] steps through the four voices in a cycle: after one
    or more rotations the index is the old index plus the number of
    rotations, modulo 4, the voice is the voice of [self.voices] at that
    index, and four more rotations lead back to the same handler; the rate
    and the volume are never changed.  The index is blind to [set_voice]:
    a voice set by hand is forgotten by the next rotation, and the first
    rotation of a new handler, whose voice is the entry 1 while its index
    is 0, leaves the voice as it is. *)
Theorem rotate_voice_cycles (self : rotation) (n : nat) :
  let rotated := Nat.iter (S n) rotate_voice self in
  current_voice_index rotated = ((current_voice_index self + S n) mod 4)%nat /\
  voice (rot_handler rotated)
  = nth (current_voice_index rotated) voices ""%string /\
  rate (rot_handler rotated) = rate (rot_handler self) /\
  volume (rot_handler rotated) = volume (rot_handler self) /\
  Nat.iter 4 rotate_voice rotated = rotated /\
  (forall voice_name,
     rotate_voice (set_voice voice_name self) = rotate_voice self) /\
  voice (rot_handler (rotate_voice new_handler))
  = voice (rot_handler new_handler).
Proof.
  cbv zeta.
  pose proof (rotate_voice_index self n) as Hi.
  destruct (rotate_voice_settings self (S n)) as [Hr Hv].
  split; [exact Hi |]. split; [reflexivity |].
  split; [exact Hr |]. split; [exact Hv |].
  split; [| split; [reflexivity | reflexivity]].
  set (r := Nat.iter (S n) rotate_voice self) in *.
  assert (Hlt : (current_voice_index r < 4)%nat)
    by (rewrite Hi; apply Nat.mod_upper_bound; lia).
  assert (Hvoice : voice (rot_handler r)
                   = nth (current_voice_index r) voices ""%string)
    by reflexivity.
  pose proof (rotate_voice_index r 3) as Hi4.
  destruct (rotate_voice_settings r 4) as [Hr4 Hv4].
  assert (Hidx : current_voice_index (Nat.iter 4 rotate_voice r)
                 = current_voice_index r).
  { rewrite Hi4. rewrite <- (Nat.mod_small (current_voice_index r) 4) at 2
      by exact Hlt.
    replace (current_voice_index r + 4)%nat
      with (current_voice_index r + 1 * 4)%nat by lia.
    apply Nat.Div0.mod_add. }
  assert (Hvoice4 : voice (rot_handler (Nat.iter 4 rotate_voice r))
                    = nth (current_voice_index (Nat.iter 4 rotate_voice r))
                          voices ""%string)
    by reflexivity.
  rewrite Hidx, <- Hvoice in Hvoice4.
  destruct (Nat.iter 4 rotate_voice r) as [[v4 r4 vol4] i4],
           r as [[v0 r0 vol0] i0].
  cbn [rot_handler current_voice_index voice rate volume] in *. congruence.
Qed.

End Voices.

(** * config.py *)

Section Config.

Import BotConfig.

Lemma remove_first_snoc (x : string) (l : list string) :
  x ∉ l -> remove_first x (l ++ [x]) = l.
Proof.
  induction l as [|y l IH]; intros H; simpl.
  - by rewrite String.eqb_refl.
  - apply not_elem_of_cons in H as [Hne H].
    destruct (String.eqb y x) eqn:E; [by apply String.eqb_eq in E; subst |].
    by rewrite IH.
Qed.

Lemma remove_first_subset (x y : string) (l : list string) :
  y ∈ remove_first x l -> y ∈ l.
Proof.
  induction l as [|z l IH]; simpl; [done |].
  destruct (String.eqb z x); [by apply list_elem_of_further |].
  intros [->|H]%elem_of_cons; [by left | right; by apply IH].
Qed.

Lemma remove_first_NoDup (x : string) (l : list string) :
  NoDup l -> NoDup (remove_first x l) /\ x ∉ remove_first x l.
Proof.
  induction 1 as [|y l Hy Hl [IH1 IH2]]; simpl.
  - split; [constructor | apply not_elem_of_nil].
  - destruct (String.eqb y x) eqn:E.
    + apply String.eqb_eq in E. subst. auto.
    + apply String.eqb_neq in E. split.
      * constructor; [| exact IH1]. intros H. by apply Hy, (remove_first_subset x).
      * apply not_elem_of_cons. auto.
Qed.

(** X28.  [add_target_user] and [remove_target_user] keep the list of target
    users free of duplicates: adding a user twice is adding them once, a
    user is in the list after being added and, in a list without
    duplicates, out of it after being removed, and removing a user who has
    just been added to a list that did not have them gives the list
    back. *)
Theorem target_users_add_and_remove (username : string)
    (users : list string) :
  username ∈ add_target_user username users /\
  add_target_user username (add_target_user username users)
  = add_target_user username users /\
  (username ∉ users ->
   remove_target_user username (add_target_user username users) = users) /\
  (NoDup users ->
   NoDup (add_target_user username users) /\
   NoDup (remove_target_user username users) /\
   username ∉ remove_target_user username users).
Proof.
  assert (Hin : username ∈ add_target_user username users).
  { unfold add_target_user. destruct (bool_decide _) eqn:E.
    - by apply bool_decide_eq_true in E.
    - apply elem_of_app. right. by left. }
  split; [exact Hin |]. split; [| split].
  - unfold add_target_user at 1. by rewrite bool_decide_eq_true_2.
  - intros Hn. unfold remove_target_user.
    rewrite bool_decide_eq_true_2 by exact Hin.
    unfold add_target_user. rewrite bool_decide_eq_false_2 by exact Hn.
    by apply remove_first_snoc.
  - intros Hd. split; [| split].
    + unfold add_target_user. destruct (bool_decide _) eqn:E; [exact Hd |].
      apply bool_decide_eq_false in E.
      apply NoDup_app. split; [exact Hd |]. split.
      * intros x Hx ->%list_elem_of_singleton. done.
      * apply NoDup_singleton.
    + unfold remove_target_user. destruct (bool_decide _); [| exact Hd].
      by apply remove_first_NoDup.
    + unfold remove_target_user. destruct (bool_decide _) eqn:E.
      * by apply remove_first_NoDup.
      * by apply bool_decide_eq_false in E.
Qed.

Lemma target_users_add_and_remove_witness :
  remove_target_user "Pepe" (add_target_user "Pepe" TARGET_USERS)
  = TARGET_USERS.
Proof.
  destruct (target_users_add_and_remove "Pepe" TARGET_USERS)
    as (_ & _ & H & _).
  apply H. unfold TARGET_USERS.
  rewrite !not_elem_of_cons. repeat split; try discriminate.
  apply not_elem_of_nil.
Defined.

End Config.
